(** * uasat: relations and operations as flattened truth tables

    A shallow embedding of the combinator layer of [uasat/relation.py],
    [uasat/operation.py] and [uasat/algebra.py].

    A table is a list of cell values.  For a constant-backed table (the
    solver [Solver.CALC]) a cell is [Solver.TRUE] or [Solver.FALSE], which we
    write [true] / [false]; for a variable-backed table the same definitions
    describe the cell values in one model of the solver.  The flat index of
    the tuple [(x_0, ..., x_{a-1})] is the mixed-radix number
    [x_0 + size * x_1 + ... + size^(a-1) * x_{a-1}]: coordinate 0 is the least
    significant one ([Relation.new_singleton] and [Relation.polymer]). *)

From Stdlib Require Import List Arith Lia Bool ZArith.
Import ListNotations.

(** ** Python exceptions *)

Inductive PyExc : Type :=
| AssertionError
| NotImplementedError
| ValueError
| TypeError
| IndexError.

Inductive PyResult (A : Type) : Type :=
| Ok (a : A)
| Raise (e : PyExc).
Arguments Ok {A} a.
Arguments Raise {A} e.

(** [range(start, stop, step)] for a positive [step]. *)
Definition range (start stop step : nat) : list nat :=
  map (fun j => start + j * step) (seq 0 ((stop - start + step - 1) / step)).

(** [range(start, stop, step)] including its [ValueError] on a zero step. *)
Definition range_step (start stop step : nat) : PyResult (list nat) :=
  if step =? 0 then Raise ValueError else Ok (range start stop step).

(** [lst[i] = v] on a Python list, for an index in range. *)
Fixpoint list_set {A} (l : list A) (i : nat) (v : A) : list A :=
  match l, i with
  | [], _ => []
  | _ :: r, 0 => v :: r
  | x :: r, S i' => x :: list_set r i' v
  end.

(** ** Literal-level combinators of the SAT back-end *)

(** Modelled from the spec: the solver's [fold_any], [fold_all], [fold_one]
    and [fold_amo] (the Rust extension [_uasat], not in the Python sources)
    compile existential, universal, exactly-one and at-most-one
    quantification; on cell values they are these boolean functions. *)
Definition count_true (l : list bool) : nat := length (filter (fun b => b) l).

Definition lits_fold_any (l : list bool) : bool := existsb (fun b => b) l.
Definition lits_fold_all (l : list bool) : bool := forallb (fun b => b) l.
Definition lits_fold_one (l : list bool) : bool := count_true l =? 1.
Definition lits_fold_amo (l : list bool) : bool := count_true l <=? 1.

(** Modelled from the spec: elementwise AND of two BitVecs of equal length. *)
Fixpoint bv_and (a b : list bool) : list bool :=
  match a, b with
  | x :: a', y :: b' => (x && y) :: bv_and a' b'
  | _, _ => []
  end.

(** [BitVec.slice(a, b)] *)
Definition slice (l : list bool) (a b : nat) : list bool :=
  firstn (b - a) (skipn a l).

(** ** Relation *)

Record Relation : Type := mkRelation {
  size : nat;
  arity : nat;
  table : list bool
}.

(** The constructor [Relation(size, arity, table)] with its assertions. *)
Definition Relation_new (size arity : nat) (table : list bool) : PyResult Relation :=
  if (1 <=? size) && (length table =? size ^ arity)
  then Ok (mkRelation size arity table)
  else Raise AssertionError.

(** Mixed-radix flat index of a tuple, coordinate 0 least significant. *)
Fixpoint encode (size : nat) (x : list nat) : nat :=
  match x with
  | [] => 0
  | xi :: r => xi + size * encode size r
  end.

(** The tuple of [n] coordinates with flat index [t]. *)
Fixpoint digits (size n t : nat) : list nat :=
  match n with
  | 0 => []
  | S n' => t mod size :: digits size n' (t / size)
  end.

(** The cell of a relation at a tuple. *)
Definition cell (r : Relation) (x : list nat) : bool :=
  nth (encode (size r) x) (table r) false.

Definition valid (size n : nat) (x : list nat) : Prop :=
  length x = n /\ Forall (fun xi => xi < size) x.

(** A relation as the constructor admits it. *)
Definition wf (r : Relation) : Prop :=
  1 <= size r /\ length (table r) = size r ^ arity r.

(** [Relation.new_diag(size, arity)] *)
Definition new_diag (size arity : nat) : PyResult Relation :=
  if negb (1 <=? size) then Raise AssertionError
  else if size <=? 1 then Relation_new size arity [true]
  else
    let length := size ^ arity in
    let step := (size ^ arity - 1) / (size - 1) in
    match range_step 0 length step with
    | Raise e => Raise e
    | Ok idxs =>
        Relation_new size arity
          (fold_left (fun t idx => list_set t idx true) idxs (repeat false length))
    end.

(** [Relation.new_full(size, arity)] *)
Definition new_full (size arity : nat) : Relation :=
  mkRelation size arity (repeat true (size ^ arity)).

(** *** polymer *)

(** [strides[var] += length] *)
Fixpoint add_at (l : list nat) (k d : nat) : list nat :=
  match l, k with
  | [], _ => []
  | x :: r, 0 => (x + d) :: r
  | x :: r, S k' => x :: add_at r k' d
  end.

(** The first loop of [polymer]: [for var in new_vars: strides[var] +=
    length; length *= self.size]. *)
Fixpoint polymer_strides (size : nat) (new_vars strides : list nat) (length : nat)
  : list nat :=
  match new_vars with
  | [] => strides
  | var :: vs => polymer_strides size vs (add_at strides var length) (length * size)
  end.

(** The inner loop [for idx in range(new_arity): ...] that advances the
    odometer [indices] and the source position [pos], with its [break]. *)
Fixpoint polymer_advance (size : nat) (strides indices : list nat) (pos : nat)
  : list nat * nat :=
  match strides, indices with
  | s :: ss, i :: is =>
      let pos := pos + s in
      if i + 1 <? size then (i + 1 :: is, pos)
      else
        let '(is', pos') := polymer_advance size ss is (pos - s * size) in
        (0 :: is', pos')
  | _, _ => (indices, pos)
  end.

(** The outer loop [for _ in range(self.size ** new_arity)]: each round
    appends [self.table[pos]] and advances. *)
Fixpoint polymer_loop (size : nat) (src : list bool) (strides : list nat)
    (count : nat) (indices : list nat) (pos : nat) : list bool :=
  match count with
  | 0 => []
  | S c =>
      nth pos src false ::
        let '(is', pos') := polymer_advance size strides indices pos in
        polymer_loop size src strides c is' pos'
  end.

(** [Relation.polymer(new_vars, new_arity)]; its assertions
    [len(new_vars) == self.arity] and [0 <= var < new_arity] are the
    hypotheses of the lemmas about it. *)
Definition polymer (r : Relation) (new_vars : list nat) (new_arity : nat) : Relation :=
  let strides := polymer_strides (size r) new_vars (repeat 0 new_arity) 1 in
  mkRelation (size r) new_arity
    (polymer_loop (size r) (table r) strides (size r ^ new_arity)
       (repeat 0 new_arity) 0).

(** [Relation.polymer_rotate(offset)], Python's [%] being [Z.modulo]. *)
Definition polymer_rotate (r : Relation) (offset : Z) : Relation :=
  if (offset mod Z.of_nat (arity r) =? 0)%Z then r
  else
    polymer r
      (map (fun i => Z.to_nat ((Z.of_nat i + offset) mod Z.of_nat (arity r)))
         (seq 0 (arity r)))
      (arity r).

(** [Relation.polymer_insert(var)] *)
Definition polymer_insert (r : Relation) (var : nat) : Relation :=
  polymer r (map (fun i => if i <? var then i else i + 1) (seq 0 (arity r)))
    (S (arity r)).

(** *** folds *)

(** The common body of [fold_any], [fold_all], [fold_one] and [fold_amo]. *)
Definition fold_with (f : list bool -> bool) (r : Relation) (count : nat) : Relation :=
  let step := size r ^ count in
  mkRelation (size r) (arity r - count)
    (map (fun idx => f (slice (table r) idx (idx + step)))
       (range 0 (length (table r)) step)).

Definition fold_any := fold_with lits_fold_any.
Definition fold_all := fold_with lits_fold_all.
Definition fold_one := fold_with lits_fold_one.
Definition fold_amo := fold_with lits_fold_amo.

(** [Relation.__and__] *)
Definition rel_and (a b : Relation) : Relation :=
  mkRelation (size a) (arity a) (bv_and (table a) (table b)).

(** [Relation.new_singleton(size, coord)] *)
Definition new_singleton (size : nat) (coord : list nat) : Relation :=
  let pos := fold_left (fun pos c => pos * size + c) (rev coord) 0 in
  mkRelation size (length coord)
    (list_set (repeat false (size ^ length coord)) pos true).

(** [Relation.product(other)] *)
Definition product (a b : Relation) : Relation :=
  let rel1 := polymer a (range 0 (arity a) 1) (arity a + arity b) in
  let rel2 := polymer b (range (arity a) (arity a + arity b) 1) (arity a + arity b) in
  rel_and rel1 rel2.

(** *** evaluate and its specialisations *)

(** [Relation._evaluate_n1] *)
Definition evaluate_n1 (self : Relation) (opers : list Relation) : Relation :=
  match opers with
  | [] => self
  | o :: rest => fold_left product rest o
  end.

(** The [while oper.arity > 1] loop of [_evaluate_1m]; each round lowers
    the arity by one, so [oper.arity] rounds of fuel suffice. *)
Fixpoint evaluate_1m_loop (self : Relation) (fuel : nat) (oper : Relation) : Relation :=
  match fuel with
  | 0 => oper
  | S f =>
      if 1 <? arity oper then
        let oper := rel_and oper (polymer self [0] (arity oper)) in
        evaluate_1m_loop self f (fold_any oper 1)
      else oper
  end.

(** [Relation._evaluate_1m] *)
Definition evaluate_1m (self oper : Relation) : Relation :=
  let oper := polymer_rotate oper (-1) in
  evaluate_1m_loop self (arity oper) oper.

(** One round of the loop of [_evaluate_n2]. *)
Definition evaluate_n2_step (rel oper : Relation) : Relation :=
  let rel := polymer_insert rel 0 in
  let rel := rel_and rel (polymer oper [0; 1] (arity rel)) in
  let rel := polymer_rotate rel (-1) in
  fold_any rel 1.

(** [Relation._evaluate_n2] *)
Definition evaluate_n2 (self : Relation) (opers : list Relation) : Relation :=
  fold_left evaluate_n2_step opers self.

(** One round of the loop of [_evaluate_2m]. *)
Definition evaluate_2m_step (rel test : Relation) : Relation :=
  let test := polymer_insert test 1 in
  let test := rel_and test rel in
  let test := fold_any test 1 in
  polymer_rotate test (-1).

(** [Relation._evaluate_2m] *)
Definition evaluate_2m (self oper0 oper1 : Relation) : Relation :=
  let rel := polymer self [0; 1] (arity oper0 + 1) in
  let test := polymer_rotate oper0 (-1) in
  let test := Nat.iter (arity oper0 - 1) (evaluate_2m_step rel) test in
  let test := polymer_insert test 1 in
  let test := rel_and test (polymer_insert oper1 0) in
  let test := polymer_rotate test (-2) in
  fold_any test (arity oper0 - 1).

(** One round of the loop of [_evaluate_n3]. *)
Definition evaluate_n3_step (rel oper : Relation) : Relation :=
  let rel := polymer_insert rel 0 in
  let rel := rel_and rel (polymer oper [0; 1; 2] (arity rel)) in
  let rel := polymer_rotate rel (-1) in
  fold_any rel 2.

(** [Relation._evaluate_n3] *)
Definition evaluate_n3 (self : Relation) (opers : list Relation) : Relation :=
  let k := arity self in
  let rel := polymer self (range 0 (2 * k) 2) (2 * k) in
  let rel := rel_and rel (polymer self (range 1 (2 * k) 2) (2 * k)) in
  fold_left evaluate_n3_step opers rel.

(** The loop [for idx, oper in enumerate(opers)] of [_evaluate_nm]. *)
Fixpoint evaluate_nm_graphs (k : nat) (idx : nat) (opers : list Relation) (rel : Relation)
  : Relation :=
  match opers with
  | [] => rel
  | oper :: rest =>
      let rel := rel_and rel (polymer oper (range idx (arity rel) k) (arity rel)) in
      evaluate_nm_graphs k (S idx) rest rel
  end.

(** [Relation._evaluate_nm] *)
Definition evaluate_nm (self : Relation) (opers : list Relation) : Relation :=
  let k := arity self in
  let oper_arity := match opers with [] => 0 | o :: _ => arity o end in
  let rel := new_full (size self) (k * oper_arity) in
  let rel := evaluate_nm_graphs k 0 opers rel in
  let rel := fold_left (fun rel idx => rel_and rel (polymer self (range idx (idx + k) 1) (arity rel)))
               (range k (arity rel) k) rel in
  let rel := polymer_rotate rel (- Z.of_nat k) in
  fold_any rel (k * (oper_arity - 1)).

(** [Relation.evaluate(operations)] with its entry assertions and its
    dispatch on the relation arity and the operations' (graph) arity. *)
Definition evaluate (self : Relation) (operations : list Relation) : PyResult Relation :=
  match operations with
  | [] => Raise AssertionError
  | op0 :: _ =>
      if negb ((length operations =? arity self) && (1 <=? arity self))
      then Raise AssertionError
      else
        let oper_arity := arity op0 in
        if negb (1 <=? oper_arity) then Raise AssertionError
        else if negb (forallb (fun o => (arity o =? oper_arity) && (size o =? size self))
                        operations)
        then Raise AssertionError
        else if oper_arity =? 1 then Ok (evaluate_n1 self operations)
        else if arity self =? 1 then Ok (evaluate_1m self op0)
        else if oper_arity =? 2 then Ok (evaluate_n2 self operations)
        else if arity self =? 2 then
          match operations with
          | [o0; o1] => Ok (evaluate_2m self o0 o1)
          | _ => Raise AssertionError
          end
        else if oper_arity =? 3 then Ok (evaluate_n3 self operations)
        else Raise NotImplementedError
  end.

(** ** Operation and PartialOp *)

Record Operation : Type := mkOperation {
  op_size : nat;
  op_arity : nat;
  op_table : list bool
}.

(** [Operation.as_relation()]: the graph, with the result as coordinate 0. *)
Definition as_relation (o : Operation) : Relation :=
  mkRelation (op_size o) (S (op_arity o)) (op_table o).

(** [Relation.closure(operation)] *)
Definition closure (self : Relation) (operation : Operation) : PyResult Relation :=
  let oper := as_relation operation in
  evaluate self (repeat oper (arity self)).

(** The inner loop of [Operation.decode]: the first [i] in [range(size)]
    with [self.table[start + i] == TRUE], if any. *)
Fixpoint first_true (tbl : list bool) (start : nat) (is : list nat) : option nat :=
  match is with
  | [] => None
  | i :: rest => if nth (start + i) tbl false then Some i else first_true tbl start rest
  end.

(** [Operation.decode()] on a constant-backed table. *)
Definition Operation_decode (o : Operation) : list nat :=
  flat_map (fun start =>
              match first_true (op_table o) start (seq 0 (op_size o)) with
              | Some i => [i]
              | None => []
              end)
    (range 0 (length (op_table o)) (op_size o)).

(** The loop [for idx, arg in enumerate(args)] of [Operation.compose]. *)
Fixpoint compose_args (n total idx : nat) (args : list Operation) (rel : Relation) : Relation :=
  match args with
  | [] => rel
  | arg :: rest =>
      let rel := rel_and rel (polymer (as_relation arg) (idx :: range (n + 1) total 1) total) in
      compose_args n total (S idx) rest rel
  end.

(** [Operation.compose(args)]; the final
    [rel.fold_one(1).table.ensure_all()] adds clauses to the solver and
    leaves the returned table unchanged. *)
Definition Operation_compose (self : Operation) (args : list Operation) : PyResult Operation :=
  match args with
  | [] => Raise AssertionError
  | a0 :: _ =>
      if negb ((op_arity self =? length args) && (1 <=? op_arity self))
      then Raise AssertionError
      else
        let new_arity := op_arity a0 in
        let total := op_arity self + 1 + new_arity in
        let rel := polymer (as_relation self) (op_arity self :: range 0 (op_arity self) 1) total in
        let rel := compose_args (op_arity self) total 0 args rel in
        let rel := fold_any rel (op_arity self) in
        Ok (mkOperation (op_size self) new_arity (table rel))
  end.

(** A call [oper.compose(args, *extra)]: [compose] has the single
    parameter [args], so any further positional argument is a
    [TypeError] raised when the call binds its arguments. *)
Definition Operation_compose_call (self : Operation) (args : list Operation)
    (extra : list bool) : PyResult Operation :=
  match extra with
  | [] => Operation_compose self args
  | _ :: _ => Raise TypeError
  end.

(** [Constant(size, table)] from a BitVec: [Operation(size, 0, table)]. *)
Definition Constant_new (size : nat) (tbl : list bool) : PyResult Operation :=
  if (1 <=? size) && (length tbl =? size ^ 1)
  then Ok (mkOperation size 0 tbl)
  else Raise AssertionError.

Record SmallAlg : Type := mkSmallAlg { operations : list Operation }.

Definition signature (alg : SmallAlg) : list nat := map op_arity (operations alg).

Definition alg_size (alg : SmallAlg) : nat :=
  match operations alg with [] => 0 | o :: _ => op_size o end.

(** [map(Constant(...), args)], raising on the first bad argument. *)
Fixpoint constants (size : nat) (args : list (list bool)) : PyResult (list Operation) :=
  match args with
  | [] => Ok []
  | a :: rest =>
      match Constant_new size a, constants size rest with
      | Ok c, Ok cs => Ok (c :: cs)
      | Raise e, _ => Raise e
      | _, Raise e => Raise e
      end
  end.

(** [SmallAlg.apply(op, args, partop=False)] *)
Definition SmallAlg_apply (alg : SmallAlg) (op : nat) (args : list (list bool))
    (partop : bool) : PyResult (list bool) :=
  match nth_error (signature alg) op, nth_error (operations alg) op with
  | Some ar, Some oper =>
      if negb (length args =? ar) then Raise AssertionError
      else
        match constants (alg_size alg) args with
        | Raise e => Raise e
        | Ok elems =>
            match Operation_compose_call oper elems [partop] with
            | Raise e => Raise e
            | Ok res =>
                if length (op_table res) =? alg_size alg then Ok (op_table res)
                else Raise AssertionError
            end
        end
  | _, _ => Raise IndexError
  end.

(** ** The solver, for freshly allocated operations *)

Module Sat.

Inductive Lit : Type :=
| LConst (b : bool)
| LVar (v : nat).

(** Modelled from the spec: [ensure_one] / [ensure_amo] assert, by
    clauses added to the solver, that exactly one / at most one literal of
    the slice is true. *)
Inductive Constraint : Type :=
| EnsureOne (lits : list Lit)
| EnsureAmo (lits : list Lit).

Record Solver : Type := mkSolver {
  num_vars : nat;
  constraints : list Constraint
}.

(** Modelled from the spec: [BitVec.new_variable(solver, length)] allocates
    [length] fresh variables. *)
Definition new_variable (s : Solver) (length : nat) : list Lit * Solver :=
  (map LVar (seq (num_vars s) length),
   mkSolver (num_vars s + length) (constraints s)).

Definition add_constraint (s : Solver) (c : Constraint) : Solver :=
  mkSolver (num_vars s) (constraints s ++ [c]).

Definition lit_value (sigma : nat -> bool) (l : Lit) : bool :=
  match l with
  | LConst b => b
  | LVar v => sigma v
  end.

Definition satisfies (sigma : nat -> bool) (c : Constraint) : Prop :=
  match c with
  | EnsureOne lits => count_true (map (lit_value sigma) lits) = 1
  | EnsureAmo lits => count_true (map (lit_value sigma) lits) <= 1
  end.

(** A satisfying model of the solver. *)
Definition is_model (sigma : nat -> bool) (s : Solver) : Prop :=
  Forall (satisfies sigma) (constraints s).

Definition lslice (l : list Lit) (a b : nat) : list Lit :=
  firstn (b - a) (skipn a l).

(** The [Solver] branch of [Operation.__init__] (with [ensure_one]) and of
    [PartialOp.__init__] (with [ensure_amo]): the table and the solver
    after the construction. *)
Definition new_op_variable (ensure : list Lit -> Constraint) (s : Solver)
    (size arity : nat) : list Lit * Solver :=
  let length := size ^ (arity + 1) in
  let '(tbl, s) := new_variable s length in
  (tbl, fold_left (fun s start => add_constraint s (ensure (lslice tbl start (start + size))))
          (range 0 length size) s).

Definition Operation_new_variable := new_op_variable EnsureOne.
Definition PartialOp_new_variable := new_op_variable EnsureAmo.

End Sat.

(** ** Further relation combinators *)

(** Modelled from the spec: elementwise NOT, OR and XOR of BitVecs, and
    [BitVec.fold_all()], which folds a whole BitVec into a one-element one. *)
Definition bv_not (a : list bool) : list bool := map negb a.

Fixpoint bv_or (a b : list bool) : list bool :=
  match a, b with
  | x :: a', y :: b' => (x || y) :: bv_or a' b'
  | _, _ => []
  end.

Fixpoint bv_xor (a b : list bool) : list bool :=
  match a, b with
  | x :: a', y :: b' => xorb x y :: bv_xor a' b'
  | _, _ => []
  end.

Definition bv_fold_all (a : list bool) : list bool := [lits_fold_all a].

(** [Relation.__invert__], [Relation.__or__] and [Relation.__xor__]; the
    size and arity assertions of [|] and [^] are hypotheses of the lemmas. *)
Definition rel_not (r : Relation) : Relation :=
  mkRelation (size r) (arity r) (bv_not (table r)).

Definition rel_or (a b : Relation) : Relation :=
  mkRelation (size a) (arity a) (bv_or (table a) (table b)).

Definition rel_xor (a b : Relation) : Relation :=
  mkRelation (size a) (arity a) (bv_xor (table a) (table b)).

(** [Relation.new_empty(size, arity)] *)
Definition new_empty (size arity : nat) : Relation :=
  mkRelation size arity (repeat false (size ^ arity)).

(** [Relation.polymer(new_vars)] with the default [new_arity =
    max(new_vars) + 1]; [max] of an empty list raises [ValueError]. *)
Definition polymer_default (r : Relation) (new_vars : list nat) : PyResult Relation :=
  if negb (length new_vars =? arity r) then Raise AssertionError
  else
    match new_vars with
    | [] => Raise ValueError
    | _ :: _ => Ok (polymer r new_vars (list_max new_vars + 1))
    end.

(** [Relation.polymer_swap(var0, var1)] *)
Definition polymer_swap (r : Relation) (var0 var1 : nat) : PyResult Relation :=
  if negb ((var0 <? arity r) && (var1 <? arity r)) then Raise AssertionError
  else if var0 =? var1 then Ok r
  else
    let new_vars := list_set (list_set (seq 0 (arity r)) var0 var1) var1 var0 in
    Ok (polymer r new_vars (arity r)).

(** [Relation.reflexive()] *)
Definition reflexive (r : Relation) : PyResult (list bool) :=
  match polymer_default r (repeat 0 (arity r)) with
  | Raise e => Raise e
  | Ok diag => Ok (bv_fold_all (table diag))
  end.

(** [Relation.symmetric()] *)
Definition symmetric (r : Relation) : PyResult (list bool) :=
  if negb (arity r =? 2) then Raise AssertionError
  else
    match polymer_default r [1; 0] with
    | Raise e => Raise e
    | Ok t => Ok (bv_fold_all (table (rel_or (rel_not r) t)))
    end.

(** [Relation.antisymm()] *)
Definition antisymm (r : Relation) : PyResult (list bool) :=
  if negb (arity r =? 2) then Raise AssertionError
  else
    match polymer_default r [1; 0] with
    | Raise e => Raise e
    | Ok t =>
        let rel := rel_and r t in
        match new_diag (size r) 2 with
        | Raise e => Raise e
        | Ok d => Ok (bv_fold_all (table (rel_or (rel_not rel) d)))
        end
    end.

(** [Relation.compose(other)] *)
Definition rel_compose (self other : Relation) : PyResult Relation :=
  if negb ((arity self =? arity other) && (arity other =? 2)) then Raise AssertionError
  else Ok (fold_any (rel_and (polymer self [1; 0] 3) (polymer self [0; 2] 3)) 1).

(** [Relation.transitive()] *)
Definition transitive (r : Relation) : PyResult (list bool) :=
  if negb (arity r =? 2) then Raise AssertionError
  else
    match rel_compose r r with
    | Raise e => Raise e
    | Ok c => Ok (bv_fold_all (table (rel_or (rel_not c) r)))
    end.

(** [Relation.preserves(operation)] *)
Definition preserves (self : Relation) (operation : Operation) : PyResult (list bool) :=
  match closure self operation with
  | Raise e => Raise e
  | Ok rel => Ok (bv_fold_all (table (rel_or (rel_not rel) self)))
  end.

(** ** Constructors and views of Operation and PartialOp *)

(** [Operation(size, arity, table)] from a BitVec. *)
Definition Operation_new_bv (size arity : nat) (tbl : list bool) : PyResult Operation :=
  if (1 <=? size) && (length tbl =? size ^ (arity + 1))
  then Ok (mkOperation size arity tbl)
  else Raise AssertionError.

(** [Operation(size, arity, table)] from a list of values: block [idx] gets
    its cell [idx * size + val] set. *)
Definition Operation_new_list (size arity : nat) (vals : list nat) : PyResult Operation :=
  if negb (1 <=? size) then Raise AssertionError
  else
    let len := size ^ (arity + 1) in
    if negb (length vals =? len / size) then Raise AssertionError
    else if negb (forallb (fun v => v <? size) vals) then Raise AssertionError
    else
      Ok (mkOperation size arity
            (fold_left (fun t '(idx, val) => list_set t (idx * size + val) true)
               (combine (seq 0 (length vals)) vals) (repeat false len))).

(** [Operation.new_const(size, index)] *)
Definition Operation_new_const (size index : nat) : PyResult Operation :=
  if negb (index <? size) then Raise AssertionError
  else Operation_new_bv size 0 (list_set (repeat false size) index true).

(** [Operation.new_proj(size, arity, coord)] *)
Definition Operation_new_proj (size arity coord : nat) : PyResult Operation :=
  if negb ((1 <=? size) && (coord <? arity)) then Raise AssertionError
  else
    match new_diag size 2 with
    | Raise e => Raise e
    | Ok d => Operation_new_bv size arity (table (polymer d [0; coord + 1] (arity + 1)))
    end.

(** The loop of [Operation.polymer]: each round appends the [size] cells
    [self.table[pos : pos + size]] and advances the odometer. *)
Fixpoint op_polymer_loop (size : nat) (src : list bool) (strides : list nat)
    (count : nat) (indices : list nat) (pos : nat) : list bool :=
  match count with
  | 0 => []
  | S c =>
      map (fun pos2 => nth pos2 src false) (seq pos size) ++
        let '(is', pos') := polymer_advance size strides indices pos in
        op_polymer_loop size src strides c is' pos'
  end.

(** [Operation.polymer(new_vars, new_arity)]; its assertions are the
    hypotheses of the lemmas about it. *)
Definition Operation_polymer (o : Operation) (new_vars : list nat) (new_arity : nat)
  : Operation :=
  let strides := polymer_strides (op_size o) new_vars (repeat 0 new_arity) (op_size o) in
  mkOperation (op_size o) new_arity
    (op_polymer_loop (op_size o) (op_table o) strides (op_size o ^ new_arity)
       (repeat 0 new_arity) 0).

Record PartialOp : Type := mkPartialOp {
  pop_size : nat;
  pop_arity : nat;
  pop_table : list bool
}.

(** [PartialOp(size, arity, table)] from a list of optional values. *)
Definition PartialOp_new_list (size arity : nat) (vals : list (option nat))
  : PyResult PartialOp :=
  if negb (1 <=? size) then Raise AssertionError
  else
    let len := size ^ (arity + 1) in
    if negb (length vals =? len / size) then Raise AssertionError
    else if negb (forallb (fun v => match v with None => true | Some v => v <? size end) vals)
    then Raise AssertionError
    else
      Ok (mkPartialOp size arity
            (fold_left (fun t '(idx, val) =>
                          match val with
                          | None => t
                          | Some v => list_set t (idx * size + v) true
                          end)
               (combine (seq 0 (length vals)) vals) (repeat false len))).

(** [PartialOp.decode()] on a constant-backed table. *)
Definition PartialOp_decode (p : PartialOp) : list (option nat) :=
  map (fun start => first_true (pop_table p) start (seq 0 (pop_size p)))
    (range 0 (length (pop_table p)) (pop_size p)).

(** [PartialOp.as_relation()] *)
Definition PartialOp_as_relation (p : PartialOp) : Relation :=
  mkRelation (pop_size p) (S (pop_arity p)) (pop_table p).

(** [PartialOp.domain()] *)
Definition PartialOp_domain (p : PartialOp) : Relation :=
  fold_any (PartialOp_as_relation p) 1.

(** [PartialOp(size, arity, table)] from a BitVec. *)
Definition PartialOp_new_bv (size arity : nat) (tbl : list bool) : PyResult PartialOp :=
  if (1 <=? size) && (length tbl =? size ^ (arity + 1))
  then Ok (mkPartialOp size arity tbl)
  else Raise AssertionError.

(** [PartialOp.new_const(size, index)], [None] being the undefined constant. *)
Definition PartialOp_new_const (size : nat) (index : option nat) : PyResult PartialOp :=
  if negb (match index with None => true | Some i => i <? size end) then Raise AssertionError
  else
    PartialOp_new_bv size 0
      (match index with
       | None => repeat false size
       | Some i => list_set (repeat false size) i true
       end).

(** [Operation.as_partialop()] *)
Definition as_partialop (o : Operation) : PartialOp :=
  mkPartialOp (op_size o) (op_arity o) (op_table o).

(** [PartialOp.polymer(new_vars, new_arity)]: the loop of
    [Operation.polymer]; its assertions are the hypotheses of the lemmas
    about it. *)
Definition PartialOp_polymer (p : PartialOp) (new_vars : list nat) (new_arity : nat)
  : PartialOp :=
  let strides := polymer_strides (pop_size p) new_vars (repeat 0 new_arity) (pop_size p) in
  mkPartialOp (pop_size p) new_arity
    (op_polymer_loop (pop_size p) (pop_table p) strides (pop_size p ^ new_arity)
       (repeat 0 new_arity) 0).

(** The loop [for idx, arg in enumerate(args)] of [PartialOp.compose]. *)
Fixpoint pcompose_args (n total idx : nat) (args : list PartialOp) (rel : Relation) : Relation :=
  match args with
  | [] => rel
  | arg :: rest =>
      let rel := rel_and rel (polymer (PartialOp_as_relation arg) (idx :: range (n + 1) total 1) total) in
      pcompose_args n total (S idx) rest rel
  end.

(** [PartialOp.compose(args)]; the final
    [rel.fold_amo(1).table.ensure_all()] adds clauses to the solver and
    leaves the returned table unchanged. *)
Definition PartialOp_compose (self : PartialOp) (args : list PartialOp) : PyResult PartialOp :=
  match args with
  | [] => Raise AssertionError
  | a0 :: _ =>
      if negb ((pop_arity self =? length args) && (1 <=? pop_arity self))
      then Raise AssertionError
      else
        let new_arity := pop_arity a0 in
        let total := pop_arity self + 1 + new_arity in
        let rel := polymer (PartialOp_as_relation self)
                     (pop_arity self :: range 0 (pop_arity self) 1) total in
        let rel := pcompose_args (pop_arity self) total 0 args rel in
        let rel := fold_any rel (pop_arity self) in
        Ok (mkPartialOp (pop_size self) new_arity (table rel))
  end.

(** ** ProductAlg *)

(** [ProductAlg.splitup(elem)] for factors of lengths [lengths]. *)
Definition ProductAlg_splitup (lengths : list nat) (elem : list bool)
  : PyResult (list (list bool)) :=
  if negb (length elem =? list_sum lengths) then Raise AssertionError
  else
    Ok (fst (fold_left (fun '(parts, start) len =>
                          (parts ++ [slice elem start (start + len)], start + len))
               lengths ([], 0))).

(** [ProductAlg.combine(parts)] on the literals of the parts. *)
Definition ProductAlg_combine (lengths : list nat) (parts : list (list bool))
  : PyResult (list bool) :=
  if negb (length parts =? length lengths) then Raise AssertionError
  else
    let literals := fold_left (fun lits part => lits ++ part) parts [] in
    if negb (length literals =? list_sum lengths) then Raise AssertionError
    else Ok literals.

(** ** Auxiliary definitions for the proofs *)

(** [sum(strides[v] * indices[v])]: the source position of an odometer state. *)
Fixpoint dot (ss xs : list nat) : nat :=
  match ss, xs with
  | s :: ss', x :: xs' => s * x + dot ss' xs'
  | _, _ => 0
  end.

(** The coordinates of a tuple at even and at odd positions: [_evaluate_n3]
    lays two tuples of the relation over these. *)
Fixpoint evens (l : list nat) : list nat :=
  match l with [] => [] | x :: l' => x :: odds l' end
with odds (l : list nat) : list nat :=
  match l with [] => [] | _ :: l' => evens l' end.

(** The relation [_evaluate_n3] starts its loop from. *)
Definition n3_init (R : Relation) : Relation :=
  let k := arity R in
  rel_and (polymer R (range 0 (2 * k) 2) (2 * k)) (polymer R (range 1 (2 * k) 2) (2 * k)).

(** A flat tuple cut into [n] consecutive blocks of [k] coordinates: the
    rows [_evaluate_nm] lays its relation copies over. *)
Fixpoint chunks (k n : nat) (z : list nat) : list (list nat) :=
  match n with
  | 0 => []
  | S n => firstn k z :: chunks k n (skipn k z)
  end.

(** The relation [evaluate] is meant to compute: [y] is in the image of the
    [k]-ary relation [R] under the graphs [ops] (each of arity [p], the
    result being coordinate 0) when there are [p - 1] tuples of [R] such
    that, for every [j < k], [ops_j] relates [y_j] to the [j]-th coordinates
    of these tuples. *)
Definition image (R : Relation) (ops : list Relation) (p : nat) (y : list nat) : Prop :=
  exists rows : list (list nat),
    length rows = p - 1 /\
    (forall t, In t rows -> valid (size R) (arity R) t /\ cell R t = true) /\
    forall j, j < arity R ->
      cell (nth j ops R) (nth j y 0 :: map (fun t => nth j t 0) rows) = true.

(** The shape assertions of [evaluate]: [k] graphs of one arity [p] over
    the universe of [R]. *)
Definition ops_ok (R : Relation) (ops : list Relation) (p : nat) : Prop :=
  wf R /\ length ops = arity R /\
  forall o, In o ops -> wf o /\ size o = size R /\ arity o = p.

(** The answer of an evaluate path: a well-formed [k]-ary relation whose
    cells are the image. *)
Definition computes_image (R : Relation) (ops : list Relation) (p : nat) (E : Relation) : Prop :=
  wf E /\ size E = size R /\ arity E = arity R /\
  forall y, valid (size R) (arity R) y -> (cell E y = true <-> image R ops p y).

(** Boolean versions of [wf] and [ops_ok], to check concrete inputs. *)
Definition wfb (r : Relation) : bool :=
  (1 <=? size r) && (length (table r) =? size r ^ arity r).

Definition ops_okb (R : Relation) (ops : list Relation) (p : nat) : bool :=
  wfb R && (length ops =? arity R) &&
  forallb (fun o => wfb o && (size o =? size R) && (arity o =? p)) ops.

(** A table satisfies the functionality invariant of an [Operation]:
    every block of [size] consecutive cells has exactly one true cell. *)
Definition functional (o : Operation) : Prop :=
  length (op_table o) = op_size o ^ (op_arity o + 1) /\
  (forall b, b < op_size o ^ op_arity o ->
    count_true (slice (op_table o) (b * op_size o) (b * op_size o + op_size o)) = 1).

(** A table satisfies the invariant of a [PartialOp], the one that
    [ensure_amo] puts on each block: at most one true cell per block. *)
Definition partial_functional (p : PartialOp) : Prop :=
  length (pop_table p) = pop_size p ^ (pop_arity p + 1) /\
  (forall b, b < pop_size p ^ pop_arity p ->
    count_true (slice (pop_table p) (b * pop_size p) (b * pop_size p + pop_size p)) <= 1).

(** * Proofs *)

(** ** Mixed-radix tuples *)

Lemma pow_pos_le (s n : nat) : 1 <= s -> 1 <= s ^ n.
Proof. intros H. induction n; simpl; nia. Qed.

Lemma valid_cons s n xi x : valid s (S n) (xi :: x) <-> xi < s /\ valid s n x.
Proof.
  unfold valid; simpl; split.
  - intros [Hl Hf]; inversion Hf; subst; repeat split; auto.
  - intros [Hi [Hl Hf]]; split; auto.
Qed.

Lemma valid_nil s : valid s 0 [].
Proof. split; auto. Qed.

Lemma valid_app s n m a b : valid s n a -> valid s m b -> valid s (n + m) (a ++ b).
Proof.
  intros [Ha Fa] [Hb Fb]; split.
  - rewrite length_app; lia.
  - apply Forall_app; auto.
Qed.

Lemma valid_app_inv s n m x :
  valid s (n + m) x -> valid s n (firstn n x) /\ valid s m (skipn n x).
Proof.
  intros [Hl Hf].
  rewrite <- (firstn_skipn n x) in Hf. apply Forall_app in Hf as [F1 F2].
  split; split; auto.
  - rewrite length_firstn; lia.
  - rewrite length_skipn; lia.
Qed.

Lemma encode_app s a b : encode s (a ++ b) = encode s a + s ^ length a * encode s b.
Proof. induction a as [|xi a IH]; simpl; [lia|]. rewrite IH. nia. Qed.

Lemma encode_lt s n x : valid s n x -> encode s x < s ^ n.
Proof.
  revert n; induction x as [|xi x IH]; intros n Hv.
  - destruct Hv as [Hl _]; subst n; simpl; lia.
  - destruct n as [|n]; [destruct Hv as [Hl _]; discriminate|].
    apply valid_cons in Hv as [Hi Hv]. specialize (IH n Hv). simpl. nia.
Qed.

Lemma digits_valid s n t : 1 <= s -> valid s n (digits s n t).
Proof.
  intros Hs; revert t; induction n as [|n IH]; intros t; simpl.
  - apply valid_nil.
  - apply valid_cons; split; [apply Nat.mod_upper_bound; lia | apply IH].
Qed.

Lemma encode_digits s n t : 1 <= s -> encode s (digits s n t) = t mod s ^ n.
Proof.
  intros Hs; revert t; induction n as [|n IH]; intros t; cbn [digits encode].
  - now rewrite Nat.pow_0_r, Nat.mod_1_r.
  - rewrite IH, Nat.pow_succ_r', Nat.Div0.mod_mul_r; lia.
Qed.

Lemma digits_encode s n x : valid s n x -> digits s n (encode s x) = x.
Proof.
  revert n; induction x as [|xi x IH]; intros n Hv.
  - destruct Hv as [Hl _]; subst n; reflexivity.
  - destruct n as [|n]; [destruct Hv as [Hl _]; discriminate|].
    apply valid_cons in Hv as [Hi Hv]. cbn [digits encode].
    rewrite <- (Nat.mod_unique (xi + s * encode s x) s (encode s x) xi) by lia.
    rewrite <- (Nat.div_unique (xi + s * encode s x) s (encode s x) xi) by lia.
    now rewrite (IH n Hv).
Qed.

(** ** polymer *)

Lemma length_add_at l k d : length (add_at l k d) = length l.
Proof. revert k; induction l; intros [|k]; simpl; auto. Qed.

Lemma dot_add_at s x k d :
  k < length s -> length s = length x ->
  dot (add_at s k d) x = dot s x + d * nth k x 0.
Proof.
  revert x k; induction s as [|a s IH]; intros x k Hk Hl; simpl in *; [lia|].
  destruct x as [|b x]; simpl in Hl; [lia|].
  destruct k as [|k]; simpl; [nia|].
  rewrite IH by lia; lia.
Qed.

Lemma length_polymer_strides sz nv s0 len :
  length (polymer_strides sz nv s0 len) = length s0.
Proof.
  revert s0 len; induction nv; intros; simpl; auto.
  rewrite IHnv; apply length_add_at.
Qed.

Lemma dot_polymer_strides sz nv s0 len x :
  Forall (fun v => v < length s0) nv -> length s0 = length x ->
  dot (polymer_strides sz nv s0 len) x
  = dot s0 x + len * encode sz (map (fun v => nth v x 0) nv).
Proof.
  revert s0 len; induction nv as [|v nv IH]; intros s0 len Hf Hl; simpl.
  - lia.
  - inversion Hf; subst.
    rewrite IH; [| rewrite length_add_at; auto | rewrite length_add_at; auto].
    rewrite dot_add_at by lia. nia.
Qed.

Lemma dot_repeat_0 ss n : dot ss (repeat 0 n) = 0.
Proof. revert n; induction ss; intros [|n]; simpl; auto. rewrite IHss; lia. Qed.

Lemma dot_repeat_0_l xs n : dot (repeat 0 n) xs = 0.
Proof. revert n; induction xs; intros [|n]; simpl; auto. Qed.

Lemma encode_repeat_0 sz n : encode sz (repeat 0 n) = 0.
Proof. induction n; simpl; auto. rewrite IHn; lia. Qed.

Lemma valid_repeat_0 sz n : 1 <= sz -> valid sz n (repeat 0 n).
Proof.
  intros H; split; [apply repeat_length|].
  apply Forall_forall; intros y Hy; apply repeat_spec in Hy; lia.
Qed.

(** One round of the odometer adds one to the flat index of [indices] and
    keeps [pos] equal to [dot strides indices] (up to a constant). *)
Lemma polymer_advance_spec sz ss is c n :
  1 <= sz -> length ss = n -> valid sz n is -> encode sz is + 1 < sz ^ n ->
  let '(is', pos') := polymer_advance sz ss is (dot ss is + c) in
  valid sz n is' /\ encode sz is' = encode sz is + 1 /\ pos' = dot ss is' + c.
Proof.
  intros Hs; revert is c n; induction ss as [|s ss IH]; intros is c n Hl Hv Hlt.
  - simpl in Hl; subst n; simpl in Hlt; destruct Hv as [Hn _].
    destruct is; [simpl in Hlt; lia | discriminate].
  - destruct n as [|n]; [discriminate|].
    destruct is as [|i is]; [destruct Hv as [Hn _]; discriminate|].
    apply valid_cons in Hv as [Hi Hv]. simpl in Hl. cbn [polymer_advance dot encode].
    cbn [encode] in Hlt. rewrite Nat.pow_succ_r' in Hlt.
    destruct (Nat.ltb_spec (i + 1) sz) as [Hlt1|Hge].
    + split; [apply valid_cons; split; auto|]. cbn [dot encode]. split; lia.
    + assert (Hi' : i = sz - 1) by lia.
      replace (s * i + dot ss is + c + s - s * sz) with (dot ss is + c) by nia.
      assert (Hlt' : encode sz is + 1 < sz ^ n) by nia.
      specialize (IH is c n ltac:(lia) Hv Hlt').
      destruct (polymer_advance sz ss is (dot ss is + c)) as [is' pos'].
      destruct IH as (Hv' & He & Hp).
      split; [apply valid_cons; split; auto; lia|].
      cbn [dot encode]. split; nia.
Qed.

Lemma length_polymer_loop sz src ss c is pos :
  length (polymer_loop sz src ss c is pos) = c.
Proof.
  revert is pos; induction c; intros; simpl; auto.
  destruct (polymer_advance sz ss is pos); simpl; auto.
Qed.

Lemma polymer_loop_nth sz src ss n c : forall is t,
  1 <= sz -> length ss = n -> valid sz n is -> t < c -> encode sz is + t < sz ^ n ->
  nth t (polymer_loop sz src ss c is (dot ss is)) false
  = nth (dot ss (digits sz n (encode sz is + t))) src false.
Proof.
  induction c as [|c IH]; intros is t Hs Hl Hv Ht Hlt; [lia|].
  cbn [polymer_loop].
  destruct t as [|t].
  - simpl nth. rewrite Nat.add_0_r, (digits_encode sz n is Hv). reflexivity.
  - pose proof (polymer_advance_spec sz ss is 0 n Hs Hl Hv ltac:(lia)) as Ha.
    rewrite Nat.add_0_r in Ha.
    destruct (polymer_advance sz ss is (dot ss is)) as [is' pos'].
    destruct Ha as (Hv' & He & Hp). rewrite Nat.add_0_r in Hp. subst pos'.
    simpl nth. rewrite IH by (auto; lia). f_equal. f_equal. f_equal. lia.
Qed.

Lemma polymer_wf r nv n : wf r -> wf (polymer r nv n).
Proof.
  intros [Hs Hl]; split; simpl; auto. apply length_polymer_loop.
Qed.

Lemma polymer_size r nv n : size (polymer r nv n) = size r.
Proof. reflexivity. Qed.

Lemma polymer_arity r nv n : arity (polymer r nv n) = n.
Proof. reflexivity. Qed.

(** The cell of [polymer] at a tuple [x] is the cell of the source at the
    coordinates of [x] that [new_vars] selects. *)
Lemma cell_polymer r nv n x :
  1 <= size r -> Forall (fun v => v < n) nv -> valid (size r) n x ->
  cell (polymer r nv n) x = cell r (map (fun v => nth v x 0) nv).
Proof.
  intros Hs Hf Hx. unfold cell, polymer. cbn [size table].
  pose proof (encode_lt _ _ _ Hx) as Hlt.
  set (ss := polymer_strides (size r) nv (repeat 0 n) 1).
  assert (Hss : length ss = n) by (unfold ss; rewrite length_polymer_strides, repeat_length; auto).
  pose proof (polymer_loop_nth (size r) (table r) ss n (size r ^ n) (repeat 0 n) (encode (size r) x)
                Hs Hss (valid_repeat_0 _ _ Hs) Hlt ltac:(rewrite encode_repeat_0; lia)) as H.
  rewrite dot_repeat_0, encode_repeat_0, Nat.add_0_l, (digits_encode _ _ _ Hx) in H.
  rewrite H. unfold ss. rewrite dot_polymer_strides.
  - rewrite dot_repeat_0_l. f_equal. lia.
  - rewrite repeat_length; auto.
  - destruct Hx; rewrite repeat_length; auto.
Qed.

(** ** Tables, conjunction and folds *)

Lemma nth_map_seq {A} (g : nat -> A) q e d : e < q -> nth e (map g (seq 0 q)) d = g e.
Proof.
  intros He. rewrite (nth_indep _ d (g 0)) by (rewrite length_map, length_seq; lia).
  rewrite map_nth, seq_nth by lia. reflexivity.
Qed.

(** Two well-formed relations of one shape with equal cells are equal. *)
Lemma table_ext r1 r2 :
  wf r1 -> wf r2 -> size r1 = size r2 -> arity r1 = arity r2 ->
  (forall x, valid (size r1) (arity r1) x -> cell r1 x = cell r2 x) -> r1 = r2.
Proof.
  destruct r1 as [s1 a1 t1], r2 as [s2 a2 t2]; unfold wf, cell; simpl.
  intros [Hs1 Hl1] [Hs2 Hl2] -> -> Hc. f_equal.
  apply nth_ext with (d := false) (d' := false); [lia|].
  intros i Hi. specialize (Hc (digits s2 a2 i) (digits_valid _ _ _ Hs1)).
  rewrite encode_digits, Nat.mod_small in Hc by lia. exact Hc.
Qed.

Lemma nth_bv_and a b i : length a = length b ->
  nth i (bv_and a b) false = nth i a false && nth i b false.
Proof.
  revert b i; induction a as [|x a IH]; intros [|y b] i Hl; simpl in *; try lia.
  - destruct i; reflexivity.
  - destruct i; auto.
Qed.

Lemma length_bv_and a b : length (bv_and a b) = min (length a) (length b).
Proof. revert b; induction a; intros [|y b]; simpl; auto. Qed.

Lemma rel_and_wf a b : wf a -> wf b -> size a = size b -> arity a = arity b ->
  wf (rel_and a b).
Proof.
  intros [Hs Hl] [Hs' Hl'] Hsz Har; split; simpl; auto.
  rewrite length_bv_and, Hl, Hl', Hsz, Har; apply Nat.min_id.
Qed.

Lemma cell_and a b x : wf a -> wf b -> size a = size b -> arity a = arity b ->
  cell (rel_and a b) x = cell a x && cell b x.
Proof.
  intros [Hs Hl] [Hs' Hl'] Hsz Har. unfold cell; simpl.
  rewrite nth_bv_and, Hsz by congruence. reflexivity.
Qed.

Lemma range_0_blocks q st : 1 <= st ->
  range 0 (q * st) st = map (fun j => j * st) (seq 0 q).
Proof.
  intros Hst. unfold range. rewrite Nat.sub_0_r.
  replace (q * st + st - 1) with (q * st + (st - 1)) by lia.
  rewrite Nat.div_add_l, (Nat.div_small (st - 1) st), Nat.add_0_r by lia.
  apply map_ext; intros; lia.
Qed.

Lemma firstn_skipn_map (l : list bool) k n : k + n <= length l ->
  firstn n (skipn k l) = map (fun i => nth (k + i) l false) (seq 0 n).
Proof.
  intros Hk. apply nth_ext with (d := false) (d' := false).
  - rewrite length_firstn, length_skipn, length_map, length_seq; lia.
  - intros i Hi. rewrite length_firstn, length_skipn in Hi.
    rewrite nth_firstn. destruct (Nat.ltb_spec i n); [|lia].
    rewrite nth_skipn, nth_map_seq by lia. reflexivity.
Qed.

Lemma fold_with_wf f r c : wf r -> c <= arity r -> wf (fold_with f r c).
Proof.
  intros [Hs Hl] Hc; split; simpl; auto.
  rewrite length_map, Hl.
  replace (size r ^ arity r) with (size r ^ (arity r - c) * size r ^ c)
    by (rewrite <- Nat.pow_add_r; f_equal; lia).
  rewrite range_0_blocks, length_map, length_seq by (apply pow_pos_le; auto). reflexivity.
Qed.

(** The cell of a fold is the combinator applied to the block of cells
    obtained by varying the first [count] coordinates. *)
Lemma cell_fold_with f r c x : wf r -> c <= arity r -> valid (size r) (arity r - c) x ->
  cell (fold_with f r c) x
  = f (map (fun i => cell r (digits (size r) c i ++ x)) (seq 0 (size r ^ c))).
Proof.
  intros [Hs Hl] Hc Hx. unfold cell, fold_with. cbn [size table].
  pose proof (pow_pos_le (size r) c Hs) as Hst.
  pose proof (encode_lt _ _ _ Hx) as He.
  assert (Hsplit : size r ^ arity r = size r ^ (arity r - c) * size r ^ c)
    by (rewrite <- Nat.pow_add_r; f_equal; lia).
  rewrite Hl, Hsplit, range_0_blocks, map_map by lia.
  rewrite (nth_indep _ false (f (slice (table r) 0 (0 + size r ^ c))))
    by (rewrite length_map, length_seq; lia).
  rewrite (map_nth (fun j => f (slice (table r) (j * size r ^ c) (j * size r ^ c + size r ^ c))) _ 0).
  rewrite seq_nth by lia. cbn [Nat.add]. f_equal.
  unfold slice. replace (_ + _ - _) with (size r ^ c) by lia.
  rewrite firstn_skipn_map by nia.
  apply map_ext_in; intros i Hi. apply in_seq in Hi.
  rewrite encode_app, encode_digits, Nat.mod_small by lia.
  destruct (digits_valid (size r) c i Hs) as [Hdl _]. rewrite Hdl.
  f_equal. lia.
Qed.

Lemma digits_inj s c i j : 1 <= s -> i < s ^ c -> j < s ^ c ->
  digits s c i = digits s c j -> i = j.
Proof.
  intros Hs Hi Hj He. apply (f_equal (encode s)) in He.
  rewrite !encode_digits, !Nat.mod_small in He by lia. exact He.
Qed.

Lemma exists_digits s c (P : list nat -> Prop) : 1 <= s ->
  (exists i, i < s ^ c /\ P (digits s c i)) <-> (exists z, valid s c z /\ P z).
Proof.
  intros Hs; split.
  - intros (i & _ & Hp). exists (digits s c i); split; auto. apply digits_valid; auto.
  - intros (z & Hz & Hp). exists (encode s z); split; [apply encode_lt; auto|].
    rewrite digits_encode; auto.
Qed.

Lemma forall_digits s c (P : list nat -> Prop) : 1 <= s ->
  (forall i, i < s ^ c -> P (digits s c i)) <-> (forall z, valid s c z -> P z).
Proof.
  intros Hs; split.
  - intros H z Hz. rewrite <- (digits_encode _ _ _ Hz). apply H, encode_lt; auto.
  - intros H i Hi. apply H, digits_valid; auto.
Qed.

Lemma existsb_map_seq (g : nat -> bool) q :
  existsb (fun b => b) (map g (seq 0 q)) = true <-> exists i, i < q /\ g i = true.
Proof.
  rewrite existsb_exists; split.
  - intros (b & Hb & Ht). apply in_map_iff in Hb as (i & <- & Hi).
    apply in_seq in Hi. exists i; split; [lia | auto].
  - intros (i & Hi & Hg). exists (g i); split; auto.
    apply in_map, in_seq; lia.
Qed.

Lemma forallb_map_seq (g : nat -> bool) q :
  forallb (fun b => b) (map g (seq 0 q)) = true <-> forall i, i < q -> g i = true.
Proof.
  rewrite forallb_forall; split.
  - intros H i Hi. apply H, in_map, in_seq; lia.
  - intros H b Hb. apply in_map_iff in Hb as (i & <- & Hi). apply in_seq in Hi.
    apply H; lia.
Qed.

Lemma count_true_map_cons (g : nat -> bool) i l :
  count_true (map g (i :: l)) = (if g i then 1 else 0) + count_true (map g l).
Proof. unfold count_true; simpl; destruct (g i); reflexivity. Qed.

Lemma count_true_zero (g : nat -> bool) l :
  count_true (map g l) = 0 <-> forall i, In i l -> g i = false.
Proof.
  induction l as [|j l IH]; [simpl; split; [intros _ i []|auto]|].
  rewrite count_true_map_cons. split.
  - intros H i [<-|Hi]; destruct (g j) eqn:E; try lia; auto.
    apply IH; [lia | auto].
  - intros H. rewrite (H j (or_introl eq_refl)). apply IH. intros; apply H; right; auto.
Qed.

Lemma count_true_one (g : nat -> bool) l : NoDup l ->
  count_true (map g l) = 1 <->
  exists i, In i l /\ g i = true /\ forall j, In j l -> g j = true -> j = i.
Proof.
  induction l as [|k l IH]; intros Hnd.
  - simpl; split; [discriminate | intros (i & [] & _)].
  - inversion Hnd as [|? ? Hk Hnd']; subst. rewrite count_true_map_cons.
    destruct (g k) eqn:Gk; split.
    + intros H. exists k; repeat split; auto; [left; auto|].
      intros j [<-|Hj] Hg; auto.
      assert (Hz : count_true (map g l) = 0) by lia.
      rewrite count_true_zero in Hz. rewrite Hz in Hg by auto. discriminate.
    + intros (i & Hi & Hg & Hu). assert (k = i) by (apply Hu; [left|]; auto). subst i.
      enough (count_true (map g l) = 0) by lia.
      apply count_true_zero. intros j Hj. destruct (g j) eqn:Gj; auto.
      exfalso. apply Hk. rewrite <- (Hu j (or_intror Hj) Gj). auto.
    + intros H. apply (proj1 (IH Hnd')) in H as (i & Hi & Hg & Hu).
      exists i; repeat split; auto; [right; auto|].
      intros j [<-|Hj] Hgj; [congruence | auto].
    + intros (i & [<-|Hi] & Hg & Hu); [congruence|].
      simpl. apply IH; auto. exists i; repeat split; auto.
      intros j Hj; apply Hu; right; auto.
Qed.

Lemma count_true_amo (g : nat -> bool) l : NoDup l ->
  count_true (map g l) <= 1 <->
  forall i j, In i l -> In j l -> g i = true -> g j = true -> i = j.
Proof.
  induction l as [|k l IH]; intros Hnd.
  - simpl; split; [intros _ i j [] | intros _; unfold count_true; simpl; lia].
  - inversion Hnd as [|? ? Hk Hnd']; subst. rewrite count_true_map_cons.
    destruct (g k) eqn:Gk; split.
    + intros H i j Hi Hj Gi Gj.
      assert (Hz : count_true (map g l) = 0) by lia.
      rewrite count_true_zero in Hz.
      destruct Hi as [<-|Hi]; [|rewrite Hz in Gi; [discriminate|auto]].
      destruct Hj as [<-|Hj]; [auto|rewrite Hz in Gj; [discriminate|auto]].
    + intros H. enough (count_true (map g l) = 0) by lia.
      apply count_true_zero. intros j Hj. destruct (g j) eqn:Gj; auto.
      exfalso. apply Hk. rewrite (H j k (or_intror Hj) (or_introl eq_refl) Gj Gk) in Hj. auto.
    + intros H i j [<-|Hi] [<-|Hj] Gi Gj; try congruence.
      simpl in H. exact (proj1 (IH Hnd') H i j Hi Hj Gi Gj).
    + intros H. simpl. apply (proj2 (IH Hnd')).
      intros i j Hi Hj; apply H; right; auto.
Qed.

Lemma cell_fold_any r c x : wf r -> c <= arity r -> valid (size r) (arity r - c) x ->
  cell (fold_any r c) x = true <-> exists z, valid (size r) c z /\ cell r (z ++ x) = true.
Proof.
  intros Hr Hc Hx. unfold fold_any. rewrite cell_fold_with by auto.
  unfold lits_fold_any. rewrite existsb_map_seq.
  apply (exists_digits _ _ (fun z => cell r (z ++ x) = true)). apply Hr.
Qed.

Lemma cell_fold_all r c x : wf r -> c <= arity r -> valid (size r) (arity r - c) x ->
  cell (fold_all r c) x = true <-> forall z, valid (size r) c z -> cell r (z ++ x) = true.
Proof.
  intros Hr Hc Hx. unfold fold_all. rewrite cell_fold_with by auto.
  unfold lits_fold_all. rewrite forallb_map_seq.
  apply (forall_digits _ _ (fun z => cell r (z ++ x) = true)). apply Hr.
Qed.

Lemma cell_fold_one r c x : wf r -> c <= arity r -> valid (size r) (arity r - c) x ->
  cell (fold_one r c) x = true <->
  exists z, valid (size r) c z /\ cell r (z ++ x) = true /\
    forall z', valid (size r) c z' -> cell r (z' ++ x) = true -> z' = z.
Proof.
  intros Hr Hc Hx. pose proof (proj1 Hr) as Hs.
  unfold fold_one. rewrite cell_fold_with by auto.
  unfold lits_fold_one. rewrite Nat.eqb_eq, count_true_one by apply seq_NoDup.
  split.
  - intros (i & Hi & Hg & Hu). apply in_seq in Hi.
    exists (digits (size r) c i); split; [apply digits_valid; auto|]. split; [auto|].
    intros z' Hz' Hg'. rewrite <- (digits_encode _ _ _ Hz'). f_equal.
    apply Hu; [apply in_seq; pose proof (encode_lt _ _ _ Hz'); lia|].
    rewrite digits_encode; auto.
  - intros (z & Hz & Hg & Hu). exists (encode (size r) z).
    pose proof (encode_lt _ _ _ Hz).
    split; [apply in_seq; lia|]. split; [rewrite digits_encode; auto|].
    intros j Hj Hgj. apply in_seq in Hj.
    rewrite <- (Hu _ (digits_valid _ _ j Hs) Hgj), encode_digits, Nat.mod_small; auto; lia.
Qed.

Lemma cell_fold_amo r c x : wf r -> c <= arity r -> valid (size r) (arity r - c) x ->
  cell (fold_amo r c) x = true <->
  forall z z', valid (size r) c z -> valid (size r) c z' ->
    cell r (z ++ x) = true -> cell r (z' ++ x) = true -> z = z'.
Proof.
  intros Hr Hc Hx. pose proof (proj1 Hr) as Hs.
  unfold fold_amo. rewrite cell_fold_with by auto.
  unfold lits_fold_amo. rewrite Nat.leb_le, count_true_amo by apply seq_NoDup.
  split.
  - intros H z z' Hz Hz' Gz Gz'.
    rewrite <- (digits_encode _ _ _ Hz), <- (digits_encode _ _ _ Hz'). f_equal.
    pose proof (encode_lt _ _ _ Hz); pose proof (encode_lt _ _ _ Hz').
    apply H; try (apply in_seq; lia); rewrite digits_encode; auto.
  - intros H i j Hi Hj Gi Gj. apply in_seq in Hi, Hj.
    apply (digits_inj (size r) c); try lia.
    apply H; auto; apply digits_valid; auto.
Qed.

(** ** Derived reindexings: rotate, insert, product *)

Lemma nth_map_seq_from {A} (g : nat -> A) k q e d : e < q ->
  nth e (map g (seq k q)) d = g (k + e).
Proof.
  intros He. rewrite (nth_indep _ d (g 0)) by (rewrite length_map, length_seq; lia).
  rewrite map_nth, seq_nth by lia. reflexivity.
Qed.

Lemma map_add_seq s k n : map (fun j => s + j) (seq k n) = seq (s + k) n.
Proof.
  revert k; induction n as [|n IH]; intros k; simpl; auto.
  rewrite IH. f_equal. f_equal. lia.
Qed.

Lemma range_1 s e : range s e 1 = seq s (e - s).
Proof.
  unfold range. rewrite Nat.add_sub, Nat.div_1_r.
  replace (seq s (e - s)) with (seq (s + 0) (e - s)) by (f_equal; lia).
  rewrite <- (map_add_seq s 0). apply map_ext; intros; lia.
Qed.

Lemma map_nth_prefix (u v : list nat) :
  map (fun i => nth i (u ++ v) 0) (seq 0 (length u)) = u.
Proof.
  apply nth_ext with (d := 0) (d' := 0); [rewrite length_map, length_seq; auto|].
  intros i Hi. rewrite length_map, length_seq in Hi.
  rewrite nth_map_seq by auto. apply app_nth1; auto.
Qed.

Lemma map_nth_suffix (u v : list nat) :
  map (fun i => nth i (u ++ v) 0) (seq (length u) (length v)) = v.
Proof.
  apply nth_ext with (d := 0) (d' := 0); [rewrite length_map, length_seq; auto|].
  intros i Hi. rewrite length_map, length_seq in Hi.
  rewrite nth_map_seq_from by auto. rewrite app_nth2 by lia. f_equal; lia.
Qed.

Lemma rot_index a d i : i < a -> d <= a ->
  Z.to_nat ((Z.of_nat i + - Z.of_nat d) mod Z.of_nat a) = if i <? d then a - d + i else i - d.
Proof.
  intros Hi Hd. destruct (Nat.ltb_spec i d).
  - rewrite <- (Z.mod_unique_pos (Z.of_nat i + - Z.of_nat d) (Z.of_nat a) (-1)
                  (Z.of_nat (a - d + i))) by lia.
    apply Nat2Z.id.
  - rewrite <- (Z.mod_unique_pos (Z.of_nat i + - Z.of_nat d) (Z.of_nat a) 0
                  (Z.of_nat (i - d))) by lia.
    apply Nat2Z.id.
Qed.

Lemma rot_zero a d : 1 <= a -> d <= a ->
  ((- Z.of_nat d) mod Z.of_nat a =? 0)%Z = true -> d = 0 \/ d = a.
Proof.
  intros Ha Hd E. apply Z.eqb_eq in E.
  destruct (Nat.eq_dec d 0); [left; auto|]. destruct (Nat.eq_dec d a); [right; auto|].
  rewrite <- (Z.mod_unique_pos (- Z.of_nat d) (Z.of_nat a) (-1) (Z.of_nat (a - d))) in E
    by lia.
  lia.
Qed.

(** [polymer_rotate(-d)] moves the first [d] coordinates to the end. *)
Lemma cell_rotate r d u v : wf r -> 1 <= arity r -> d <= arity r ->
  valid (size r) (arity r - d) u -> valid (size r) d v ->
  cell (polymer_rotate r (- Z.of_nat d)) (u ++ v) = cell r (v ++ u).
Proof.
  intros Hr Ha Hd Hu Hv. unfold polymer_rotate.
  destruct ((- Z.of_nat d) mod Z.of_nat (arity r) =? 0)%Z eqn:E.
  - apply rot_zero in E; auto. destruct Hu as [Hul _], Hv as [Hvl _].
    destruct E; subst d.
    + destruct v; [|discriminate]. rewrite app_nil_r; reflexivity.
    + destruct u; [|simpl in Hul; lia]. rewrite app_nil_r; reflexivity.
  - rewrite cell_polymer.
    + f_equal. rewrite map_map.
      destruct Hu as [Hul _], Hv as [Hvl _].
      apply nth_ext with (d := 0) (d' := 0);
        [rewrite length_map, length_seq, length_app; lia|].
      intros i Hi. rewrite length_map, length_seq in Hi.
      rewrite nth_map_seq by auto. cbn [Nat.add]. rewrite rot_index by lia.
      destruct (Nat.ltb_spec i d).
      * rewrite app_nth2, app_nth1 by lia. f_equal; lia.
      * rewrite app_nth1, app_nth2 by lia. f_equal; lia.
    + apply Hr.
    + apply Forall_forall; intros w Hw. apply in_map_iff in Hw as (i & <- & Hi).
      apply in_seq in Hi. rewrite rot_index by lia. destruct (Nat.ltb_spec i d); lia.
    + replace (arity r) with (arity r - d + d) by lia. apply valid_app; auto.
Qed.

(** [polymer_insert(var)] adds an ignored coordinate at position [var]. *)
Lemma cell_insert r u y w : wf r ->
  valid (size r) (S (arity r)) (u ++ y :: w) ->
  cell (polymer_insert r (length u)) (u ++ y :: w) = cell r (u ++ w).
Proof.
  intros Hr Hx. unfold polymer_insert.
  assert (Hl : length u + S (length w) = S (arity r))
    by (destruct Hx as [Hl _]; rewrite length_app in Hl; simpl in Hl; lia).
  rewrite cell_polymer; auto.
  - f_equal. rewrite map_map.
    apply nth_ext with (d := 0) (d' := 0);
      [rewrite length_map, length_seq, length_app; lia|].
    intros i Hi. rewrite length_map, length_seq in Hi.
    rewrite nth_map_seq by auto. destruct (Nat.ltb_spec i (length u)).
    + rewrite !app_nth1 by lia. reflexivity.
    + rewrite !app_nth2 by lia. replace (i + 1 - length u) with (S (i - length u)) by lia.
      reflexivity.
  - apply Hr.
  - apply Forall_forall; intros v Hv. apply in_map_iff in Hv as (i & <- & Hi).
    apply in_seq in Hi. destruct (Nat.ltb_spec i (length u)); lia.
Qed.

Lemma product_wf a b : wf a -> wf b -> size a = size b ->
  wf (product a b) /\ size (product a b) = size a /\ arity (product a b) = arity a + arity b.
Proof.
  intros Ha Hb Hs. unfold product. split; [|split; reflexivity].
  apply rel_and_wf; try apply polymer_wf; auto.
Qed.

Lemma cell_product a b u v : wf a -> wf b -> size a = size b ->
  valid (size a) (arity a) u -> valid (size a) (arity b) v ->
  cell (product a b) (u ++ v) = cell a u && cell b v.
Proof.
  intros Ha Hb Hs Hu Hv. unfold product.
  pose proof (valid_app _ _ _ _ _ Hu Hv) as Huv.
  destruct Hu as [Hul _], Hv as [Hvl _].
  rewrite cell_and by (try apply polymer_wf; auto).
  rewrite !cell_polymer; auto; try apply Ha; try (rewrite Hs; apply Hb);
    try (rewrite <- Hs; auto).
  - rewrite !range_1. replace (arity a - 0) with (length u) by lia.
    replace (arity a + arity b - arity a) with (length v) by lia.
    rewrite <- Hul. rewrite map_nth_prefix, map_nth_suffix. reflexivity.
  - apply Ha.
  - apply Forall_forall; intros w Hw. rewrite range_1 in Hw. apply in_seq in Hw. lia.
  - apply Forall_forall; intros w Hw. rewrite range_1 in Hw. apply in_seq in Hw. lia.
Qed.

(** ** The evaluate paths *)

Lemma valid_split s n m x : valid s (n + m) x ->
  exists u v, x = u ++ v /\ valid s n u /\ valid s m v.
Proof.
  intros Hx. exists (firstn n x), (skipn n x). split; [symmetry; apply firstn_skipn|].
  apply valid_app_inv; auto.
Qed.

Lemma valid_one s v : valid s 1 v -> exists c, v = [c] /\ c < s.
Proof.
  intros [Hl Hf]. destruct v as [|c [|]]; try discriminate.
  inversion Hf; subst. exists c; auto.
Qed.

Lemma valid_length s n x : valid s n x -> length x = n.
Proof. intros [H _]; exact H. Qed.

(** Two images agree when the cells they are built from agree. *)
Lemma computes_image_unique R ops p E1 E2 :
  computes_image R ops p E1 -> computes_image R ops p E2 -> E1 = E2.
Proof.
  intros (W1 & S1 & A1 & C1) (W2 & S2 & A2 & C2).
  apply table_ext; auto; try congruence.
  intros x Hx. rewrite S1, A1 in Hx.
  apply Bool.eq_iff_eq_true. rewrite C1, C2 by auto. reflexivity.
Qed.

(** *** [_evaluate_n1]: graphs of arity 1 *)

Lemma evaluate_n1_loop s dflt : forall rest acc done,
  wf acc -> size acc = s -> arity acc = length done ->
  (forall y, valid s (length done) y ->
     cell acc y = true <-> forall j, j < length done -> cell (nth j done dflt) [nth j y 0] = true) ->
  (forall o, In o rest -> wf o /\ size o = s /\ arity o = 1) ->
  let r := fold_left product rest acc in
  wf r /\ size r = s /\ arity r = length (done ++ rest) /\
  (forall y, valid s (length (done ++ rest)) y ->
     cell r y = true <->
     forall j, j < length (done ++ rest) -> cell (nth j (done ++ rest) dflt) [nth j y 0] = true).
Proof.
  induction rest as [|o rest IH]; intros acc done Hw Hs Ha Hc Ho; simpl.
  - rewrite app_nil_r. auto.
  - destruct (Ho o (or_introl eq_refl)) as (Wo & So & Ao).
    replace (done ++ o :: rest) with ((done ++ [o]) ++ rest) by (rewrite <- app_assoc; auto).
    destruct (product_wf acc o Hw Wo ltac:(congruence)) as (Wp & Sp & Ap).
    apply IH; auto.
    + rewrite Ap, Ha, Ao, length_app; auto.
    + intros y Hy. rewrite length_app in Hy; simpl in Hy.
      destruct (valid_split _ _ _ _ Hy) as (u & v & -> & Hu & Hv).
      destruct (valid_one _ _ Hv) as (c & -> & Hcs).
      rewrite cell_product; auto; try congruence; try (rewrite Hs, Ha; auto);
        try (rewrite Hs, Ao; auto).
      rewrite andb_true_iff, Hc by auto.
      pose proof (valid_length _ _ _ Hu) as Hul.
      rewrite length_app; simpl. split.
      * intros [H1 H2] j Hj. destruct (Nat.ltb_spec j (length done)).
        -- rewrite !app_nth1 by lia. apply H1; auto.
        -- assert (j = length done) by lia. subst j.
           rewrite !app_nth2 by lia. rewrite Hul, Nat.sub_diag. simpl. auto.
      * intros H. split.
        -- intros j Hj. specialize (H j ltac:(lia)). rewrite !app_nth1 in H by lia. auto.
        -- specialize (H (length done) ltac:(lia)).
           rewrite !app_nth2 in H by lia. rewrite Hul, Nat.sub_diag in H. exact H.
    + intros o' Ho'. apply Ho; right; auto.
Qed.

Lemma evaluate_n1_sem R ops : ops_ok R ops 1 -> 1 <= arity R ->
  computes_image R ops 1 (evaluate_n1 R ops).
Proof.
  intros (HR & Hl & Ho) Hk. destruct ops as [|o rest]; [simpl in Hl; lia|].
  destruct (Ho o (or_introl eq_refl)) as (Wo & So & Ao).
  pose proof (evaluate_n1_loop (size R) R rest o [o] Wo So Ao) as H.
  simpl in H. unfold evaluate_n1.
  destruct H as (W & S & A & C).
  - intros y Hy. destruct (valid_one _ _ Hy) as (c & -> & _). simpl. split.
    + intros H j Hj. assert (j = 0) by lia. subst. auto.
    + intros H. apply (H 0); lia.
  - intros o' Ho'. apply Ho; right; auto.
  - simpl in Hl. split; [auto|]. split; [auto|]. split; [lia|].
    intros y Hy. rewrite C by (simpl; rewrite Hl; auto).
    unfold image. split.
    + intros H. exists []. split; [reflexivity|]. split; [intros t []|].
      intros j Hj. apply H. simpl; lia.
    + intros (rows & Hr & _ & Hc) j Hj. destruct rows; [|simpl in Hr; lia].
      apply Hc. simpl in Hl; lia.
Qed.

(** *** Shapes of the relation combinators *)

Lemma rotate_wf r off : wf r -> wf (polymer_rotate r off).
Proof. intros H. unfold polymer_rotate. destruct (_ =? 0)%Z; auto. apply polymer_wf; auto. Qed.

Lemma rotate_size r off : size (polymer_rotate r off) = size r.
Proof. unfold polymer_rotate. destruct (_ =? 0)%Z; reflexivity. Qed.

Lemma rotate_arity r off : arity (polymer_rotate r off) = arity r.
Proof. unfold polymer_rotate. destruct (_ =? 0)%Z; reflexivity. Qed.

Lemma insert_wf r v : wf r -> wf (polymer_insert r v).
Proof. apply polymer_wf. Qed.

Lemma insert_size r v : size (polymer_insert r v) = size r.
Proof. reflexivity. Qed.

Lemma insert_arity r v : arity (polymer_insert r v) = S (arity r).
Proof. reflexivity. Qed.

Lemma and_size a b : size (rel_and a b) = size a.
Proof. reflexivity. Qed.

Lemma and_arity a b : arity (rel_and a b) = arity a.
Proof. reflexivity. Qed.

Lemma fold_any_size r c : size (fold_any r c) = size r.
Proof. reflexivity. Qed.

Lemma fold_any_arity r c : arity (fold_any r c) = arity r - c.
Proof. reflexivity. Qed.

Lemma product_size a b : size (product a b) = size a.
Proof. reflexivity. Qed.

Lemma product_arity a b : arity (product a b) = arity a + arity b.
Proof. reflexivity. Qed.

Lemma new_full_wf s n : 1 <= s -> wf (new_full s n).
Proof. intros Hs; split; simpl; auto. apply repeat_length. Qed.

Lemma cell_new_full s n x : valid s n x -> cell (new_full s n) x = true.
Proof.
  intros Hx. unfold cell, new_full; simpl.
  apply nth_repeat_lt, encode_lt; auto.
Qed.

Create Rewrite HintDb shape.

#[global] Hint Rewrite polymer_size polymer_arity rotate_size rotate_arity insert_size
  insert_arity and_size and_arity fold_any_size fold_any_arity product_size
  product_arity : shape.

Ltac wf_tac :=
  repeat (match goal with
          | |- wf (rel_and _ _) => apply rel_and_wf
          | |- wf (polymer _ _ _) => apply polymer_wf
          | |- wf (polymer_rotate _ _) => apply rotate_wf
          | |- wf (polymer_insert _ _) => apply insert_wf
          | |- wf (fold_any _ _) => apply fold_with_wf
          | |- wf (product _ _) => apply product_wf
          | |- wf (new_full _ _) => apply new_full_wf
          end);
  autorewrite with shape; try assumption; try lia.

(** *** [_evaluate_1m]: a unary relation *)

Lemma evaluate_1m_loop_spec R Op : wf R -> size Op = size R ->
  forall fuel cur, wf cur -> size cur = size R -> 1 <= arity cur ->
  arity cur <= S fuel -> arity cur <= arity Op ->
  (forall u o, valid (size R) (arity cur - 1) u -> o < size R ->
     (cell cur (u ++ [o]) = true <->
      exists pre, length pre = arity Op - arity cur /\
        Forall (fun z => z < size R /\ cell R [z] = true) pre /\
        cell Op (o :: pre ++ u) = true)) ->
  let r := evaluate_1m_loop R fuel cur in
  wf r /\ size r = size R /\ arity r = 1 /\
  forall o, o < size R ->
    (cell r [o] = true <->
     exists pre, length pre = arity Op - 1 /\
       Forall (fun z => z < size R /\ cell R [z] = true) pre /\
       cell Op (o :: pre) = true).
Proof.
  intros HR HOs fuel. induction fuel as [|f IH]; intros cur Hw Hs H1 Hf Hp Hc; simpl.
  - assert (Ha : arity cur = 1) by lia.
    split; [auto|split; [auto|split; [auto|]]]. intros o Ho.
    change [o] with ([] ++ [o]).
    rewrite (Hc [] o); [|rewrite Ha; apply valid_nil|auto].
    rewrite Ha. split; intros (pre & H2 & H3 & H4); exists pre; rewrite app_nil_r in *; auto.
  - destruct (Nat.ltb_spec 1 (arity cur)) as [Hlt|Hge].
    + apply IH; [wf_tac..|].
      * intros u o Hu Ho. autorewrite with shape in Hu.
        assert (Hw' : wf (rel_and cur (polymer R [0] (arity cur)))) by wf_tac.
        assert (Huo : valid (size R) (arity cur - 1) (u ++ [o])).
        { replace (arity cur - 1) with (arity cur - 1 - 1 + 1) by lia.
          apply valid_app; auto. split; [reflexivity|constructor; auto]. }
        unfold fold_any. rewrite cell_fold_any; autorewrite with shape; rewrite ?Hs; auto; try lia.
        split.
        -- intros (z & Hz & Hcz). destruct (valid_one _ _ Hz) as (c & -> & Hcs).
           rewrite cell_and in Hcz by wf_tac. apply andb_true_iff in Hcz as [Hcur Hpol].
           rewrite cell_polymer in Hpol; cycle 1.
           { destruct HR; auto. }
           { repeat constructor; lia. }
           { simpl. replace (arity cur) with (S (arity cur - 1)) by lia.
             apply valid_cons; split; auto. }
           simpl in Hpol.
           apply (Hc (c :: u) o) in Hcur as (pre & Hl & Hf' & HO); auto; cycle 1.
           { replace (arity cur - 1) with (S (arity cur - 1 - 1)) by lia.
             apply valid_cons; auto. }
           exists (pre ++ [c]). rewrite length_app; simpl. split; [lia|]. split.
           ++ apply Forall_app; split; auto.
           ++ rewrite <- app_assoc; exact HO.
        -- intros (pre' & Hl & Hf' & HO).
           destruct (exists_last (l := pre')) as (pre & c & ->); [intros ->; simpl in Hl; lia|].
           apply Forall_app in Hf' as [Hf1 Hf2]. inversion Hf2 as [|? ? [Hcs HRc]]; subst.
           exists [c]. split; [split; [reflexivity|constructor; auto]|].
           rewrite cell_and by wf_tac. apply andb_true_iff. split.
           ++ apply (Hc (c :: u) o); auto.
              ** replace (arity cur - 1) with (S (arity cur - 1 - 1)) by lia.
                 apply valid_cons; auto.
              ** exists pre. rewrite length_app in Hl; simpl in Hl.
                 split; [lia|]. split; auto. rewrite <- app_assoc in HO; exact HO.
           ++ rewrite cell_polymer.
              ** exact HRc.
              ** destruct HR; auto.
              ** repeat constructor; lia.
              ** simpl. replace (arity cur) with (S (arity cur - 1)) by lia.
                 apply valid_cons; split; auto.
    + assert (Ha : arity cur = 1) by lia.
      split; [auto|split; [auto|split; [auto|]]]. intros o Ho.
      change [o] with ([] ++ [o]).
      rewrite (Hc [] o); [|rewrite Ha; apply valid_nil|auto].
      rewrite Ha. split; intros (pre & H2 & H3 & H4); exists pre; rewrite app_nil_r in *; auto.
Qed.

Lemma evaluate_1m_sem R Op p : ops_ok R [Op] p -> arity R = 1 -> 1 <= p ->
  computes_image R [Op] p (evaluate_1m R Op).
Proof.
  intros (HR & _ & Ho) Hk Hp. destruct (Ho Op (or_introl eq_refl)) as (WO & SO & AO).
  unfold evaluate_1m. set (cur := polymer_rotate Op (-1)).
  assert (Ac : arity cur = p) by (unfold cur; rewrite rotate_arity; auto).
  assert (Hcur : forall u o, valid (size R) (p - 1) u -> o < size R ->
            cell cur (u ++ [o]) = cell Op (o :: u)).
  { intros u o Hu Ho'. unfold cur. change (-1)%Z with (- Z.of_nat 1)%Z.
    rewrite cell_rotate; auto; rewrite ?SO, ?AO; auto; try lia.
    split; [reflexivity|constructor; auto]. }
  destruct (evaluate_1m_loop_spec R Op HR SO (arity cur) cur) as (W & S & A & C).
  - unfold cur; wf_tac.
  - unfold cur; wf_tac.
  - lia.
  - lia.
  - lia.
  - intros u o Hu Ho'. rewrite Ac in Hu. rewrite Hcur by auto. rewrite Ac, AO, Nat.sub_diag.
    split.
    + intros H. exists []. auto.
    + intros (pre & Hl & _ & H). destruct pre; [exact H|discriminate].
  - split; [auto|split; [auto|split; [lia|]]]. intros y Hy. rewrite Hk in Hy.
    destruct (valid_one _ _ Hy) as (o & -> & Hos). rewrite C by auto. rewrite AO.
    unfold image. rewrite Hk. split.
    + intros (pre & Hl & Hf & HO). exists (map (fun z => [z]) pre).
      rewrite length_map. split; [auto|split].
      * intros t Ht. apply in_map_iff in Ht as (z & <- & Hz).
        rewrite Forall_forall in Hf. destruct (Hf z Hz) as [Hzs HRz].
        split; [split; [reflexivity|constructor; auto]|auto].
      * intros j Hj. assert (j = 0) by lia. subst j. simpl.
        rewrite map_map. simpl. rewrite map_id. exact HO.
    + intros (rows & Hl & Hin & Hj). exists (map (fun t => nth 0 t 0) rows).
      rewrite length_map. split; [auto|split].
      * apply Forall_forall. intros c Hc. apply in_map_iff in Hc as (t & <- & Ht).
        destruct (Hin t Ht) as [Hv HRt].
        destruct (valid_one _ _ Hv) as (c & -> & Hcs). simpl. auto.
      * apply (Hj 0); lia.
Qed.

Lemma Forall_seq_lt m n : n <= m -> Forall (fun v => v < m) (seq 0 n).
Proof. intros H. apply Forall_forall; intros v Hv; apply in_seq in Hv; lia. Qed.

Lemma cell_insert0 r y w : wf r -> valid (size r) (S (arity r)) (y :: w) ->
  cell (polymer_insert r 0) (y :: w) = cell r w.
Proof. intros Hr Hx. exact (cell_insert r [] y w Hr Hx). Qed.

(** *** The absorbing round of [_evaluate_n2] and [_evaluate_n3] *)

(** One round of these loops, for a graph of arity [S q]: a new coordinate
    [y] (the graph's result) is put in front, the graph is laid over it and
    the next [q] coordinates, the result coordinate is rotated to the back
    and those [q] coordinates are folded away. *)
Lemma cell_absorb rel o q w y :
  wf rel -> wf o -> size o = size rel -> arity o = S q -> q <= arity rel ->
  valid (size rel) (arity rel - q) w -> y < size rel ->
  cell (fold_any (polymer_rotate (rel_and (polymer_insert rel 0)
                                          (polymer o (seq 0 (S q)) (S (arity rel)))) (-1)) q)
       (w ++ [y]) = true <->
  exists z, valid (size rel) q z /\ cell rel (z ++ w) = true /\ cell o (y :: z) = true.
Proof.
  intros Hr Ho Hs Ha Hq Hw Hy.
  assert (Hwy : valid (size rel) (S (arity rel) - q) (w ++ [y])).
  { replace (S (arity rel) - q) with (arity rel - q + 1) by lia.
    apply valid_app; auto. split; [reflexivity|constructor; auto]. }
  unfold fold_any. rewrite cell_fold_any; autorewrite with shape; auto; [|wf_tac].
  split.
  - intros (z & Hz & H). exists z. split; [auto|].
    pose proof (valid_length _ _ _ Hz) as Hzl.
    rewrite app_assoc in H. change (-1)%Z with (- Z.of_nat 1)%Z in H.
    rewrite cell_rotate in H; autorewrite with shape; try lia; [|wf_tac| |].
    + simpl in H. rewrite cell_and in H by wf_tac. apply andb_true_iff in H as [H1 H2].
      rewrite cell_insert0 in H1.
      * rewrite cell_polymer in H2.
        -- rewrite <- Hzl in H2. change (S (length z)) with (length (y :: z)) in H2.
           change (y :: z ++ w) with ((y :: z) ++ w) in H2.
           rewrite map_nth_prefix in H2. auto.
        -- destruct Hr; congruence.
        -- apply (Forall_seq_lt _ (S q)); lia.
        -- autorewrite with shape. rewrite Hs. apply valid_cons; split; auto.
           replace (arity rel) with (q + (arity rel - q)) by lia. apply valid_app; auto.
      * wf_tac.
      * simpl. apply valid_cons; split; auto.
        replace (arity rel) with (q + (arity rel - q)) by lia. apply valid_app; auto.
    + replace (S (arity rel) - 1) with (q + (arity rel - q)) by lia. apply valid_app; auto.
    + split; [reflexivity|constructor; auto].
  - intros (z & Hz & H1 & H2). exists z. split; [auto|].
    pose proof (valid_length _ _ _ Hz) as Hzl.
    rewrite app_assoc. change (-1)%Z with (- Z.of_nat 1)%Z.
    rewrite cell_rotate; autorewrite with shape; try lia; [|wf_tac| |].
    + simpl. rewrite cell_and by wf_tac. apply andb_true_iff. split.
      * rewrite cell_insert0; auto.
        simpl. apply valid_cons; split; auto.
        replace (arity rel) with (q + (arity rel - q)) by lia. apply valid_app; auto.
      * rewrite cell_polymer.
        -- rewrite <- Hzl. change (S (length z)) with (length (y :: z)).
           change (y :: z ++ w) with ((y :: z) ++ w).
           rewrite map_nth_prefix. auto.
        -- destruct Hr; congruence.
        -- apply (Forall_seq_lt _ (S q)); lia.
        -- autorewrite with shape. rewrite Hs. apply valid_cons; split; auto.
           replace (arity rel) with (q + (arity rel - q)) by lia. apply valid_app; auto.
    + replace (S (arity rel) - 1) with (q + (arity rel - q)) by lia. apply valid_app; auto.
    + split; [reflexivity|constructor; auto].
Qed.

Lemma forall_lt_S (P : nat -> Prop) j :
  (forall i, i < S j -> P i) <-> (forall i, i < j -> P i) /\ P j.
Proof.
  split.
  - intros H; split; auto.
  - intros [H1 H2] i Hi. destruct (Nat.eq_dec i j); subst; auto. apply H1; lia.
Qed.

(** Reading a list extended at its end. *)
Lemma nth_snoc {A} (l : list A) x d i :
  nth i (l ++ [x]) d = if i <? length l then nth i l d else if i =? length l then x else d.
Proof.
  destruct (Nat.ltb_spec i (length l)); [apply app_nth1; auto|].
  rewrite app_nth2 by auto. destruct (Nat.eqb_spec i (length l)).
  - subst; rewrite Nat.sub_diag; reflexivity.
  - destruct (i - length l) eqn:E; [lia|]. destruct n0; reflexivity.
Qed.

Lemma valid_snoc s n x : valid s (S n) x -> exists u c, x = u ++ [c] /\ valid s n u /\ c < s.
Proof.
  intros Hx. rewrite <- Nat.add_1_r in Hx.
  destruct (valid_split _ _ _ _ Hx) as (u & v & -> & Hu & Hv).
  destruct (valid_one _ _ Hv) as (c & -> & Hc). eauto.
Qed.

Lemma valid_snoc_intro s n u c : valid s n u -> c < s -> valid s (S n) (u ++ [c]).
Proof.
  intros Hu Hc. rewrite <- Nat.add_1_r. apply valid_app; auto.
  split; [reflexivity|constructor; auto].
Qed.

(** *** [_evaluate_n2]: binary graphs *)

Lemma n2_step_shape rel o : wf rel -> wf o -> size o = size rel -> arity o = 2 ->
  1 <= arity rel ->
  wf (evaluate_n2_step rel o) /\ size (evaluate_n2_step rel o) = size rel /\
  arity (evaluate_n2_step rel o) = arity rel.
Proof. intros; unfold evaluate_n2_step; split; [wf_tac|split; wf_tac]. Qed.

Lemma cell_n2_step rel o w y : wf rel -> wf o -> size o = size rel -> arity o = 2 ->
  1 <= arity rel -> valid (size rel) (arity rel - 1) w -> y < size rel ->
  cell (evaluate_n2_step rel o) (w ++ [y]) = true <->
  exists c, c < size rel /\ cell rel (c :: w) = true /\ cell o [y; c] = true.
Proof.
  intros Hr Ho Hs Ha H1 Hw Hy.
  change (evaluate_n2_step rel o) with
    (fold_any (polymer_rotate (rel_and (polymer_insert rel 0)
       (polymer o (seq 0 2) (S (arity rel)))) (-1)) 1).
  rewrite cell_absorb by auto. split.
  - intros (z & Hz & Hc & HO). destruct (valid_one _ _ Hz) as (c & -> & Hcs). eauto.
  - intros (c & Hcs & Hc & HO). exists [c]. split; auto. split; [reflexivity|constructor; auto].
Qed.

Lemma evaluate_n2_loop R d : wf R -> forall rest done rel,
  wf rel -> size rel = size R -> arity rel = arity R ->
  length done + length rest = arity R ->
  (forall o, In o rest -> wf o /\ size o = size R /\ arity o = 2) ->
  (forall xr ys, valid (size R) (arity R - length done) xr -> valid (size R) (length done) ys ->
     (cell rel (xr ++ ys) = true <->
      exists xs, valid (size R) (length done) xs /\ cell R (xs ++ xr) = true /\
        forall i, i < length done -> cell (nth i done d) [nth i ys 0; nth i xs 0] = true)) ->
  let r := fold_left evaluate_n2_step rest rel in
  wf r /\ size r = size R /\ arity r = arity R /\
  forall ys, valid (size R) (arity R) ys ->
    (cell r ys = true <->
     exists xs, valid (size R) (arity R) xs /\ cell R xs = true /\
       forall i, i < arity R -> cell (nth i (done ++ rest) d) [nth i ys 0; nth i xs 0] = true).
Proof.
  intros HR rest. induction rest as [|o rest IH]; intros done rel Hw Hs Ha Hl Ho Hc; simpl.
  - simpl in Hl. rewrite Nat.add_0_r in Hl. rewrite app_nil_r.
    split; [auto|split; [auto|split; [auto|]]]. intros ys Hys.
    change ys with ([] ++ ys). rewrite Hc.
    + simpl. rewrite <- Hl. split; intros (xs & H1 & H2 & H3); exists xs; rewrite app_nil_r in *; auto.
    + rewrite Hl, Nat.sub_diag; apply valid_nil.
    + rewrite Hl; auto.
  - destruct (Ho o (or_introl eq_refl)) as (Wo & So & Ao). simpl in Hl.
    destruct (n2_step_shape rel o Hw Wo ltac:(congruence) Ao ltac:(lia)) as (W & Sz & Az).
    replace (done ++ o :: rest) with ((done ++ [o]) ++ rest) by (rewrite <- app_assoc; auto).
    apply IH; auto; try congruence.
    + rewrite length_app; simpl; lia.
    + intros o' Ho'. apply Ho; right; auto.
    + intros xr ys Hxr Hys. rewrite length_app in *; simpl in *.
      rewrite Nat.add_1_r in Hys. destruct (valid_snoc _ _ _ Hys) as (ys0 & y & -> & Hys0 & Hy).
      pose proof (valid_length _ _ _ Hys0) as Hl0.
      rewrite app_assoc, cell_n2_step; auto; try congruence; try lia;
        [|rewrite Hs, Ha; replace (arity R - 1) with (arity R - (length done + 1) + length done)
            by lia; apply valid_app; auto].
      rewrite Nat.add_1_r, Hs. split.
      * intros (c & Hcs & Hcr & HO).
        assert (Hv : valid (size R) (arity R - length done) (c :: xr)).
        { replace (arity R - length done) with (S (arity R - (length done + 1))) by lia.
          apply valid_cons; split; auto. }
        destruct (proj1 (Hc (c :: xr) ys0 Hv Hys0) Hcr) as (xs & Hxs & HRx & Hall).
        pose proof (valid_length _ _ _ Hxs) as Hlx.
        exists (xs ++ [c]). split; [apply valid_snoc_intro; auto|]. split.
        -- rewrite <- app_assoc; exact HRx.
        -- apply forall_lt_S. split.
           ++ intros i Hi. rewrite !nth_snoc. rewrite Hl0, Hlx.
              replace (i <? length done) with true by (symmetry; apply Nat.ltb_lt; auto).
              auto.
           ++ rewrite !nth_snoc, Hl0, Hlx, Nat.ltb_irrefl, Nat.eqb_refl. exact HO.
      * intros (xs' & Hxs' & HRx & Hall).
        destruct (valid_snoc _ _ _ Hxs') as (xs & c & -> & Hxs & Hcs).
        pose proof (valid_length _ _ _ Hxs) as Hlx.
        apply forall_lt_S in Hall as [Hall HO].
        exists c. split; [auto|split].
        -- apply (Hc (c :: xr) ys0); auto.
           ++ replace (arity R - length done) with (S (arity R - (length done + 1))) by lia.
              apply valid_cons; split; auto.
           ++ exists xs. split; [auto|split].
              ** rewrite <- app_assoc in HRx; exact HRx.
              ** intros i Hi. specialize (Hall i Hi). rewrite !nth_snoc, Hl0, Hlx in Hall.
                 replace (i <? length done) with true in Hall
                   by (symmetry; apply Nat.ltb_lt; auto).
                 exact Hall.
        -- rewrite !nth_snoc, Hl0, Hlx, Nat.ltb_irrefl, Nat.eqb_refl in HO. exact HO.
Qed.

Lemma image_2 R ops y : image R ops 2 y <->
  exists xs, valid (size R) (arity R) xs /\ cell R xs = true /\
    forall j, j < arity R -> cell (nth j ops R) [nth j y 0; nth j xs 0] = true.
Proof.
  unfold image. split.
  - intros (rows & Hl & Hin & Hj). destruct rows as [|xs [|]]; try discriminate.
    destruct (Hin xs (or_introl eq_refl)) as [Hv HR]. exists xs. auto.
  - intros (xs & Hv & HR & Hj). exists [xs]. split; [reflexivity|split; [|exact Hj]].
    intros t [<-|[]]; auto.
Qed.

Lemma evaluate_n2_sem R ops : ops_ok R ops 2 -> 1 <= arity R ->
  computes_image R ops 2 (evaluate_n2 R ops).
Proof.
  intros (HR & Hl & Ho) Hk.
  destruct (evaluate_n2_loop R R HR ops [] R) as (W & Sz & Az & C); auto.
  - intros xr ys Hxr Hys. destruct Hys as [Hys _]. destruct ys; [|discriminate].
    simpl. rewrite app_nil_r. split.
    + intros H. exists []. split; [apply valid_nil|]. split; auto. intros i Hi; simpl in Hi; lia.
    + intros (xs & [Hxs _] & H & _). destruct xs; [exact H|discriminate].
  - split; [auto|split; [auto|split; [auto|]]]. intros y Hy.
    unfold evaluate_n2. rewrite C by auto. rewrite image_2. reflexivity.
Qed.

(** *** [_evaluate_n3]: ternary graphs *)

Lemma range_even k : range 0 (2 * k) 2 = map (fun i => 2 * i) (seq 0 k).
Proof.
  unfold range. replace ((2 * k - 0 + 2 - 1) / 2) with k.
  - apply map_ext; intros; lia.
  - apply (Nat.div_unique _ _ _ 1); lia.
Qed.

Lemma range_odd k : range 1 (2 * k) 2 = map (fun i => 2 * i + 1) (seq 0 k).
Proof.
  unfold range. replace ((2 * k - 1 + 2 - 1) / 2) with k.
  - apply map_ext; intros; lia.
  - destruct k as [|k]; [reflexivity|]. apply (Nat.div_unique _ _ _ 0); lia.
Qed.

Lemma evens_odds_nth k : forall x, length x = 2 * k ->
  map (fun i => nth (2 * i) x 0) (seq 0 k) = evens x /\
  map (fun i => nth (2 * i + 1) x 0) (seq 0 k) = odds x /\
  length (evens x) = k /\ length (odds x) = k.
Proof.
  induction k as [|k IH]; intros x Hx.
  - destruct x; [auto|discriminate].
  - destruct x as [|a [|b x]]; try (simpl in Hx; lia).
    destruct (IH x ltac:(simpl in Hx; lia)) as (E & O & LE & LO).
    change (seq 0 (S k)) with (0 :: seq 1 k).
    change (evens (a :: b :: x)) with (a :: evens x).
    change (odds (a :: b :: x)) with (b :: odds x).
    rewrite <- seq_shift, !map_cons, !map_map. split; [|split; [|split]].
    + f_equal. rewrite <- E. apply map_ext; intros i.
      replace (2 * S i) with (S (S (2 * i))) by lia. reflexivity.
    + f_equal. rewrite <- O. apply map_ext; intros i.
      replace (2 * S i + 1) with (S (S (2 * i + 1))) by lia. reflexivity.
    + simpl; rewrite LE; reflexivity.
    + simpl; rewrite LO; reflexivity.
Qed.

Lemma evens_odds_valid s k x : valid s (2 * k) x ->
  valid s k (evens x) /\ valid s k (odds x).
Proof.
  revert x; induction k as [|k IH]; intros x Hx.
  - destruct Hx as [Hl _]. destruct x; [split; apply valid_nil|discriminate].
  - destruct x as [|a [|b x]]; try (destruct Hx as [Hl _]; simpl in Hl; lia).
    replace (2 * S k) with (S (S (2 * k))) in Hx by lia.
    apply valid_cons in Hx as [Ha Hx]. apply valid_cons in Hx as [Hb Hx].
    destruct (IH x Hx) as [HE HO]. simpl. split; apply valid_cons; auto.
Qed.

Lemma n3_init_shape R : wf R ->
  wf (n3_init R) /\ size (n3_init R) = size R /\ arity (n3_init R) = 2 * arity R.
Proof. intros; unfold n3_init; split; [wf_tac|split; wf_tac]. Qed.

Lemma cell_n3_init R x : wf R -> valid (size R) (2 * arity R) x ->
  cell (n3_init R) x = cell R (evens x) && cell R (odds x).
Proof.
  intros HR Hx. unfold n3_init. pose proof HR as [Hs _].
  rewrite cell_and by wf_tac.
  destruct (evens_odds_nth (arity R) x (valid_length _ _ _ Hx)) as (E & O & _).
  rewrite !cell_polymer; auto.
  - rewrite range_even, range_odd, !map_map, E, O. reflexivity.
  - rewrite range_odd. apply Forall_forall; intros v Hv.
    apply in_map_iff in Hv as (i & <- & Hi). apply in_seq in Hi. lia.
  - rewrite range_even. apply Forall_forall; intros v Hv.
    apply in_map_iff in Hv as (i & <- & Hi). apply in_seq in Hi. lia.
Qed.

Lemma n3_step_shape rel o : wf rel -> wf o -> size o = size rel -> arity o = 3 ->
  2 <= arity rel ->
  wf (evaluate_n3_step rel o) /\ size (evaluate_n3_step rel o) = size rel /\
  arity (evaluate_n3_step rel o) = arity rel - 1.
Proof. intros; unfold evaluate_n3_step; split; [wf_tac|split; wf_tac]. Qed.

Lemma cell_n3_step rel o w y : wf rel -> wf o -> size o = size rel -> arity o = 3 ->
  2 <= arity rel -> valid (size rel) (arity rel - 2) w -> y < size rel ->
  cell (evaluate_n3_step rel o) (w ++ [y]) = true <->
  exists c c', c < size rel /\ c' < size rel /\ cell rel (c :: c' :: w) = true /\
    cell o [y; c; c'] = true.
Proof.
  intros Hr Ho Hs Ha H2 Hw Hy.
  change (evaluate_n3_step rel o) with
    (fold_any (polymer_rotate (rel_and (polymer_insert rel 0)
       (polymer o (seq 0 3) (S (arity rel)))) (-1)) 2).
  rewrite cell_absorb by auto. split.
  - intros (z & Hz & Hc & HO). destruct z as [|c [|c' [|]]]; try (destruct Hz; discriminate).
    apply valid_cons in Hz as [Hc1 Hz]. apply valid_cons in Hz as [Hc2 _].
    exists c, c'. auto.
  - intros (c & c' & Hc1 & Hc2 & Hc & HO). exists [c; c']. split; auto.
    apply valid_cons; split; auto. apply valid_cons; split; auto. apply valid_nil.
Qed.

Lemma evaluate_n3_loop R d : wf R -> forall rest done rel,
  wf rel -> size rel = size R -> arity rel = 2 * arity R - length done ->
  length done + length rest = arity R ->
  (forall o, In o rest -> wf o /\ size o = size R /\ arity o = 3) ->
  (forall xr ys, valid (size R) (2 * (arity R - length done)) xr ->
     valid (size R) (length done) ys ->
     (cell rel (xr ++ ys) = true <->
      exists xs zs, valid (size R) (length done) xs /\ valid (size R) (length done) zs /\
        cell R (xs ++ evens xr) = true /\ cell R (zs ++ odds xr) = true /\
        forall i, i < length done ->
          cell (nth i done d) [nth i ys 0; nth i xs 0; nth i zs 0] = true)) ->
  let r := fold_left evaluate_n3_step rest rel in
  wf r /\ size r = size R /\ arity r = arity R /\
  forall ys, valid (size R) (arity R) ys ->
    (cell r ys = true <->
     exists xs zs, valid (size R) (arity R) xs /\ valid (size R) (arity R) zs /\
       cell R xs = true /\ cell R zs = true /\
       forall i, i < arity R ->
         cell (nth i (done ++ rest) d) [nth i ys 0; nth i xs 0; nth i zs 0] = true).
Proof.
  intros HR rest. induction rest as [|o rest IH]; intros done rel Hw Hs Ha Hl Ho Hc; cbn [fold_left].
  - cbn [length] in Hl. rewrite Nat.add_0_r in Hl. rewrite app_nil_r.
    split; [auto|split; [auto|split; [lia|]]]. intros ys Hys.
    change ys with ([] ++ ys). rewrite Hc.
    + simpl. rewrite <- Hl.
      split; intros (xs & zs & H1 & H2 & H3 & H4 & H5); exists xs, zs;
        repeat rewrite app_nil_r in *; auto.
    + rewrite Hl, Nat.sub_diag; apply valid_nil.
    + rewrite Hl; auto.
  - destruct (Ho o (or_introl eq_refl)) as (Wo & So & Ao). cbn [length] in Hl.
    destruct (n3_step_shape rel o Hw Wo ltac:(congruence) Ao ltac:(lia)) as (W & Sz & Az).
    replace (done ++ o :: rest) with ((done ++ [o]) ++ rest) by (rewrite <- app_assoc; auto).
    apply IH; auto; try congruence.
    + rewrite Az, Ha, length_app; simpl; lia.
    + rewrite length_app; simpl; lia.
    + intros o' Ho'. apply Ho; right; auto.
    + intros xr ys Hxr Hys. rewrite length_app in *; cbn [length] in *.
      rewrite Nat.add_1_r in Hys. destruct (valid_snoc _ _ _ Hys) as (ys0 & y & -> & Hys0 & Hy).
      pose proof (valid_length _ _ _ Hys0) as Hl0.
      rewrite app_assoc, cell_n3_step; auto; try congruence; try lia;
        [|rewrite Hs, Ha;
          replace (2 * arity R - length done - 2)
            with (2 * (arity R - (length done + 1)) + length done) by lia;
          apply valid_app; auto].
      rewrite Nat.add_1_r, Hs.
      assert (Hv : forall c c', c < size R -> c' < size R ->
                valid (size R) (2 * (arity R - length done)) (c :: c' :: xr)).
      { intros c c' H1 H2.
        replace (2 * (arity R - length done)) with (S (S (2 * (arity R - (length done + 1)))))
          by lia.
        apply valid_cons; split; auto. apply valid_cons; split; auto. }
      split.
      * intros (c & c' & Hc1 & Hc2 & Hcr & HO).
        destruct (proj1 (Hc (c :: c' :: xr) ys0 (Hv c c' Hc1 Hc2) Hys0) Hcr)
          as (xs & zs & Hxs & Hzs & HRx & HRz & Hall).
        pose proof (valid_length _ _ _ Hxs) as Hlx.
        pose proof (valid_length _ _ _ Hzs) as Hlz.
        exists (xs ++ [c]), (zs ++ [c']).
        split; [apply valid_snoc_intro; auto|]. split; [apply valid_snoc_intro; auto|].
        split; [rewrite <- app_assoc; exact HRx|]. split; [rewrite <- app_assoc; exact HRz|].
        apply forall_lt_S. split.
        -- intros i Hi. rewrite !nth_snoc. rewrite Hl0, Hlx, Hlz.
           replace (i <? length done) with true by (symmetry; apply Nat.ltb_lt; auto).
           auto.
        -- rewrite !nth_snoc, Hl0, Hlx, Hlz, Nat.ltb_irrefl, Nat.eqb_refl. exact HO.
      * intros (xs' & zs' & Hxs' & Hzs' & HRx & HRz & Hall).
        destruct (valid_snoc _ _ _ Hxs') as (xs & c & -> & Hxs & Hc1).
        destruct (valid_snoc _ _ _ Hzs') as (zs & c' & -> & Hzs & Hc2).
        pose proof (valid_length _ _ _ Hxs) as Hlx.
        pose proof (valid_length _ _ _ Hzs) as Hlz.
        apply forall_lt_S in Hall as [Hall HO].
        exists c, c'. split; [auto|split; [auto|split]].
        -- apply (Hc (c :: c' :: xr) ys0); auto.
           exists xs, zs. split; [auto|split; [auto|]].
           split; [rewrite <- app_assoc in HRx; exact HRx|].
           split; [rewrite <- app_assoc in HRz; exact HRz|].
           intros i Hi. specialize (Hall i Hi). rewrite !nth_snoc, Hl0, Hlx, Hlz in Hall.
           replace (i <? length done) with true in Hall by (symmetry; apply Nat.ltb_lt; auto).
           exact Hall.
        -- rewrite !nth_snoc, Hl0, Hlx, Hlz, Nat.ltb_irrefl, Nat.eqb_refl in HO. exact HO.
Qed.

Lemma image_3 R ops y : image R ops 3 y <->
  exists xs zs, valid (size R) (arity R) xs /\ valid (size R) (arity R) zs /\
    cell R xs = true /\ cell R zs = true /\
    forall j, j < arity R -> cell (nth j ops R) [nth j y 0; nth j xs 0; nth j zs 0] = true.
Proof.
  unfold image. split.
  - intros (rows & Hl & Hin & Hj). destruct rows as [|xs [|zs [|]]]; try discriminate.
    destruct (Hin xs (or_introl eq_refl)) as [Hv HR].
    destruct (Hin zs (or_intror (or_introl eq_refl))) as [Hv' HR'].
    exists xs, zs. auto.
  - intros (xs & zs & Hv & Hv' & HR & HR' & Hj). exists [xs; zs].
    split; [reflexivity|split; [|exact Hj]].
    intros t [<-|[<-|[]]]; auto.
Qed.

Lemma evaluate_n3_sem R ops : ops_ok R ops 3 -> 1 <= arity R ->
  computes_image R ops 3 (evaluate_n3 R ops).
Proof.
  intros (HR & Hl & Ho) Hk.
  destruct (n3_init_shape R HR) as (W0 & S0 & A0).
  destruct (evaluate_n3_loop R R HR ops [] (n3_init R)) as (W & Sz & Az & C); auto.
  - simpl; lia.
  - intros xr ys Hxr Hys. destruct Hys as [Hys _]. destruct ys; [|discriminate].
    simpl in *. rewrite Nat.sub_0_r in Hxr. rewrite app_nil_r, cell_n3_init by auto.
    rewrite andb_true_iff. split.
    + intros [H1 H2]. exists [], []. repeat split; auto; try constructor.
      intros i Hi; simpl in Hi; lia.
    + intros (xs & zs & [Hxs _] & [Hzs _] & H1 & H2 & _).
      destruct xs; [|discriminate]. destruct zs; [|discriminate]. auto.
  - split; [auto|split; [auto|split; [auto|]]]. intros y Hy.
    unfold evaluate_n3. change (fold_left evaluate_n3_step ops (n3_init R)) with
      (fold_left evaluate_n3_step ops (n3_init R)).
    rewrite image_3. rewrite <- C by auto. reflexivity.
Qed.

(** *** [_evaluate_2m]: a binary relation *)

Lemma cell_insert1 r t y w : wf r -> valid (size r) (S (arity r)) (t :: y :: w) ->
  cell (polymer_insert r 1) (t :: y :: w) = cell r (t :: w).
Proof. intros Hr Hx. exact (cell_insert r [t] y w Hr Hx). Qed.

Lemma valid_nth s n l i : valid s n l -> i < n -> nth i l 0 < s.
Proof.
  intros [Hl Hf] Hi. rewrite Forall_forall in Hf. apply Hf, nth_In. lia.
Qed.

Lemma map_nth_seq_self (l : list nat) : map (fun i => nth i l 0) (seq 0 (length l)) = l.
Proof. pose proof (map_nth_prefix l []) as H. rewrite app_nil_r in H. exact H. Qed.

Lemma nth_map0 (f : list nat -> nat) (rows : list (list nat)) i : f [] = 0 ->
  nth i (map f rows) 0 = f (nth i rows []).
Proof. intros H. rewrite <- H. apply map_nth. Qed.

Lemma valid_two s x : valid s 2 x -> exists a b, x = [a; b] /\ a < s /\ b < s.
Proof.
  intros Hx. destruct x as [|a [|b [|]]]; try (destruct Hx; discriminate).
  apply valid_cons in Hx as [Ha Hx]. apply valid_cons in Hx as [Hb _]. eauto.
Qed.

Lemma valid_two_intro s a b : a < s -> b < s -> valid s 2 [a; b].
Proof. intros Ha Hb. apply valid_cons; split; auto. apply valid_cons; split; auto. apply valid_nil. Qed.

(** One round of the loop of [_evaluate_2m]: the first coordinate [t] is
    related by [R] to a new last coordinate [v] and folded away. *)
Lemma cell_2m_step R T w v : wf R -> arity R = 2 -> wf T -> size T = size R ->
  1 <= arity T -> valid (size R) (arity T - 1) w -> v < size R ->
  cell (evaluate_2m_step (polymer R [0; 1] (S (arity T))) T) (w ++ [v]) = true <->
  exists t, t < size R /\ cell T (t :: w) = true /\ cell R [t; v] = true.
Proof.
  intros HR HRa HT Hs H1 Hw Hv. unfold evaluate_2m_step.
  pose proof HR as [HRs _].
  assert (Ha : wf (rel_and (polymer_insert T 1) (polymer R [0; 1] (S (arity T))))) by wf_tac.
  change (-1)%Z with (- Z.of_nat 1)%Z.
  rewrite cell_rotate; autorewrite with shape; try lia.
  2: wf_tac.
  2: { rewrite Hs. replace (S (arity T) - 1 - 1) with (arity T - 1) by lia. exact Hw. }
  2: { rewrite Hs. split; [reflexivity|constructor; auto]. }
  unfold fold_any. simpl (_ ++ _).
  rewrite cell_fold_any; autorewrite with shape; auto; try lia.
  2: { rewrite Hs. replace (S (arity T) - 1) with (S (arity T - 1)) by lia.
       apply valid_cons; split; auto. }
  rewrite Hs. split.
  - intros (z & Hz & H). destruct (valid_one _ _ Hz) as (t & -> & Ht).
    simpl in H. rewrite cell_and in H by wf_tac. apply andb_true_iff in H as [H1' H2].
    assert (Hv3 : valid (size R) (S (arity T)) (t :: v :: w)).
    { replace (arity T) with (S (arity T - 1)) at 1 by lia.
      apply valid_cons; split; auto. apply valid_cons; split; auto. }
    rewrite cell_insert1 in H1' by (try rewrite Hs; auto).
    rewrite cell_polymer in H2; auto.
    + exists t. auto.
    + apply (Forall_seq_lt _ 2); lia.
  - intros (t & Ht & H1' & H2). exists [t]. split; [split; [reflexivity|constructor; auto]|].
    simpl. rewrite cell_and by wf_tac. apply andb_true_iff.
    assert (Hv3 : valid (size R) (S (arity T)) (t :: v :: w)).
    { replace (arity T) with (S (arity T - 1)) at 1 by lia.
      apply valid_cons; split; auto. apply valid_cons; split; auto. }
    split.
    + rewrite cell_insert1 by (try rewrite Hs; auto). exact H1'.
    + rewrite cell_polymer; auto. apply (Forall_seq_lt _ 2); lia.
Qed.

Lemma evaluate_2m_loop R O0 : wf R -> arity R = 2 -> wf O0 -> size O0 = size R ->
  1 <= arity O0 -> forall j, j <= arity O0 - 1 ->
  let T := Nat.iter j (evaluate_2m_step (polymer R [0; 1] (arity O0 + 1)))
             (polymer_rotate O0 (-1)) in
  wf T /\ size T = size R /\ arity T = arity O0 /\
  forall u o bs, valid (size R) (arity O0 - 1 - j) u -> o < size R -> valid (size R) j bs ->
    (cell T (u ++ o :: bs) = true <->
     exists xs, valid (size R) j xs /\
       (forall i, i < j -> cell R [nth i xs 0; nth i bs 0] = true) /\
       cell O0 (o :: xs ++ u) = true).
Proof.
  intros HR HRa HO HOs H1 j. induction j as [|j IH]; intros Hj; cbv zeta.
  - cbn [Nat.iter nat_rect]. split; [wf_tac|split; [wf_tac|split; [wf_tac|]]].
    intros u o bs Hu Ho Hbs. destruct Hbs as [Hbs _]. destruct bs; [|discriminate].
    change (-1)%Z with (- Z.of_nat 1)%Z.
    rewrite cell_rotate; auto; rewrite ?HOs; try lia.
    + simpl. split.
      * intros H. exists []. split; [apply valid_nil|]. split; auto. intros i Hi; lia.
      * intros (xs & [Hxs _] & _ & H). destruct xs; [exact H|discriminate].
    + rewrite Nat.sub_0_r in Hu. exact Hu.
    + split; [reflexivity|constructor; auto].
  - destruct (IH ltac:(lia)) as (W & Sz & Az & C). rewrite Nat.iter_succ.
    set (T := Nat.iter j _ _) in *.
    replace (arity O0 + 1) with (S (arity T)) by lia.
    split; [|split; [|split]].
    + unfold evaluate_2m_step; wf_tac.
    + unfold evaluate_2m_step; wf_tac.
    + unfold evaluate_2m_step; wf_tac.
    + intros u o bs' Hu Ho Hbs'.
      destruct (valid_snoc _ _ _ Hbs') as (bs & v & -> & Hbs & Hv).
      pose proof (valid_length _ _ _ Hbs) as Hlb.
      replace (u ++ o :: bs ++ [v]) with ((u ++ o :: bs) ++ [v])
        by (rewrite <- app_assoc; reflexivity).
      rewrite cell_2m_step; auto; try lia; cycle 1.
      { rewrite Az. replace (arity O0 - 1) with (arity O0 - 1 - S j + S j) by lia.
        apply valid_app; auto. apply (valid_cons _ j); split; auto. }
      assert (Hv' : forall t, t < size R -> valid (size R) (arity O0 - 1 - j) (t :: u)).
      { intros t Ht. replace (arity O0 - 1 - j) with (S (arity O0 - 1 - S j)) by lia.
        apply valid_cons; split; auto. }
      split.
      * intros (t & Ht & HT & HRt).
        destruct (proj1 (C (t :: u) o bs (Hv' t Ht) Ho Hbs) HT) as (xs & Hxs & Hall & HO0).
        pose proof (valid_length _ _ _ Hxs) as Hlx.
        exists (xs ++ [t]). split; [apply valid_snoc_intro; auto|]. split.
        -- apply forall_lt_S. split.
           ++ intros i Hi. rewrite !nth_snoc, Hlx, Hlb.
              replace (i <? j) with true by (symmetry; apply Nat.ltb_lt; auto). auto.
           ++ rewrite !nth_snoc, Hlx, Hlb, Nat.ltb_irrefl, Nat.eqb_refl. exact HRt.
        -- rewrite <- app_assoc. exact HO0.
      * intros (xs' & Hxs' & Hall & HO0).
        destruct (valid_snoc _ _ _ Hxs') as (xs & t & -> & Hxs & Ht).
        pose proof (valid_length _ _ _ Hxs) as Hlx.
        apply forall_lt_S in Hall as [Hall HRt].
        rewrite !nth_snoc, Hlx, Hlb, Nat.ltb_irrefl, Nat.eqb_refl in HRt.
        exists t. split; [auto|split; [|exact HRt]].
        apply (C (t :: u) o bs (Hv' t Ht) Ho Hbs). exists xs. split; [auto|split].
        -- intros i Hi. specialize (Hall i Hi). rewrite !nth_snoc, Hlx, Hlb in Hall.
           replace (i <? j) with true in Hall by (symmetry; apply Nat.ltb_lt; auto). exact Hall.
        -- rewrite <- app_assoc in HO0. exact HO0.
Qed.

Lemma cell_2m_final T O1 o o' : wf T -> wf O1 -> size O1 = size T -> arity O1 = arity T ->
  1 <= arity T -> o < size T -> o' < size T ->
  cell (fold_any (polymer_rotate (rel_and (polymer_insert T 1) (polymer_insert O1 0)) (-2))
                 (arity T - 1)) [o; o'] = true <->
  exists bs, valid (size T) (arity T - 1) bs /\ cell T (o :: bs) = true /\
    cell O1 (o' :: bs) = true.
Proof.
  intros HT HO Hs Ha H1 Ho Ho'.
  assert (HA : wf (rel_and (polymer_insert T 1) (polymer_insert O1 0))) by wf_tac.
  unfold fold_any. rewrite cell_fold_any; autorewrite with shape; try lia.
  2: wf_tac.
  2: { replace (S (arity T) - (arity T - 1)) with 2 by lia. apply valid_two_intro; auto. }
  split.
  - intros (z & Hz & H). exists z. split; [auto|].
    change (-2)%Z with (- Z.of_nat 2)%Z in H.
    rewrite cell_rotate in H; autorewrite with shape; try lia; auto.
    2: apply valid_two_intro; auto.
    simpl in H. rewrite cell_and in H by wf_tac. apply andb_true_iff in H as [H1' H2].
    pose proof (valid_length _ _ _ Hz) as Hzl.
    assert (Hv : valid (size T) (S (arity T)) (o :: o' :: z)).
    { replace (S (arity T)) with (2 + (arity T - 1)) by lia.
      apply (valid_app _ 2 _ [o; o'] z); auto. apply valid_two_intro; auto. }
    rewrite cell_insert1 in H1' by auto.
    rewrite cell_insert0 in H2 by (auto; rewrite Hs, Ha; auto).
    auto.
  - intros (z & Hz & H1' & H2). exists z. split; [auto|].
    change (-2)%Z with (- Z.of_nat 2)%Z.
    rewrite cell_rotate; autorewrite with shape; try lia; auto.
    2: apply valid_two_intro; auto.
    simpl. rewrite cell_and by wf_tac. apply andb_true_iff.
    assert (Hv : valid (size T) (S (arity T)) (o :: o' :: z)).
    { replace (S (arity T)) with (2 + (arity T - 1)) by lia.
      apply (valid_app _ 2 _ [o; o'] z); auto. apply valid_two_intro; auto. }
    rewrite cell_insert1 by auto.
    rewrite cell_insert0 by (auto; rewrite Hs, Ha; auto).
    auto.
Qed.

Lemma image_2m R O0 O1 p o o' : arity R = 2 ->
  image R [O0; O1] p [o; o'] <->
  exists xs bs, valid (size R) (p - 1) xs /\ valid (size R) (p - 1) bs /\
    (forall i, i < p - 1 -> cell R [nth i xs 0; nth i bs 0] = true) /\
    cell O0 (o :: xs) = true /\ cell O1 (o' :: bs) = true.
Proof.
  intros Hk. unfold image. rewrite Hk. split.
  - intros (rows & Hl & Hin & Hj).
    assert (Hrow : forall i, i < p - 1 ->
              valid (size R) 2 (nth i rows []) /\ cell R (nth i rows []) = true).
    { intros i Hi. apply Hin, nth_In. lia. }
    exists (map (fun t => nth 0 t 0) rows), (map (fun t => nth 1 t 0) rows).
    split; [|split; [|split; [|split]]].
    + split; [rewrite length_map; auto|]. apply Forall_forall; intros c Hc.
      apply in_map_iff in Hc as (t & <- & Ht). destruct (Hin t Ht) as [Hv _].
      destruct (valid_two _ _ Hv) as (a & b & -> & Ha & Hb). auto.
    + split; [rewrite length_map; auto|]. apply Forall_forall; intros c Hc.
      apply in_map_iff in Hc as (t & <- & Ht). destruct (Hin t Ht) as [Hv _].
      destruct (valid_two _ _ Hv) as (a & b & -> & Ha & Hb). auto.
    + intros i Hi. rewrite !nth_map0 by reflexivity.
      destruct (Hrow i Hi) as [Hv HR]. destruct (valid_two _ _ Hv) as (a & b & E & _ & _).
      rewrite E in *. exact HR.
    + apply (Hj 0); lia.
    + apply (Hj 1); lia.
  - intros (xs & bs & Hxs & Hbs & Hall & H0 & H1).
    pose proof (valid_length _ _ _ Hxs) as Hlx. pose proof (valid_length _ _ _ Hbs) as Hlb.
    exists (map (fun i => [nth i xs 0; nth i bs 0]) (seq 0 (p - 1))).
    split; [rewrite length_map, length_seq; auto|split].
    + intros t Ht. apply in_map_iff in Ht as (i & <- & Hi). apply in_seq in Hi.
      split; [|apply Hall; lia].
      apply valid_two_intro; apply (valid_nth _ (p - 1)); auto; lia.
    + intros j Hj. rewrite !map_map. cbn [nth].
      destruct j as [|[|j]]; [| |lia]; cbn [nth].
      * rewrite <- Hlx, map_nth_seq_self. exact H0.
      * rewrite <- Hlb, map_nth_seq_self. exact H1.
Qed.

Lemma evaluate_2m_sem R O0 O1 p : ops_ok R [O0; O1] p -> arity R = 2 -> 1 <= p ->
  computes_image R [O0; O1] p (evaluate_2m R O0 O1).
Proof.
  intros (HR & _ & Ho) Hk Hp.
  destruct (Ho O0 (or_introl eq_refl)) as (W0 & S0 & A0).
  destruct (Ho O1 (or_intror (or_introl eq_refl))) as (W1 & S1 & A1).
  destruct (evaluate_2m_loop R O0 HR Hk W0 S0 ltac:(lia) (arity O0 - 1) (le_n _))
    as (W & Sz & Az & C).
  unfold evaluate_2m. set (T := Nat.iter _ _ _) in *.
  rewrite <- Az.
  split; [wf_tac|split; [wf_tac|split; [wf_tac|]]].
  intros y Hy. rewrite Hk in Hy. destruct (valid_two _ _ Hy) as (o & o' & -> & Ho' & Ho'').
  rewrite cell_2m_final; auto; try lia; try congruence.
  rewrite image_2m by auto. rewrite Sz, Az, <- A0. split.
  - intros (bs & Hbs & HT & HO1).
    change (o :: bs) with ([] ++ o :: bs) in HT.
    rewrite C in HT; auto; [|rewrite Nat.sub_diag; apply valid_nil].
    destruct HT as (xs & Hxs & Hall & HO0). rewrite app_nil_r in HO0.
    exists xs, bs. auto.
  - intros (xs & bs & Hxs & Hbs & Hall & HO0 & HO1). exists bs. split; [auto|split; auto].
    change (o :: bs) with ([] ++ o :: bs).
    rewrite C; auto; [|rewrite Nat.sub_diag; apply valid_nil].
    exists xs. rewrite app_nil_r. auto.
Qed.

(** *** [_evaluate_nm]: the generic path *)

Lemma length_chunks k n z : length (chunks k n z) = n.
Proof. revert z; induction n; intros z; simpl; auto. Qed.

Lemma chunks_valid s k n z : valid s (k * n) z ->
  forall t, In t (chunks k n z) -> valid s k t.
Proof.
  revert z; induction n as [|n IH]; intros z Hz t Ht; [destruct Ht|].
  replace (k * S n) with (k + k * n) in Hz by lia.
  apply valid_app_inv in Hz as [H1 H2].
  destruct Ht as [<-|Ht]; auto. apply (IH (skipn k z)); auto.
Qed.

Lemma concat_chunks k n z : length z = k * n -> concat (chunks k n z) = z.
Proof.
  revert z; induction n as [|n IH]; intros z Hz; simpl.
  - rewrite Nat.mul_0_r in Hz. destruct z; [auto|discriminate].
  - rewrite IH; [apply firstn_skipn|]. rewrite length_skipn. lia.
Qed.

Lemma chunks_concat k rows : (forall r, In r rows -> length r = k) ->
  chunks k (length rows) (concat rows) = rows.
Proof.
  induction rows as [|r rows IH]; intros Hr; simpl; auto.
  assert (Hl : length r = k) by (apply Hr; left; auto).
  rewrite firstn_app, skipn_app, firstn_all2, skipn_all2 by lia.
  rewrite Hl, Nat.sub_diag. simpl. rewrite app_nil_r. f_equal. apply IH. intros r' Hr'. apply Hr; right; auto.
Qed.

Lemma concat_valid s k rows : (forall r, In r rows -> valid s k r) ->
  valid s (k * length rows) (concat rows).
Proof.
  induction rows as [|r rows IH]; intros Hr; simpl.
  - rewrite Nat.mul_0_r. apply valid_nil.
  - replace (k * S (length rows)) with (k + k * length rows) by lia.
    apply valid_app; [apply Hr; left; auto|]. apply IH. intros r' Hr'. apply Hr; right; auto.
Qed.

(** Column [idx] of the rows, read off the flat tuple. *)
Lemma col_concat k idx rows : idx < k -> (forall r, In r rows -> length r = k) ->
  map (fun j => nth (idx + j * k) (concat rows) 0) (seq 0 (length rows))
  = map (fun r => nth idx r 0) rows.
Proof.
  intros Hi. induction rows as [|r rows IH]; intros Hr; [reflexivity|].
  assert (Hl : length r = k) by (apply Hr; left; auto).
  change (seq 0 (length (r :: rows))) with (0 :: seq 1 (length rows)).
  rewrite <- seq_shift, !map_cons, map_map. cbn [concat].
  f_equal.
  - rewrite app_nth1 by lia. f_equal. lia.
  - rewrite <- IH by (intros r' Hr'; apply Hr; right; auto). apply map_ext; intros j.
    rewrite app_nth2 by (simpl; lia). f_equal. simpl. lia.
Qed.

(** Row [m] of the rows, read off the flat tuple. *)
Lemma row_concat k rows m : m < length rows -> (forall r, In r rows -> length r = k) ->
  map (fun v => nth v (concat rows) 0) (seq (m * k) k) = nth m rows [].
Proof.
  revert m. induction rows as [|r rows IH]; intros m Hm Hr; [simpl in Hm; lia|].
  assert (Hl : length r = k) by (apply Hr; left; auto).
  destruct m as [|m]; cbn [concat nth].
  - rewrite Nat.mul_0_l, <- Hl. apply map_nth_prefix.
  - rewrite <- (IH m) by (simpl in Hm; lia || (intros r' Hr'; apply Hr; right; auto)).
    replace (S m * k) with (k + m * k) by lia. rewrite <- map_add_seq, map_map.
    apply map_ext; intros v. rewrite app_nth2 by lia. f_equal. lia.
Qed.

Lemma range_col k p idx : idx < k ->
  range idx (k * p) k = map (fun j => idx + j * k) (seq 0 p).
Proof.
  intros Hi. unfold range. replace ((k * p - idx + k - 1) / k) with p; [reflexivity|].
  destruct p as [|p].
  - rewrite Nat.mul_0_r. symmetry. apply Nat.div_small. lia.
  - assert (k <= k * S p) by nia. apply (Nat.div_unique _ _ _ (k - 1 - idx)); lia.
Qed.

Lemma range_rows k p : 1 <= k -> 1 <= p ->
  range k (k * p) k = map (fun m => m * k) (seq 1 (p - 1)).
Proof.
  intros Hk Hp. unfold range. replace ((k * p - k + k - 1) / k) with (p - 1).
  - rewrite <- seq_shift, map_map. reflexivity.
  - assert (k <= k * p) by nia. apply (Nat.div_unique _ _ _ (k - 1)); [lia|].
    rewrite Nat.mul_sub_distr_l. lia.
Qed.

Lemma nm_graphs_shape k : forall ops idx rel,
  wf rel -> (forall o, In o ops -> wf o /\ size o = size rel) ->
  let g := evaluate_nm_graphs k idx ops rel in
  wf g /\ size g = size rel /\ arity g = arity rel.
Proof.
  induction ops as [|o ops IH]; intros idx rel Hw Ho; simpl; auto.
  destruct (Ho o (or_introl eq_refl)) as [Wo So].
  assert (W' : wf (rel_and rel (polymer o (range idx (arity rel) k) (arity rel)))) by wf_tac.
  destruct (IH (S idx) _ W') as (W & S & A).
  - intros o' Ho'. destruct (Ho o' (or_intror Ho')). split; auto.
  - rewrite S, A. auto.
Qed.

Lemma cell_nm_graphs k p d : 1 <= k -> forall ops idx rel rows,
  wf rel -> arity rel = k * p -> idx + length ops <= k ->
  (forall o, In o ops -> wf o /\ size o = size rel /\ arity o = p) ->
  length rows = p -> (forall r, In r rows -> valid (size rel) k r) ->
  (cell (evaluate_nm_graphs k idx ops rel) (concat rows) = true <->
   cell rel (concat rows) = true /\
   forall j, j < length ops -> cell (nth j ops d) (map (fun r => nth (idx + j) r 0) rows) = true).
Proof.
  intros Hk ops. induction ops as [|o ops IH]; intros idx rel rows Hw Ha Hi Ho Hl Hr; simpl.
  - split; [intros H; split; auto; intros j Hj; simpl in Hj; lia|intros [H _]; auto].
  - destruct (Ho o (or_introl eq_refl)) as (Wo & So & Ao). simpl in Hi.
    assert (W' : wf (rel_and rel (polymer o (range idx (arity rel) k) (arity rel)))) by wf_tac.
    assert (Hx : valid (size rel) (k * p) (concat rows)) by (rewrite <- Hl; apply concat_valid; auto).
    rewrite (IH (S idx)); auto; try (autorewrite with shape; auto; lia).
    2: { intros o' Ho'. destruct (Ho o' (or_intror Ho')) as (? & ? & ?). auto. }
    rewrite cell_and by wf_tac. rewrite Ha, range_col by lia.
    rewrite cell_polymer; cycle 1.
    { destruct Wo; auto. }
    { apply Forall_forall; intros v Hv. apply in_map_iff in Hv as (j & <- & Hj).
      apply in_seq in Hj. nia. }
    { rewrite So; exact Hx. }
    rewrite map_map, <- Hl, col_concat by (try lia; intros r Hr'; apply (valid_length (size rel)); auto).
    rewrite andb_true_iff. split.
    + intros [[H1 H2] H3]. split; auto. intros j Hj.
      destruct j as [|j]; simpl; [rewrite Nat.add_0_r; auto|].
      replace (idx + S j) with (S idx + j) by lia. apply H3. lia.
    + intros [H1 H3]. split; [split; auto|].
      * specialize (H3 0 ltac:(lia)). simpl in H3. rewrite Nat.add_0_r in H3. auto.
      * intros j Hj. replace (S idx + j) with (idx + S j) by lia. apply (H3 (S j)). lia.
Qed.

Lemma nm_rows_spec R p : wf R -> 1 <= arity R -> forall ms rel,
  wf rel -> size rel = size R -> arity rel = arity R * p ->
  (forall m, In m ms -> m < p) ->
  let F := fold_left (fun rel idx => rel_and rel (polymer R (range idx (idx + arity R) 1) (arity rel)))
             (map (fun m => m * arity R) ms) rel in
  wf F /\ size F = size R /\ arity F = arity rel /\
  forall rows, length rows = p -> (forall r, In r rows -> valid (size R) (arity R) r) ->
    (cell F (concat rows) = true <->
     cell rel (concat rows) = true /\ forall m, In m ms -> cell R (nth m rows []) = true).
Proof.
  intros HR Hk ms. induction ms as [|m ms IH]; intros rel Hw Hs Ha Hm; simpl.
  - split; [auto|split; [auto|split; [auto|]]]. intros rows _ _.
    split; [intros H; split; auto; intros m []|intros [H _]; auto].
  - assert (Hm0 : m < p) by (apply Hm; left; auto).
    assert (W' : wf (rel_and rel (polymer R (range (m * arity R) (m * arity R + arity R) 1)
                                       (arity rel)))) by wf_tac.
    destruct (IH _ W') as (W & Sz & Az & C); autorewrite with shape; auto.
    { intros m' Hm'. apply Hm; right; auto. }
    split; [auto|split; [auto|split; [auto|]]].
    intros rows Hl Hr.
    rewrite C, cell_and by (auto || wf_tac).
    assert (Hx : valid (size R) (arity R * p) (concat rows)).
    { rewrite <- Hl. apply concat_valid; auto. }
    rewrite range_1, cell_polymer; cycle 1.
    { destruct HR; auto. }
    { apply Forall_forall; intros v Hv. apply in_seq in Hv. rewrite Ha. nia. }
    { rewrite Ha; exact Hx. }
    replace (m * arity R + arity R - m * arity R) with (arity R) by lia.
    rewrite row_concat by (try lia; intros r Hr'; apply (valid_length (size R)); auto).
    rewrite andb_true_iff. split.
    + intros [[H1 H2] H3]. split; auto. intros m' [<-|Hm']; auto.
    + intros [H1 H3]. split; [split; auto|].
      intros m' Hm'. apply H3; right; auto.
Qed.

Lemma evaluate_nm_sem R ops p : ops_ok R ops p -> 1 <= arity R -> 1 <= p ->
  computes_image R ops p (evaluate_nm R ops).
Proof.
  intros (HR & Hl & Ho) Hk Hp. pose proof HR as [Hs _].
  destruct ops as [|o0 ops']; [simpl in Hl; lia|].
  destruct (Ho o0 (or_introl eq_refl)) as (W0 & S0 & A0).
  unfold evaluate_nm. cbv beta iota zeta. rewrite A0.
  set (ops := o0 :: ops') in *.
  set (G := evaluate_nm_graphs (arity R) 0 ops (new_full (size R) (arity R * p))).
  destruct (nm_graphs_shape (arity R) ops 0 (new_full (size R) (arity R * p)))
    as (WG & SG & AG).
  { apply new_full_wf; auto. }
  { intros o Hoo. destruct (Ho o Hoo) as (? & ? & ?). auto. }
  fold G in WG, SG, AG. cbn [size arity new_full] in SG, AG.
  rewrite AG, range_rows by lia.
  destruct (nm_rows_spec R p HR Hk (seq 1 (p - 1)) G WG SG AG) as (WF & SF & AF & CF).
  { intros m Hm. apply in_seq in Hm. lia. }
  set (F := fold_left _ _ G) in *.
  assert (Hkp : arity R <= arity R * p) by nia.
  assert (Hc : arity R * p - arity R * (p - 1) = arity R)
    by (rewrite Nat.mul_sub_distr_l; lia).
  split; [|split; [|split]].
  - wf_tac; rewrite AF, AG; nia.
  - autorewrite with shape. auto.
  - autorewrite with shape. rewrite AF, AG. auto.
  - intros y Hy. unfold fold_any.
    rewrite cell_fold_any; autorewrite with shape; [| |rewrite AF, AG; nia|];
      [|wf_tac|rewrite AF, AG, SF, Hc; auto].
    rewrite SF.
    assert (Hrot : forall z, valid (size R) (arity R * (p - 1)) z ->
              cell (polymer_rotate F (- Z.of_nat (arity R))) (z ++ y) = cell F (y ++ z)).
    { intros z Hz. apply cell_rotate; auto; rewrite ?AF, ?AG, ?SF; try nia.
      replace (arity R * p - arity R) with (arity R * (p - 1)) by (rewrite Nat.mul_sub_distr_l; lia).
      all: auto. }
    assert (Hgraphs : forall rows, length rows = p ->
              (forall r, In r rows -> valid (size R) (arity R) r) ->
              (cell F (concat rows) = true <->
               (forall j, j < arity R -> cell (nth j ops R) (map (fun r => nth j r 0) rows) = true) /\
               forall m, In m (seq 1 (p - 1)) -> cell R (nth m rows []) = true)).
    { intros rows Hlr Hr. rewrite CF by auto.
      unfold G. rewrite (cell_nm_graphs (arity R) p R Hk ops 0); auto.
      - rewrite cell_new_full by (rewrite <- Hlr; apply concat_valid; auto).
        rewrite <- Hl. simpl. split.
        + intros [[_ H1] H2]. auto.
        + intros [H1 H2]. auto.
      - apply new_full_wf; auto.
      - rewrite <- Hl. lia. }
    split.
    + intros (z & Hz & H). rewrite Hrot in H by auto.
      pose proof (valid_length _ _ _ Hz) as Hzl.
      set (rows := chunks (arity R) (p - 1) z).
      assert (Hrows : forall t, In t rows -> valid (size R) (arity R) t)
        by (apply chunks_valid; auto).
      rewrite <- (concat_chunks (arity R) (p - 1) z Hzl) in H. fold rows in H.
      change (y ++ concat rows) with (concat (y :: rows)) in H.
      rewrite Hgraphs in H; cycle 1.
      { simpl. unfold rows. rewrite length_chunks. lia. }
      { intros r [<-|Hr]; auto. }
      destruct H as [H1 H2].
      exists rows. split; [unfold rows; apply length_chunks|split].
      * intros t Ht. split; auto.
        destruct (In_nth _ _ [] Ht) as (m & Hm & <-).
        apply (H2 (S m)). apply in_seq. unfold rows in Hm. rewrite length_chunks in Hm. lia.
      * intros j Hj. apply (H1 j Hj).
    + intros (rows & Hlr & Hin & Hj).
      exists (concat rows). split.
      { rewrite <- Hlr. apply concat_valid. intros t Ht; apply Hin; auto. }
      rewrite Hrot by (rewrite <- Hlr; apply concat_valid; intros t Ht; apply Hin; auto).
      change (y ++ concat rows) with (concat (y :: rows)).
      rewrite Hgraphs.
      * split; [exact Hj|]. intros m Hm. apply in_seq in Hm.
        destruct m as [|m]; [lia|]. simpl. apply Hin, nth_In. lia.
      * simpl. lia.
      * intros r [<-|Hr]; [auto|apply Hin; auto].
Qed.

(** ** Dispatch of [evaluate] *)

Lemma wfb_sound r : wfb r = true -> wf r.
Proof. unfold wfb, wf. rewrite andb_true_iff, Nat.leb_le, Nat.eqb_eq. auto. Qed.

Lemma ops_okb_sound R ops p : ops_okb R ops p = true -> ops_ok R ops p.
Proof.
  unfold ops_okb. rewrite !andb_true_iff, Nat.eqb_eq, forallb_forall.
  intros [[HR Hl] Ho]. split; [apply wfb_sound; auto|split; [auto|]].
  intros o Hoo. specialize (Ho o Hoo). rewrite !andb_true_iff, !Nat.eqb_eq in Ho.
  destruct Ho as [[Hw Hs] Ha]. split; [apply wfb_sound; auto|auto].
Qed.

(** Under the entry assertions, [evaluate] reaches [NotImplementedError]
    exactly for relations of arity at least 3 and graphs of arity at least
    4; every other case returns the image. *)
Lemma evaluate_cases R ops p : ops_ok R ops p -> 1 <= arity R -> 1 <= p ->
  (3 <= arity R /\ 4 <= p -> evaluate R ops = Raise NotImplementedError) /\
  (~ (3 <= arity R /\ 4 <= p) ->
     exists E, evaluate R ops = Ok E /\ computes_image R ops p E).
Proof.
  intros Hok Hk Hp. pose proof Hok as (HR & Hl & Ho).
  destruct ops as [|o0 ops']; [simpl in Hl; lia|].
  destruct (Ho o0 (or_introl eq_refl)) as (W0 & S0 & A0).
  assert (Hall : forallb (fun o => (arity o =? arity o0) && (size o =? size R)) (o0 :: ops')
                 = true).
  { apply forallb_forall. intros o Hoo. destruct (Ho o Hoo) as (_ & So & Ao).
    rewrite Ao, A0, So, !Nat.eqb_refl. reflexivity. }
  unfold evaluate. cbv zeta. rewrite Hall, Hl, Nat.eqb_refl, A0.
  replace (1 <=? arity R) with true by (symmetry; apply Nat.leb_le; lia).
  replace (1 <=? p) with true by (symmetry; apply Nat.leb_le; lia).
  cbn [negb andb].
  destruct (Nat.eqb_spec p 1) as [->|H1].
  { split; [lia|]. intros _. eexists; split; [reflexivity|]. apply evaluate_n1_sem; auto. }
  destruct (Nat.eqb_spec (arity R) 1) as [Hk1|Hk1].
  { split; [lia|]. intros _. eexists; split; [reflexivity|].
    destruct ops'; [|simpl in Hl; lia]. apply evaluate_1m_sem; auto. }
  destruct (Nat.eqb_spec p 2) as [->|H2].
  { split; [lia|]. intros _. eexists; split; [reflexivity|]. apply evaluate_n2_sem; auto. }
  destruct (Nat.eqb_spec (arity R) 2) as [Hk2|Hk2].
  { destruct ops' as [|o1 [|]]; simpl in Hl; try lia.
    split; [lia|]. intros _. eexists; split; [reflexivity|]. apply evaluate_2m_sem; auto. }
  destruct (Nat.eqb_spec p 3) as [->|H3].
  { split; [lia|]. intros _. eexists; split; [reflexivity|]. apply evaluate_n3_sem; auto. }
  split; [reflexivity|]. intros H. exfalso. apply H. lia.
Qed.

(** * The claims *)

(** ** [Relation.evaluate] *)

(** C1 (corrected): for a [k]-ary relation [R] ([k >= 1]) and [k] graphs of
    one arity [p >= 1] over the universe of [R], [evaluate] returns, except
    when [k >= 3] and [p >= 4], the [k]-ary relation (not an [m]-ary one)
    holding at [y] exactly when some [p - 1] tuples of [R] satisfy, for
    every [j < k], [ops_j(y_j, t_1[j], ..., t_(p-1)[j])]. *)
Theorem evaluate_image R ops p : ops_ok R ops p -> 1 <= arity R -> 1 <= p ->
  ~ (3 <= arity R /\ 4 <= p) ->
  exists E, evaluate R ops = Ok E /\ computes_image R ops p E.
Proof. intros Hok Hk Hp Hn. apply (evaluate_cases R ops p Hok Hk Hp); exact Hn. Qed.

Lemma evaluate_image_witness :
  ops_ok (mkRelation 2 1 [true; true])
    [mkRelation 2 3 [true; false; true; false; true; false; false; true]] 3 /\
  exists E, evaluate (mkRelation 2 1 [true; true])
              [mkRelation 2 3 [true; false; true; false; true; false; false; true]] = Ok E /\
            computes_image (mkRelation 2 1 [true; true])
              [mkRelation 2 3 [true; false; true; false; true; false; false; true]] 3 E.
Proof.
  split; [apply ops_okb_sound; vm_compute; reflexivity|].
  apply (evaluate_image (mkRelation 2 1 [true; true])
           [mkRelation 2 3 [true; false; true; false; true; false; false; true]] 3).
  - apply ops_okb_sound; vm_compute; reflexivity.
  - simpl; lia.
  - lia.
  - simpl; lia.
Defined.

(** C1: the unary relation [{0, 1}] under the graph of binary AND (one
    operation, [m = 2]): [evaluate] returns a unary relation, not a binary
    one. *)
Lemma evaluate_image_counterexample :
  evaluate (mkRelation 2 1 [true; true])
    [mkRelation 2 3 [true; false; true; false; true; false; false; true]]
  = Ok (mkRelation 2 1 [true; true]).
Proof. vm_compute. reflexivity. Qed.

(** C2: whenever a specialised path applies ([p = 1], [k = 1], [p = 2],
    [k = 2] or [p = 3], with [p] the graph arity), it returns the same
    relation as the generic [_evaluate_nm], for every universe size and
    every well-formed input. *)
Theorem evaluate_paths_agree R ops p : ops_ok R ops p -> 1 <= arity R -> 1 <= p ->
  (p = 1 -> evaluate_n1 R ops = evaluate_nm R ops) /\
  (arity R = 1 -> evaluate_1m R (hd R ops) = evaluate_nm R ops) /\
  (p = 2 -> evaluate_n2 R ops = evaluate_nm R ops) /\
  (arity R = 2 -> evaluate_2m R (nth 0 ops R) (nth 1 ops R) = evaluate_nm R ops) /\
  (p = 3 -> evaluate_n3 R ops = evaluate_nm R ops).
Proof.
  intros Hok Hk Hp. pose proof (evaluate_nm_sem R ops p Hok Hk Hp) as Hnm.
  pose proof Hok as (_ & Hl & _).
  split; [|split; [|split; [|split]]].
  - intros ->. apply (computes_image_unique R ops 1); auto. apply evaluate_n1_sem; auto.
  - intros Hk1. destruct ops as [|o [|]]; simpl in Hl; try lia.
    apply (computes_image_unique R [o] p); auto. apply evaluate_1m_sem; auto.
  - intros ->. apply (computes_image_unique R ops 2); auto. apply evaluate_n2_sem; auto.
  - intros Hk2. destruct ops as [|o0 [|o1 [|]]]; simpl in Hl; try lia.
    apply (computes_image_unique R [o0; o1] p); auto. apply evaluate_2m_sem; auto.
  - intros ->. apply (computes_image_unique R ops 3); auto. apply evaluate_n3_sem; auto.
Qed.

Lemma evaluate_paths_agree_witness :
  ops_ok (mkRelation 2 2 [true; false; false; true])
    [mkRelation 2 2 [false; true; true; false]; mkRelation 2 2 [true; false; false; true]] 2 /\
  evaluate_n2 (mkRelation 2 2 [true; false; false; true])
    [mkRelation 2 2 [false; true; true; false]; mkRelation 2 2 [true; false; false; true]]
  = evaluate_nm (mkRelation 2 2 [true; false; false; true])
    [mkRelation 2 2 [false; true; true; false]; mkRelation 2 2 [true; false; false; true]].
Proof.
  split; [apply ops_okb_sound; vm_compute; reflexivity|].
  destruct (evaluate_paths_agree (mkRelation 2 2 [true; false; false; true])
    [mkRelation 2 2 [false; true; true; false]; mkRelation 2 2 [true; false; false; true]] 2)
    as (_ & _ & H2 & _).
  - apply ops_okb_sound; vm_compute; reflexivity.
  - simpl; lia.
  - lia.
  - apply H2. reflexivity.
Defined.

(** C3 (corrected): under the entry assertions, [evaluate] returns a
    relation exactly when not both [k >= 3] and [p >= 4] (graph arity
    [p = m + 1]); in that remaining case it raises [NotImplementedError]. *)
Theorem evaluate_defined R ops p : ops_ok R ops p -> 1 <= arity R -> 1 <= p ->
  ((exists E, evaluate R ops = Ok E) <-> ~ (3 <= arity R /\ 4 <= p)) /\
  (3 <= arity R /\ 4 <= p -> evaluate R ops = Raise NotImplementedError).
Proof.
  intros Hok Hk Hp. destruct (evaluate_cases R ops p Hok Hk Hp) as [H1 H2].
  split; [split|exact H1].
  - intros [E HE] Hc. rewrite H1 in HE by exact Hc. discriminate.
  - intros Hn. destruct (H2 Hn) as (E & HE & _). eauto.
Qed.

Lemma evaluate_defined_witness :
  ops_ok (mkRelation 1 3 [true]) (repeat (mkRelation 1 4 [true]) 3) 4 /\
  evaluate (mkRelation 1 3 [true]) (repeat (mkRelation 1 4 [true]) 3)
  = Raise NotImplementedError.
Proof.
  split; [apply ops_okb_sound; vm_compute; reflexivity|].
  apply (evaluate_defined (mkRelation 1 3 [true]) (repeat (mkRelation 1 4 [true]) 3) 4).
  - apply ops_okb_sound; vm_compute; reflexivity.
  - simpl; lia.
  - lia.
  - simpl; lia.
Defined.

(** C3: a ternary relation with three ternary operations (graphs of
    arity 4) on a one-element universe passes every entry assertion and
    reaches [NotImplementedError]. *)
Lemma evaluate_defined_counterexample :
  ops_ok (mkRelation 1 3 [true]) (repeat (mkRelation 1 4 [true]) 3) 4 /\
  evaluate (mkRelation 1 3 [true]) (repeat (mkRelation 1 4 [true]) 3)
  = Raise NotImplementedError.
Proof. split; [apply ops_okb_sound|]; vm_compute; reflexivity. Qed.

(** ** [Relation.polymer] *)

(** C4: [polymer T new_vars new_arity] is a relation of arity [new_arity]
    whose cell at every tuple [x] is the cell of [T] at
    [(x[new_vars[0]], ..., x[new_vars[a-1]])]. *)
Theorem polymer_spec T new_vars new_arity x : wf T -> length new_vars = arity T ->
  Forall (fun v => v < new_arity) new_vars -> valid (size T) new_arity x ->
  wf (polymer T new_vars new_arity) /\ size (polymer T new_vars new_arity) = size T /\
  arity (polymer T new_vars new_arity) = new_arity /\
  valid (size T) (arity T) (map (fun v => nth v x 0) new_vars) /\
  cell (polymer T new_vars new_arity) x = cell T (map (fun v => nth v x 0) new_vars).
Proof.
  intros HT Hl Hf Hx. pose proof HT as [Hs _].
  split; [apply polymer_wf; auto|split; [reflexivity|split; [reflexivity|split]]].
  - split; [rewrite length_map; auto|].
    apply Forall_map. eapply Forall_impl; [|exact Hf]. intros v Hv. eapply valid_nth; eauto.
  - apply cell_polymer; auto.
Qed.

Lemma polymer_spec_witness :
  wf (mkRelation 2 2 [false; true; false; false]) /\
  (wf (polymer (mkRelation 2 2 [false; true; false; false]) [0; 0] 1) /\
   size (polymer (mkRelation 2 2 [false; true; false; false]) [0; 0] 1) = 2 /\
   arity (polymer (mkRelation 2 2 [false; true; false; false]) [0; 0] 1) = 1 /\
   valid 2 2 (map (fun v => nth v [1] 0) [0; 0]) /\
   cell (polymer (mkRelation 2 2 [false; true; false; false]) [0; 0] 1) [1]
   = cell (mkRelation 2 2 [false; true; false; false]) (map (fun v => nth v [1] 0) [0; 0])).
Proof.
  split; [apply wfb_sound; reflexivity|].
  apply (polymer_spec (mkRelation 2 2 [false; true; false; false]) [0; 0] 1 [1]).
  - apply wfb_sound; reflexivity.
  - reflexivity.
  - repeat constructor.
  - split; [reflexivity|repeat constructor].
Defined.

(** ** The folds *)

(** C5 (corrected): for [c <= arity T], [fold_any], [fold_all], [fold_one]
    and [fold_amo] return relations of arity [arity T - c] whose cell at [x]
    quantifies [T] over the LEADING [c] coordinates (the least significant
    ones, coordinate 0 first): existentially, universally, exactly once and
    at most once; folding the full arity gives a table of length 1. *)
Theorem fold_spec T c : wf T -> c <= arity T ->
  wf (fold_any T c) /\ wf (fold_all T c) /\ wf (fold_one T c) /\ wf (fold_amo T c) /\
  arity (fold_any T c) = arity T - c /\ arity (fold_all T c) = arity T - c /\
  arity (fold_one T c) = arity T - c /\ arity (fold_amo T c) = arity T - c /\
  (forall x, valid (size T) (arity T - c) x ->
     (cell (fold_any T c) x = true <->
        exists z, valid (size T) c z /\ cell T (z ++ x) = true) /\
     (cell (fold_all T c) x = true <->
        forall z, valid (size T) c z -> cell T (z ++ x) = true) /\
     (cell (fold_one T c) x = true <->
        exists z, valid (size T) c z /\ cell T (z ++ x) = true /\
          forall z', valid (size T) c z' -> cell T (z' ++ x) = true -> z' = z) /\
     (cell (fold_amo T c) x = true <->
        forall z z', valid (size T) c z -> valid (size T) c z' ->
          cell T (z ++ x) = true -> cell T (z' ++ x) = true -> z = z')) /\
  (c = arity T ->
     length (table (fold_any T c)) = 1 /\ length (table (fold_all T c)) = 1 /\
     length (table (fold_one T c)) = 1 /\ length (table (fold_amo T c)) = 1).
Proof.
  intros HT Hc.
  assert (Hw : forall f, wf (fold_with f T c)) by (intros f; apply fold_with_wf; auto).
  assert (Hlen : forall f, c = arity T -> length (table (fold_with f T c)) = 1).
  { intros f ->. destruct (Hw f) as [_ Hl]. rewrite Hl. cbn [arity size fold_with].
    rewrite Nat.sub_diag. reflexivity. }
  split; [apply Hw|split; [apply Hw|split; [apply Hw|split; [apply Hw|]]]].
  split; [reflexivity|split; [reflexivity|split; [reflexivity|split; [reflexivity|]]]].
  split.
  - intros x Hx. split; [apply cell_fold_any; auto|].
    split; [apply cell_fold_all; auto|].
    split; [apply cell_fold_one; auto|apply cell_fold_amo; auto].
  - intros Hca. split; [apply Hlen; auto|split; [apply Hlen; auto|split; apply Hlen; auto]].
Qed.

Lemma fold_spec_witness :
  wf (new_singleton 2 [1; 0]) /\
  (cell (fold_any (new_singleton 2 [1; 0]) 1) [0] = true <->
   exists z, valid 2 1 z /\ cell (new_singleton 2 [1; 0]) (z ++ [0]) = true).
Proof.
  split; [apply wfb_sound; reflexivity|].
  destruct (fold_spec (new_singleton 2 [1; 0]) 1) as (_ & _ & _ & _ & _ & _ & _ & _ & H & _).
  - apply wfb_sound; reflexivity.
  - simpl; lia.
  - apply (H [0]). split; [reflexivity|repeat constructor].
Defined.

(** C5: [new_singleton 2 [1; 0]] holds only at [(x_0, x_1) = (1, 0)].
    Quantifying its trailing coordinate [x_1] would give [false] at
    [x_0 = 0], but [fold_any _ 1] quantifies [x_0] and gives [true] at
    [x_1 = 0]. *)
Lemma fold_spec_counterexample :
  cell (new_singleton 2 [1; 0]) [0; 0] = false /\
  cell (new_singleton 2 [1; 0]) [0; 1] = false /\
  cell (fold_any (new_singleton 2 [1; 0]) 1) [0] = true.
Proof. vm_compute. split; [reflexivity|split; reflexivity]. Qed.

(** ** Freshly allocated operations *)

Lemma fold_add_constraints {A} (f : A -> Sat.Constraint) : forall l s,
  fold_left (fun s x => Sat.add_constraint s (f x)) l s
  = Sat.mkSolver (Sat.num_vars s) (Sat.constraints s ++ map f l).
Proof.
  induction l as [|a l IH]; intros s; simpl.
  - destruct s; simpl; rewrite app_nil_r; reflexivity.
  - rewrite IH. simpl. rewrite <- app_assoc. reflexivity.
Qed.

Lemma new_op_variable_spec ensure s sz ar : 1 <= sz ->
  length (fst (Sat.new_op_variable ensure s sz ar)) = sz ^ (ar + 1) /\
  Sat.constraints (snd (Sat.new_op_variable ensure s sz ar))
  = Sat.constraints s ++
    map (fun b => ensure (Sat.lslice (fst (Sat.new_op_variable ensure s sz ar))
                            (b * sz) (b * sz + sz)))
      (seq 0 (sz ^ ar)).
Proof.
  intros Hs. unfold Sat.new_op_variable, Sat.new_variable. cbn [fst snd Sat.num_vars].
  rewrite (fold_add_constraints
             (fun start => ensure (Sat.lslice (map Sat.LVar (seq (Sat.num_vars s) (sz ^ (ar + 1))))
                                     start (start + sz)))).
  cbn [Sat.constraints]. rewrite length_map, length_seq. split; [reflexivity|].
  assert (Hr : range 0 (sz ^ (ar + 1)) sz = map (fun j => j * sz) (seq 0 (sz ^ ar))).
  { rewrite Nat.pow_add_r, Nat.pow_1_r. apply range_0_blocks; lia. }
  rewrite Hr, map_map. reflexivity.
Qed.

Lemma new_op_variable_blocks ensure s sz ar sigma b : 1 <= sz ->
  Sat.is_model sigma (snd (Sat.new_op_variable ensure s sz ar)) -> b < sz ^ ar ->
  length (Sat.lslice (fst (Sat.new_op_variable ensure s sz ar)) (b * sz) (b * sz + sz)) = sz /\
  Sat.satisfies sigma
    (ensure (Sat.lslice (fst (Sat.new_op_variable ensure s sz ar)) (b * sz) (b * sz + sz))).
Proof.
  intros Hs Hm Hb. destruct (new_op_variable_spec ensure s sz ar Hs) as [Hl Hc].
  split.
  - unfold Sat.lslice. rewrite length_firstn, length_skipn, Hl.
    replace (b * sz + sz - b * sz) with sz by lia.
    assert (b * sz + sz <= sz ^ (ar + 1)).
    { rewrite Nat.pow_add_r, Nat.pow_1_r. nia. }
    lia.
  - unfold Sat.is_model in Hm. rewrite Hc in Hm. apply Forall_app in Hm as [_ Hm].
    rewrite Forall_forall in Hm. apply Hm, in_map_iff. exists b.
    split; [reflexivity|apply in_seq; lia].
Qed.

(** C6 (spec-modelled solver): in every model of the solver built by the
    [Solver] branch of [Operation.__init__] (resp. [PartialOp.__init__]),
    each of the [size ^ arity] output blocks of [size] literals has exactly
    one (resp. at most one) true literal. *)
Theorem new_variable_functional s sz ar : 1 <= sz ->
  (forall sigma, Sat.is_model sigma (snd (Sat.Operation_new_variable s sz ar)) ->
     length (fst (Sat.Operation_new_variable s sz ar)) = sz ^ (ar + 1) /\
     forall b, b < sz ^ ar ->
       length (Sat.lslice (fst (Sat.Operation_new_variable s sz ar)) (b * sz) (b * sz + sz))
         = sz /\
       count_true (map (Sat.lit_value sigma)
         (Sat.lslice (fst (Sat.Operation_new_variable s sz ar)) (b * sz) (b * sz + sz))) = 1) /\
  (forall sigma, Sat.is_model sigma (snd (Sat.PartialOp_new_variable s sz ar)) ->
     length (fst (Sat.PartialOp_new_variable s sz ar)) = sz ^ (ar + 1) /\
     forall b, b < sz ^ ar ->
       length (Sat.lslice (fst (Sat.PartialOp_new_variable s sz ar)) (b * sz) (b * sz + sz))
         = sz /\
       count_true (map (Sat.lit_value sigma)
         (Sat.lslice (fst (Sat.PartialOp_new_variable s sz ar)) (b * sz) (b * sz + sz))) <= 1).
Proof.
  intros Hs. unfold Sat.Operation_new_variable, Sat.PartialOp_new_variable.
  split; intros sigma Hm; (split; [apply new_op_variable_spec; auto|]);
    intros b Hb; destruct (new_op_variable_blocks _ s sz ar sigma b Hs Hm Hb) as [H1 H2];
    split; auto.
Qed.

Lemma new_variable_functional_witness :
  Sat.is_model (fun v => v =? 1) (snd (Sat.Operation_new_variable (Sat.mkSolver 0 []) 2 0)) /\
  (Sat.is_model (fun v => v =? 1) (snd (Sat.Operation_new_variable (Sat.mkSolver 0 []) 2 0)) ->
     length (fst (Sat.Operation_new_variable (Sat.mkSolver 0 []) 2 0)) = 2 ^ (0 + 1) /\
     forall b, b < 2 ^ 0 ->
       length (Sat.lslice (fst (Sat.Operation_new_variable (Sat.mkSolver 0 []) 2 0))
                 (b * 2) (b * 2 + 2)) = 2 /\
       count_true (map (Sat.lit_value (fun v => v =? 1))
         (Sat.lslice (fst (Sat.Operation_new_variable (Sat.mkSolver 0 []) 2 0))
            (b * 2) (b * 2 + 2))) = 1).
Proof.
  split.
  - vm_compute. repeat constructor.
  - apply (proj1 (new_variable_functional (Sat.mkSolver 0 []) 2 0 ltac:(lia))).
Defined.

(** ** [Relation.closure] *)

(** C7 (corrected): [closure R f] is one call of [evaluate] with [arity R]
    copies of the graph of [f]: it raises [AssertionError] when [arity R = 0]
    (evaluate asserts [arity >= 1]), [NotImplementedError] when
    [arity R >= 3] and [op_arity f >= 3], and otherwise returns the image of
    [R] under [f] applied coordinatewise to [op_arity f] tuples of [R] (no
    seed tuples are kept and nothing is iterated to a fixpoint). *)
Theorem closure_one_step R f : wf R -> op_size f = size R ->
  length (op_table f) = size R ^ S (op_arity f) ->
  closure R f = evaluate R (repeat (as_relation f) (arity R)) /\
  (arity R = 0 -> closure R f = Raise AssertionError) /\
  (3 <= arity R /\ 3 <= op_arity f -> closure R f = Raise NotImplementedError) /\
  (1 <= arity R -> ~ (3 <= arity R /\ 3 <= op_arity f) ->
   exists E, closure R f = Ok E /\
     computes_image R (repeat (as_relation f) (arity R)) (S (op_arity f)) E).
Proof.
  intros HR Hs Hl. split; [reflexivity|split; [|split]].
  - intros H0. unfold closure. rewrite H0. reflexivity.
  - intros [Hk Hn].
    assert (Hok : ops_ok R (repeat (as_relation f) (arity R)) (S (op_arity f))).
    { split; [auto|split; [apply repeat_length|]].
      intros o Ho. apply repeat_spec in Ho. subst o. pose proof HR as [HRs _].
      split; [split; simpl; [lia|rewrite Hs; auto]|split; [exact Hs|reflexivity]]. }
    destruct (evaluate_cases R _ _ Hok ltac:(lia) ltac:(lia)) as [H _].
    apply H. lia.
  - intros Hk Hn.
    assert (Hok : ops_ok R (repeat (as_relation f) (arity R)) (S (op_arity f))).
    { split; [auto|split; [apply repeat_length|]].
      intros o Ho. apply repeat_spec in Ho. subst o. pose proof HR as [HRs _].
      split; [split; simpl; [lia|rewrite Hs; auto]|split; [exact Hs|reflexivity]]. }
    destruct (evaluate_cases R _ _ Hok Hk ltac:(lia)) as [_ H].
    apply H. lia.
Qed.

Lemma closure_one_step_witness :
  wf (mkRelation 2 1 [true; false]) /\
  (closure (mkRelation 2 1 [true; false]) (mkOperation 2 1 [false; true; true; false])
   = evaluate (mkRelation 2 1 [true; false])
       (repeat (as_relation (mkOperation 2 1 [false; true; true; false])) 1) /\
   (1 = 0 -> closure (mkRelation 2 1 [true; false]) (mkOperation 2 1 [false; true; true; false])
            = Raise AssertionError) /\
   (3 <= 1 /\ 3 <= 1 ->
    closure (mkRelation 2 1 [true; false]) (mkOperation 2 1 [false; true; true; false])
    = Raise NotImplementedError) /\
   (1 <= 1 -> ~ (3 <= 1 /\ 3 <= 1) ->
    exists E, closure (mkRelation 2 1 [true; false]) (mkOperation 2 1 [false; true; true; false])
              = Ok E /\
      computes_image (mkRelation 2 1 [true; false])
        (repeat (as_relation (mkOperation 2 1 [false; true; true; false])) 1) 2 E)).
Proof.
  split; [apply wfb_sound; reflexivity|].
  apply (closure_one_step (mkRelation 2 1 [true; false]) (mkOperation 2 1 [false; true; true; false])).
  - apply wfb_sound; reflexivity.
  - reflexivity.
  - reflexivity.
Defined.

(** C7: the seed [{0}] under negation on [{0, 1}]: the least closed
    superset is [{0, 1}], but [closure] returns [{1}], which does not even
    contain the seed. *)
Lemma closure_one_step_counterexample :
  cell (mkRelation 2 1 [true; false]) [0] = true /\
  closure (mkRelation 2 1 [true; false]) (mkOperation 2 1 [false; true; true; false])
  = Ok (mkRelation 2 1 [false; true]) /\
  cell (mkRelation 2 1 [false; true]) [0] = false.
Proof. vm_compute. split; [reflexivity|split; reflexivity]. Qed.

(** ** [Operation.decode] *)

Lemma first_true_count tbl st l :
  length (match first_true tbl st l with Some i => [i] | None => [] end)
  = if existsb (fun i => nth (st + i) tbl false) l then 1 else 0.
Proof. induction l as [|a l IH]; simpl; auto. destruct (nth (st + a) tbl false); auto. Qed.

Lemma first_true_some tbl st l i :
  first_true tbl st l = Some i -> In i l /\ nth (st + i) tbl false = true.
Proof.
  induction l as [|a l IH]; simpl; [discriminate|].
  case_eq (nth (st + a) tbl false); intros Ha H.
  - injection H as <-. auto.
  - destruct (IH H). auto.
Qed.

Lemma first_true_none tbl st l :
  first_true tbl st l = None -> forall i, In i l -> nth (st + i) tbl false = false.
Proof.
  induction l as [|a l IH]; simpl; [intros _ i []|].
  case_eq (nth (st + a) tbl false); intros Ha H; [discriminate|].
  intros i [<-|Hi]; auto.
Qed.

Lemma flat_map_map_nat {B} (f : nat -> list B) (g : nat -> nat) l :
  flat_map f (map g l) = flat_map (fun x => f (g x)) l.
Proof. induction l; simpl; congruence. Qed.

Lemma flat_map_singletons (f : nat -> list nat) l :
  (forall x, In x l -> length (f x) = 1) -> flat_map f l = map (fun x => hd 0 (f x)) l.
Proof.
  induction l as [|a l IH]; intros H; simpl; auto.
  rewrite IH by (intros; apply H; right; auto).
  specialize (H a (or_introl eq_refl)). destruct (f a) as [|c [|]]; simpl in *; try lia.
  reflexivity.
Qed.

Lemma nth_map_seq0 {A} (f : nat -> A) n i d : i < n -> nth i (map f (seq 0 n)) d = f i.
Proof.
  intros Hi. rewrite (nth_indep _ d (f 0)) by (rewrite length_map, length_seq; lia).
  rewrite map_nth, seq_nth by lia. reflexivity.
Qed.

Lemma slice_blocks (tbl : list bool) sz b : b * sz + sz <= length tbl ->
  slice tbl (b * sz) (b * sz + sz) = map (fun i => nth (b * sz + i) tbl false) (seq 0 sz).
Proof.
  intros Hl. unfold slice. replace (b * sz + sz - b * sz) with sz by lia.
  apply nth_ext with (d := false) (d' := false).
  - rewrite length_firstn, length_skipn, length_map, length_seq. lia.
  - intros i Hi. rewrite length_firstn, length_skipn in Hi.
    rewrite nth_firstn, nth_skipn.
    replace (i <? sz) with true by (symmetry; apply Nat.ltb_lt; lia).
    rewrite nth_map_seq0 by lia. reflexivity.
Qed.

Lemma decode_blocks o : 1 <= op_size o ->
  length (op_table o) = op_size o ^ (op_arity o + 1) ->
  Operation_decode o =
  flat_map (fun b => match first_true (op_table o) (b * op_size o) (seq 0 (op_size o)) with
                     | Some i => [i]
                     | None => []
                     end)
    (seq 0 (op_size o ^ op_arity o)).
Proof.
  intros Hs Hl. unfold Operation_decode.
  rewrite Hl, Nat.pow_add_r, Nat.pow_1_r, range_0_blocks by lia.
  apply flat_map_map_nat.
Qed.

Lemma first_true_filter tbl st l :
  match first_true tbl st l with Some i => [i] | None => [] end
  = firstn 1 (filter (fun i => nth (st + i) tbl false) l).
Proof. induction l as [|a l IH]; simpl; auto. destruct (nth (st + a) tbl false); auto. Qed.

(** C8 (corrected): on a constant-backed table of the right length,
    [decode] never fails: it emits, block by block, the first index whose
    cell is true (the first element of the block's list of true indices)
    and skips blocks with no true cell, so its length is the number of
    blocks with a true cell.  Under the functionality invariant
    it returns one entry per block, the unique true index. *)
Theorem decode_spec o : 1 <= op_size o ->
  length (op_table o) = op_size o ^ (op_arity o + 1) ->
  Operation_decode o =
    flat_map (fun b => firstn 1 (filter (fun i => nth (b * op_size o + i) (op_table o) false)
                                   (seq 0 (op_size o))))
      (seq 0 (op_size o ^ op_arity o)) /\
  length (Operation_decode o) =
    count_true (map (fun b => existsb (fun i => nth (b * op_size o + i) (op_table o) false)
                                (seq 0 (op_size o)))
                  (seq 0 (op_size o ^ op_arity o))) /\
  (functional o ->
     length (Operation_decode o) = op_size o ^ op_arity o /\
     forall b i, b < op_size o ^ op_arity o -> i < op_size o ->
       (nth b (Operation_decode o) 0 = i <-> nth (b * op_size o + i) (op_table o) false = true)).
Proof.
  intros Hs Hl. split.
  { rewrite decode_blocks by auto. apply flat_map_ext. intros b. apply first_true_filter. }
  rewrite decode_blocks by auto.
  set (D := fun b => match first_true (op_table o) (b * op_size o) (seq 0 (op_size o)) with
                     | Some i => [i]
                     | None => []
                     end).
  split.
  - induction (seq 0 (op_size o ^ op_arity o)) as [|b l IH]; [reflexivity|].
    rewrite count_true_map_cons, <- IH. simpl flat_map. rewrite length_app.
    unfold D. rewrite first_true_count. reflexivity.
  - intros [_ Hf].
    assert (Hb : forall b, b < op_size o ^ op_arity o ->
              exists ib, ib < op_size o /\ D b = [ib] /\
                forall i, i < op_size o ->
                  (nth (b * op_size o + i) (op_table o) false = true <-> i = ib)).
    { intros b Hb. specialize (Hf b Hb).
      rewrite slice_blocks in Hf.
      2:{ rewrite Hl, Nat.pow_add_r, Nat.pow_1_r. nia. }
      apply count_true_one in Hf; [|apply seq_NoDup].
      destruct Hf as (ib & Hin & Hib & Hu). apply in_seq in Hin.
      exists ib. split; [lia|split].
      - unfold D. case_eq (first_true (op_table o) (b * op_size o) (seq 0 (op_size o))).
        + intros j Hj. destruct (first_true_some _ _ _ _ Hj) as [Hjin Hjt].
          rewrite (Hu j Hjin Hjt). reflexivity.
        + intros Hn. rewrite (first_true_none _ _ _ Hn ib) in Hib; [discriminate|].
          apply in_seq; lia.
      - intros i Hi. split; [intros Ht; apply Hu; auto; apply in_seq; lia|intros ->; auto]. }
    rewrite flat_map_singletons.
    2:{ intros b Hin. apply in_seq in Hin. destruct (Hb b ltac:(lia)) as (ib & _ & -> & _).
        reflexivity. }
    rewrite length_map, length_seq. split; [reflexivity|].
    intros b i Hbl Hi. destruct (Hb b Hbl) as (ib & Hibs & HD & Hiff).
    rewrite nth_map_seq0 by lia. rewrite HD, Hiff by auto. simpl.
    split; auto.
Qed.

Lemma decode_spec_witness :
  functional (mkOperation 2 1 [false; true; true; false]) /\
  (length (Operation_decode (mkOperation 2 1 [false; true; true; false])) = 2 ^ 1 /\
   forall b i, b < 2 ^ 1 -> i < 2 ->
     (nth b (Operation_decode (mkOperation 2 1 [false; true; true; false])) 0 = i <->
      nth (b * 2 + i) [false; true; true; false] false = true)).
Proof.
  assert (Hf : functional (mkOperation 2 1 [false; true; true; false])).
  { split; [reflexivity|]. intros b Hb. simpl in Hb.
    destruct b as [|[|]]; [reflexivity|reflexivity|lia]. }
  split; [exact Hf|].
  apply (decode_spec (mkOperation 2 1 [false; true; true; false])).
  - simpl; lia.
  - reflexivity.
  - exact Hf.
Defined.

(** C8: a block with no true cell is skipped (no error, a shorter list), a
    block with two true cells yields its first index. *)
Lemma decode_spec_counterexample :
  Operation_decode (mkOperation 2 0 [false; false]) = [] /\
  Operation_decode (mkOperation 2 0 [true; true]) = [0].
Proof. vm_compute. split; reflexivity. Qed.

(** ** [SmallAlg.apply] *)

Lemma constants_ok sz args : 1 <= sz -> Forall (fun a => length a = sz) args ->
  exists cs, constants sz args = Ok cs.
Proof.
  intros Hs Ha. induction Ha as [|a args Ha Hr IH]; [eexists; reflexivity|].
  destruct IH as [cs Hcs]. simpl. unfold Constant_new.
  replace ((1 <=? sz) && (length a =? sz ^ 1)) with true
    by (symmetry; apply andb_true_iff; rewrite Nat.leb_le, Nat.eqb_eq, Nat.pow_1_r; auto).
  rewrite Hcs. eexists; reflexivity.
Qed.

(** C9 (code bug): for every operation index in range and every argument
    list of the right length made of length-[size] bit vectors, [apply]
    raises [TypeError]: it calls [compose(elems, partop)], and [compose]
    takes the single argument [args]. *)
Theorem SmallAlg_apply_type_error alg op oper args partop :
  nth_error (operations alg) op = Some oper -> length args = op_arity oper ->
  1 <= alg_size alg -> Forall (fun a => length a = alg_size alg) args ->
  SmallAlg_apply alg op args partop = Raise TypeError.
Proof.
  intros Hop Hl Hs Ha. unfold SmallAlg_apply, signature.
  rewrite nth_error_map, Hop. cbn [option_map].
  rewrite Hl, Nat.eqb_refl. cbn [negb].
  destruct (constants_ok _ _ Hs Ha) as [cs ->]. reflexivity.
Qed.

Lemma SmallAlg_apply_type_error_witness :
  SmallAlg_apply (mkSmallAlg [mkOperation 2 1 [false; true; true; false]]) 0
    [[true; false]] false = Raise TypeError.
Proof.
  apply (SmallAlg_apply_type_error (mkSmallAlg [mkOperation 2 1 [false; true; true; false]]) 0
           (mkOperation 2 1 [false; true; true; false])).
  - reflexivity.
  - reflexivity.
  - unfold alg_size; simpl; lia.
  - repeat constructor.
Defined.

(** ** [Relation.new_diag] *)

Lemma nth_list_set {A} (l : list A) j v i d : j < length l ->
  nth i (list_set l j v) d = if i =? j then v else nth i l d.
Proof.
  revert j i; induction l as [|x l IH]; intros j i Hj; simpl in Hj; [lia|].
  destruct j as [|j], i as [|i]; simpl; auto. apply IH; lia.
Qed.

Lemma length_list_set {A} (l : list A) j v : length (list_set l j v) = length l.
Proof. revert j; induction l as [|x l IH]; intros [|j]; simpl; auto. Qed.

Lemma fold_list_set (idxs : list nat) : forall (t : list bool) i,
  Forall (fun j => j < length t) idxs ->
  length (fold_left (fun t idx => list_set t idx true) idxs t) = length t /\
  nth i (fold_left (fun t idx => list_set t idx true) idxs t) false
  = nth i t false || existsb (Nat.eqb i) idxs.
Proof.
  induction idxs as [|j idxs IH]; intros t i Hf; simpl.
  - rewrite orb_false_r. auto.
  - inversion Hf as [|? ? Hj Hr]; subst.
    destruct (IH (list_set t j true) i) as [H1 H2].
    { rewrite length_list_set. auto. }
    rewrite length_list_set in H1. split; [auto|].
    rewrite H2, nth_list_set by auto. destruct (i =? j); simpl; auto.
    rewrite orb_true_r. reflexivity.
Qed.

(** [1 + size + ... + size^(arity-1)], the index of the tuple [(1, ..., 1)]. *)
Lemma encode_repeat s c a : encode s (repeat c a) = c * encode s (repeat 1 a).
Proof. induction a as [|a IH]; simpl; [lia|]. rewrite IH. nia. Qed.

Lemma geometric s a : 1 <= s -> (s - 1) * encode s (repeat 1 a) = s ^ a - 1.
Proof.
  intros Hs. induction a as [|a IH]; simpl; [lia|].
  pose proof (pow_pos_le s a Hs).
  assert (Hp : s ^ a = (s - 1) * encode s (repeat 1 a) + 1) by lia.
  rewrite Hp. destruct s as [|t]; [lia|]. replace (S t - 1) with t by lia. nia.
Qed.

Lemma valid_repeat s c a : c < s -> valid s a (repeat c a).
Proof.
  intros Hc. split; [apply repeat_length|].
  apply Forall_forall. intros x Hx. apply repeat_spec in Hx. lia.
Qed.

(** [new_diag] on a universe of at least two elements and a positive
    arity: the relation true exactly at the constant tuples. *)
Lemma new_diag_many s a : 2 <= s -> 1 <= a ->
  exists R, new_diag s a = Ok R /\ wf R /\ size R = s /\ arity R = a /\
    forall x, valid s a x -> (cell R x = true <-> exists c, x = repeat c a).
Proof.
  intros Hs Ha. unfold new_diag.
  replace (negb (1 <=? s)) with false by (symmetry; apply negb_false_iff, Nat.leb_le; lia).
  replace (s <=? 1) with false by (symmetry; apply Nat.leb_gt; lia).
  cbv zeta.
  set (G := encode s (repeat 1 a)).
  assert (HG : (s - 1) * G = s ^ a - 1) by (apply geometric; lia).
  assert (Hpa : s <= s ^ a).
  { destruct a as [|a]; [lia|]. simpl. pose proof (pow_pos_le s a ltac:(lia)). nia. }
  assert (HG1 : 1 <= G) by nia.
  assert (Hstep : (s ^ a - 1) / (s - 1) = G).
  { rewrite <- HG, Nat.mul_comm. apply Nat.div_mul. lia. }
  rewrite Hstep. unfold range_step.
  replace (G =? 0) with false by (symmetry; apply Nat.eqb_neq; lia).
  assert (Hr : range 0 (s ^ a) G = map (fun j => j * G) (seq 0 s)).
  { unfold range. replace ((s ^ a - 0 + G - 1) / G) with s; [reflexivity|].
    replace (s ^ a - 0 + G - 1) with (s * G) by nia.
    symmetry. apply Nat.div_mul. lia. }
  rewrite Hr.
  assert (Hin : Forall (fun j => j < length (repeat false (s ^ a))) (map (fun j => j * G) (seq 0 s))).
  { apply Forall_forall. intros j Hj. apply in_map_iff in Hj as (c & <- & Hc).
    apply in_seq in Hc. rewrite repeat_length. nia. }
  destruct (fold_list_set _ (repeat false (s ^ a)) 0 Hin) as [Hlen _].
  rewrite repeat_length in Hlen.
  unfold Relation_new. rewrite Hlen, Nat.eqb_refl.
  replace (1 <=? s) with true by (symmetry; apply Nat.leb_le; lia). cbn [andb].
  eexists. split; [reflexivity|]. split; [split; simpl; [lia|exact Hlen]|].
  split; [reflexivity|split; [reflexivity|]].
  intros x Hx. unfold cell. cbn [size table].
  destruct (fold_list_set _ (repeat false (s ^ a)) (encode s x) Hin) as [_ ->].
  rewrite nth_repeat. cbn [orb]. rewrite existsb_exists. split.
  + intros (j & Hj & Hej). apply in_map_iff in Hj as (c & <- & Hc). apply in_seq in Hc.
    apply Nat.eqb_eq in Hej. exists c.
    rewrite <- (digits_encode s a x Hx), <- (digits_encode s a (repeat c a)) by
      (apply valid_repeat; lia).
    f_equal. rewrite encode_repeat. exact Hej.
  + intros (c & ->). assert (Hc : c < s).
    { destruct a as [|a]; [lia|]. destruct Hx as [_ Hf]. inversion Hf. auto. }
    exists (c * G). split.
    * apply in_map_iff. exists c. split; [reflexivity|apply in_seq; lia].
    * apply Nat.eqb_eq. apply encode_repeat.
Qed.

(** C10: [new_diag] raises [ValueError] at arity 0 on a universe of at
    least two elements (its stride is 0); for arity at least 1 it returns
    the relation true exactly at the constant tuples; on a one-element
    universe it returns the table [[true]] for every arity. *)
Theorem new_diag_spec s a :
  (2 <= s -> a = 0 -> new_diag s a = Raise ValueError) /\
  (2 <= s -> 1 <= a ->
     exists R, new_diag s a = Ok R /\ wf R /\ size R = s /\ arity R = a /\
       forall x, valid s a x -> (cell R x = true <-> exists c, x = repeat c a)) /\
  (s = 1 -> new_diag s a = Ok (mkRelation 1 a [true])).
Proof.
  split; [|split].
  - intros Hs ->. unfold new_diag.
    replace (negb (1 <=? s)) with false by (symmetry; apply negb_false_iff, Nat.leb_le; lia).
    replace (s <=? 1) with false by (symmetry; apply Nat.leb_gt; lia).
    cbv zeta. rewrite Nat.pow_0_r, Nat.sub_diag, Nat.Div0.div_0_l. reflexivity.
  - intros Hs Ha. apply new_diag_many; assumption.
  - intros ->. unfold new_diag. simpl negb. cbn [Nat.leb].
    unfold Relation_new. rewrite Nat.pow_1_l. reflexivity.
Qed.

Lemma new_diag_spec_witness :
  exists R, new_diag 3 2 = Ok R /\ wf R /\ size R = 3 /\ arity R = 2 /\
    forall x, valid 3 2 x -> (cell R x = true <-> exists c, x = repeat c 2).
Proof. apply (proj1 (proj2 (new_diag_spec 3 2))); lia. Defined.

(** * Further properties of the code *)

(** ** Negation, disjunction and [BitVec.fold_all] on tables *)

Lemma nth_bv_or a b i : length a = length b ->
  nth i (bv_or a b) false = nth i a false || nth i b false.
Proof.
  revert b i; induction a as [|x a IH]; intros [|y b] i Hl; simpl in *; try lia.
  - destruct i; reflexivity.
  - destruct i; auto.
Qed.

Lemma length_bv_or a b : length (bv_or a b) = min (length a) (length b).
Proof. revert b; induction a; intros [|y b]; simpl; auto. Qed.

Lemma not_size r : size (rel_not r) = size r.
Proof. reflexivity. Qed.

Lemma not_arity r : arity (rel_not r) = arity r.
Proof. reflexivity. Qed.

Lemma or_size a b : size (rel_or a b) = size a.
Proof. reflexivity. Qed.

Lemma or_arity a b : arity (rel_or a b) = arity a.
Proof. reflexivity. Qed.

Lemma rel_not_wf r : wf r -> wf (rel_not r).
Proof. intros [Hs Hl]; split; simpl; auto. unfold bv_not. rewrite length_map; auto. Qed.

Lemma rel_or_wf a b : wf a -> wf b -> size a = size b -> arity a = arity b ->
  wf (rel_or a b).
Proof.
  intros [Hs Hl] [Hs' Hl'] Hsz Har; split; simpl; auto.
  rewrite length_bv_or, Hl, Hl', Hsz, Har; apply Nat.min_id.
Qed.

Lemma cell_not r x : wf r -> valid (size r) (arity r) x ->
  cell (rel_not r) x = negb (cell r x).
Proof.
  intros [Hs Hl] Hx. unfold cell, rel_not, bv_not; simpl.
  rewrite (nth_indep (map negb (table r)) false (negb false))
    by (rewrite length_map, Hl; apply (encode_lt _ _ _ Hx)).
  apply map_nth.
Qed.

Lemma cell_or a b x : wf a -> wf b -> size a = size b -> arity a = arity b ->
  cell (rel_or a b) x = cell a x || cell b x.
Proof.
  intros [Hs Hl] [Hs' Hl'] Hsz Har. unfold cell; simpl.
  rewrite nth_bv_or, Hsz by congruence. reflexivity.
Qed.

#[global] Hint Rewrite not_size not_arity or_size or_arity : shape.

Ltac wf_tac2 :=
  repeat (match goal with
          | |- wf (rel_and _ _) => apply rel_and_wf
          | |- wf (rel_or _ _) => apply rel_or_wf
          | |- wf (rel_not _) => apply rel_not_wf
          | |- wf (polymer _ _ _) => apply polymer_wf
          | |- wf (fold_any _ _) => apply fold_with_wf
          end);
  autorewrite with shape; try assumption; try lia.

Ltac valid_tac := cbn [app]; repeat (apply valid_cons; split; [lia|]); apply valid_nil.

Ltac side_tac :=
  first [lia | (repeat (apply Forall_cons; [lia|]); apply Forall_nil) | valid_tac].

(** [BitVec.fold_all()] of the table of a relation is true exactly when
    every cell is. *)
Lemma lits_fold_all_table r : wf r ->
  lits_fold_all (table r) = true <-> forall x, valid (size r) (arity r) x -> cell r x = true.
Proof.
  intros [Hs Hl]. unfold lits_fold_all. rewrite forallb_forall. split.
  - intros H x Hx. apply H, nth_In. rewrite Hl. apply (encode_lt _ _ _ Hx).
  - intros H b Hb. apply (In_nth _ _ false) in Hb as (i & Hi & <-).
    specialize (H (digits (size r) (arity r) i) (digits_valid _ _ _ Hs)).
    unfold cell in H. rewrite encode_digits, Nat.mod_small in H by lia. exact H.
Qed.

Lemma list_max_repeat_0 n : list_max (repeat 0 n) = 0.
Proof. induction n as [|n IH]; [reflexivity|]. unfold list_max in *. simpl. rewrite IH. reflexivity. Qed.

Lemma Forall_repeat_lt c n m : c < m -> Forall (fun v => v < m) (repeat c n).
Proof. intros Hc. apply Forall_forall. intros v Hv. apply repeat_spec in Hv. lia. Qed.

(** [new_diag] for every universe and a positive arity. *)
Lemma new_diag_cell s a : 1 <= s -> 1 <= a ->
  exists R, new_diag s a = Ok R /\ wf R /\ size R = s /\ arity R = a /\
    forall x, valid s a x -> (cell R x = true <-> exists c, x = repeat c a).
Proof.
  intros Hs Ha. destruct (Nat.eq_dec s 1) as [->|Hs1]; [|apply new_diag_many; lia].
  unfold new_diag. simpl negb. cbn [Nat.leb]. unfold Relation_new. rewrite Nat.pow_1_l.
  eexists. split; [reflexivity|]. split; [split; simpl; [lia|rewrite Nat.pow_1_l; reflexivity]|].
  split; [reflexivity|split; [reflexivity|]].
  intros x [Hl Hf]. assert (Hx : x = repeat 0 a).
  { subst a. clear Ha. induction x as [|xi x IH]; [reflexivity|].
    inversion Hf as [|? ? Hxi Hf']. simpl. f_equal; [lia|]. apply IH; auto. }
  subst x. unfold cell. simpl. rewrite encode_repeat_0. split; [eauto|reflexivity].
Qed.

(** The relation [compose] builds from a binary relation. *)
Lemma compose_shape r : wf r -> arity r = 2 ->
  wf (fold_any (rel_and (polymer r [1; 0] 3) (polymer r [0; 2] 3)) 1) /\
  size (fold_any (rel_and (polymer r [1; 0] 3) (polymer r [0; 2] 3)) 1) = size r /\
  arity (fold_any (rel_and (polymer r [1; 0] 3) (polymer r [0; 2] 3)) 1) = 2.
Proof. intros Hr Ha. split; [|split]; wf_tac2. Qed.

Lemma compose_cell r x y : wf r -> arity r = 2 -> x < size r -> y < size r ->
  cell (fold_any (rel_and (polymer r [1; 0] 3) (polymer r [0; 2] 3)) 1) [x; y] = true <->
  exists z, z < size r /\ cell r [x; z] = true /\ cell r [z; y] = true.
Proof.
  intros Hr Ha Hx Hy. pose proof Hr as [Hs _].
  rewrite cell_fold_any by (wf_tac2; apply valid_two_intro; auto).
  autorewrite with shape. split.
  - intros (z & Hz & Hc). destruct (valid_one _ _ Hz) as (c & -> & Hc').
    rewrite cell_and in Hc by wf_tac2.
    rewrite !cell_polymer in Hc by side_tac.
    apply andb_true_iff in Hc. simpl in Hc. exists c; tauto.
  - intros (z & Hz & H1 & H2). exists [z]. split; [apply valid_cons; split; [auto|apply valid_nil]|].
    rewrite cell_and by wf_tac2.
    rewrite !cell_polymer by side_tac.
    simpl. rewrite H1, H2. reflexivity.
Qed.

(** The shape assertions [closure] passes to [evaluate]. *)
Lemma closure_ops_ok R f : wf R -> op_size f = size R ->
  length (op_table f) = size R ^ S (op_arity f) ->
  ops_ok R (repeat (as_relation f) (arity R)) (S (op_arity f)).
Proof.
  intros HR Hs Hl. split; [auto|split; [apply repeat_length|]].
  intros o Ho. apply repeat_spec in Ho. subst o. pose proof HR as [HRs _].
  split; [split; simpl; [lia|rewrite Hs; auto]|split; [exact Hs|reflexivity]].
Qed.

(** ** Properties of binary relations *)

(** X1: [Relation.reflexive] raises [ValueError] on a relation of arity 0
    ([max] of an empty list); otherwise it returns a one-element BitVec
    that is true exactly when the relation holds at every constant tuple
    [(c, ..., c)]. *)
Theorem reflexive_spec r : wf r ->
  (arity r = 0 -> reflexive r = Raise ValueError) /\
  (1 <= arity r -> exists b, reflexive r = Ok [b] /\
     (b = true <-> forall c, c < size r -> cell r (repeat c (arity r)) = true)).
Proof.
  intros Hr. pose proof Hr as [Hs _]. split.
  - intros Ha. unfold reflexive, polymer_default. rewrite Ha. reflexivity.
  - intros Ha. unfold reflexive, polymer_default.
    rewrite repeat_length, Nat.eqb_refl, list_max_repeat_0.
    destruct (arity r) as [|a] eqn:Ea; [lia|]. cbn [negb repeat].
    eexists. split; [reflexivity|]. change (0 + 1) with 1.
    rewrite lits_fold_all_table by wf_tac2. autorewrite with shape. split.
    + intros H c Hc. specialize (H [c] ltac:(valid_tac)).
      rewrite cell_polymer in H by (auto; try valid_tac; apply (Forall_repeat_lt 0 (S a) 1); lia).
      change (0 :: repeat 0 a) with (repeat 0 (S a)) in H. rewrite map_repeat in H. exact H.
    + intros H x Hx. destruct (valid_one _ _ Hx) as (c & -> & Hc).
      rewrite cell_polymer by (auto; try valid_tac; apply (Forall_repeat_lt 0 (S a) 1); lia).
      change (0 :: repeat 0 a) with (repeat 0 (S a)). rewrite map_repeat. apply H; auto.
Qed.

Lemma reflexive_spec_witness :
  wf (mkRelation 2 2 [true; false; true; true]) /\
  (arity (mkRelation 2 2 [true; false; true; true]) = 0 ->
     reflexive (mkRelation 2 2 [true; false; true; true]) = Raise ValueError) /\
  (1 <= arity (mkRelation 2 2 [true; false; true; true]) ->
   exists b, reflexive (mkRelation 2 2 [true; false; true; true]) = Ok [b] /\
     (b = true <-> forall c, c < size (mkRelation 2 2 [true; false; true; true]) ->
        cell (mkRelation 2 2 [true; false; true; true])
          (repeat c (arity (mkRelation 2 2 [true; false; true; true]))) = true)).
Proof.
  split; [apply wfb_sound; reflexivity|].
  apply reflexive_spec. apply wfb_sound; reflexivity.
Defined.

(** X2: [Relation.symmetric] fails its assertion unless the relation is
    binary; on a binary relation it returns a one-element BitVec that is
    true exactly when [R(x, y)] implies [R(y, x)] for all [x], [y]. *)
Theorem symmetric_spec r : wf r ->
  (arity r <> 2 -> symmetric r = Raise AssertionError) /\
  (arity r = 2 -> exists b, symmetric r = Ok [b] /\
     (b = true <-> forall x y, x < size r -> y < size r ->
                    cell r [x; y] = true -> cell r [y; x] = true)).
Proof.
  intros Hr. pose proof Hr as [Hs _]. split.
  - intros Ha. unfold symmetric. apply Nat.eqb_neq in Ha. rewrite Ha. reflexivity.
  - intros Ha. unfold symmetric, polymer_default. rewrite Ha. cbn [negb Nat.eqb length].
    change (list_max [1; 0] + 1) with 2.
    eexists. split; [reflexivity|].
    rewrite lits_fold_all_table by wf_tac2. autorewrite with shape. rewrite Ha. split.
    + intros H x y Hx Hy Hxy. specialize (H [x; y] (valid_two_intro _ _ _ Hx Hy)).
      rewrite cell_or, cell_not, cell_polymer in H by (wf_tac2; try side_tac; rewrite Ha; side_tac).
      simpl in H. rewrite Hxy in H. exact H.
    + intros H z Hz. destruct (valid_two _ _ Hz) as (x & y & -> & Hx & Hy).
      rewrite cell_or, cell_not, cell_polymer by (wf_tac2; try side_tac; rewrite Ha; side_tac).
      simpl. destruct (cell r [x; y]) eqn:E; [|reflexivity]. simpl. apply H; auto.
Qed.

Lemma symmetric_spec_witness :
  wf (mkRelation 2 2 [true; true; true; false]) /\
  (arity (mkRelation 2 2 [true; true; true; false]) <> 2 ->
     symmetric (mkRelation 2 2 [true; true; true; false]) = Raise AssertionError) /\
  (arity (mkRelation 2 2 [true; true; true; false]) = 2 ->
   exists b, symmetric (mkRelation 2 2 [true; true; true; false]) = Ok [b] /\
     (b = true <-> forall x y, x < size (mkRelation 2 2 [true; true; true; false]) ->
        y < size (mkRelation 2 2 [true; true; true; false]) ->
        cell (mkRelation 2 2 [true; true; true; false]) [x; y] = true ->
        cell (mkRelation 2 2 [true; true; true; false]) [y; x] = true)).
Proof.
  split; [apply wfb_sound; reflexivity|].
  apply symmetric_spec. apply wfb_sound; reflexivity.
Defined.

(** X3: [Relation.antisymm] fails its assertion unless the relation is
    binary; on a binary relation it returns a one-element BitVec that is
    true exactly when [R(x, y)] and [R(y, x)] imply [x = y]. *)
Theorem antisymm_spec r : wf r ->
  (arity r <> 2 -> antisymm r = Raise AssertionError) /\
  (arity r = 2 -> exists b, antisymm r = Ok [b] /\
     (b = true <-> forall x y, x < size r -> y < size r ->
                    cell r [x; y] = true -> cell r [y; x] = true -> x = y)).
Proof.
  intros Hr. pose proof Hr as [Hs _]. split.
  - intros Ha. unfold antisymm. apply Nat.eqb_neq in Ha. rewrite Ha. reflexivity.
  - intros Ha. destruct (new_diag_cell (size r) 2 Hs ltac:(lia)) as (D & HD & WD & SD & AD & CD).
    unfold antisymm, polymer_default. rewrite Ha. cbn [negb Nat.eqb length].
    change (list_max [1; 0] + 1) with 2. rewrite HD.
    eexists. split; [reflexivity|].
    rewrite lits_fold_all_table by (wf_tac2; congruence). autorewrite with shape. rewrite Ha.
    split.
    + intros H x y Hx Hy H1 H2. specialize (H [x; y] (valid_two_intro _ _ _ Hx Hy)).
      rewrite cell_or, cell_not, cell_and, cell_polymer in H
        by (wf_tac2; try side_tac; try congruence; rewrite Ha; side_tac).
      simpl in H. rewrite H1, H2 in H. simpl in H.
      apply CD in H as (c & Hc); [|apply valid_two_intro; auto].
      simpl in Hc. congruence.
    + intros H z Hz. destruct (valid_two _ _ Hz) as (x & y & -> & Hx & Hy).
      rewrite cell_or, cell_not, cell_and, cell_polymer
        by (wf_tac2; try side_tac; try congruence; rewrite Ha; side_tac).
      simpl. destruct (cell r [x; y]) eqn:E1, (cell r [y; x]) eqn:E2; try reflexivity.
      simpl. apply CD; [apply valid_two_intro; auto|]. exists x.
      rewrite (H x y Hx Hy E1 E2). reflexivity.
Qed.

Lemma antisymm_spec_witness :
  wf (mkRelation 2 2 [true; true; false; true]) /\
  (arity (mkRelation 2 2 [true; true; false; true]) <> 2 ->
     antisymm (mkRelation 2 2 [true; true; false; true]) = Raise AssertionError) /\
  (arity (mkRelation 2 2 [true; true; false; true]) = 2 ->
   exists b, antisymm (mkRelation 2 2 [true; true; false; true]) = Ok [b] /\
     (b = true <-> forall x y, x < size (mkRelation 2 2 [true; true; false; true]) ->
        y < size (mkRelation 2 2 [true; true; false; true]) ->
        cell (mkRelation 2 2 [true; true; false; true]) [x; y] = true ->
        cell (mkRelation 2 2 [true; true; false; true]) [y; x] = true -> x = y)).
Proof.
  split; [apply wfb_sound; reflexivity|].
  apply antisymm_spec. apply wfb_sound; reflexivity.
Defined.

(** X4: [Relation.compose(other)] fails its assertion unless both
    relations are binary; otherwise it returns the binary relation
    [{(x, y) | exists z, R(x, z) /\ R(z, y)}], the composition of [self]
    with itself: [other] is only checked for its arity. *)
Theorem rel_compose_spec r other : wf r ->
  (arity r <> 2 \/ arity other <> 2 -> rel_compose r other = Raise AssertionError) /\
  (arity r = 2 -> arity other = 2 ->
   exists c, rel_compose r other = Ok c /\ wf c /\ size c = size r /\ arity c = 2 /\
     forall x y, x < size r -> y < size r ->
       (cell c [x; y] = true <->
        exists z, z < size r /\ cell r [x; z] = true /\ cell r [z; y] = true)).
Proof.
  intros Hr. split.
  - intros Ha. unfold rel_compose.
    replace ((arity r =? arity other) && (arity other =? 2)) with false; [reflexivity|].
    symmetry. apply andb_false_iff.
    destruct (Nat.eq_dec (arity other) 2) as [E|E].
    + left. apply Nat.eqb_neq. lia.
    + right. apply Nat.eqb_neq. exact E.
  - intros Ha Ho. unfold rel_compose. rewrite Ha, Ho. cbn [Nat.eqb andb negb].
    eexists. split; [reflexivity|].
    destruct (compose_shape r Hr Ha) as (W & S & A).
    split; [exact W|split; [exact S|split; [exact A|]]].
    intros x y Hx Hy. apply compose_cell; auto.
Qed.

Lemma rel_compose_spec_witness :
  wf (mkRelation 2 2 [false; true; true; false]) /\
  ((arity (mkRelation 2 2 [false; true; true; false]) <> 2 \/
    arity (mkRelation 2 1 [true; true]) <> 2) ->
   rel_compose (mkRelation 2 2 [false; true; true; false]) (mkRelation 2 1 [true; true])
   = Raise AssertionError) /\
  (arity (mkRelation 2 2 [false; true; true; false]) = 2 ->
   arity (mkRelation 2 1 [true; true]) = 2 ->
   exists c, rel_compose (mkRelation 2 2 [false; true; true; false])
               (mkRelation 2 1 [true; true]) = Ok c /\
     wf c /\ size c = 2 /\ arity c = 2 /\
     forall x y, x < 2 -> y < 2 ->
       (cell c [x; y] = true <->
        exists z, z < 2 /\ cell (mkRelation 2 2 [false; true; true; false]) [x; z] = true /\
          cell (mkRelation 2 2 [false; true; true; false]) [z; y] = true)).
Proof.
  split; [apply wfb_sound; reflexivity|].
  apply (rel_compose_spec (mkRelation 2 2 [false; true; true; false]) (mkRelation 2 1 [true; true])).
  apply wfb_sound; reflexivity.
Defined.

(** X5: [Relation.transitive] fails its assertion unless the relation is
    binary; on a binary relation it returns a one-element BitVec that is
    true exactly when [R(x, z)] and [R(z, y)] imply [R(x, y)]. *)
Theorem transitive_spec r : wf r ->
  (arity r <> 2 -> transitive r = Raise AssertionError) /\
  (arity r = 2 -> exists b, transitive r = Ok [b] /\
     (b = true <-> forall x y z, x < size r -> y < size r -> z < size r ->
        cell r [x; z] = true -> cell r [z; y] = true -> cell r [x; y] = true)).
Proof.
  intros Hr. split.
  - intros Ha. unfold transitive. apply Nat.eqb_neq in Ha. rewrite Ha. reflexivity.
  - intros Ha. unfold transitive, rel_compose. rewrite Ha. cbn [Nat.eqb andb negb].
    destruct (compose_shape r Hr Ha) as (W & S & A).
    set (C := fold_any (rel_and (polymer r [1; 0] 3) (polymer r [0; 2] 3)) 1) in *.
    eexists. split; [reflexivity|].
    rewrite lits_fold_all_table by (wf_tac2; congruence). autorewrite with shape. rewrite S, A.
    split.
    + intros H x y z Hx Hy Hz H1 H2. specialize (H [x; y] (valid_two_intro _ _ _ Hx Hy)).
      rewrite cell_or, cell_not in H by (wf_tac2; try congruence; rewrite S, A;
        apply valid_two_intro; auto).
      replace (cell C [x; y]) with true in H; [exact H|].
      symmetry. apply compose_cell; eauto.
    + intros H w Hw. destruct (valid_two _ _ Hw) as (x & y & -> & Hx & Hy).
      rewrite cell_or, cell_not by (wf_tac2; try congruence; rewrite S, A;
        apply valid_two_intro; auto).
      destruct (cell C [x; y]) eqn:E; [|reflexivity]. simpl.
      apply compose_cell in E as (z & Hz & H1 & H2); auto. eapply H; eauto.
Qed.

Lemma transitive_spec_witness :
  wf (mkRelation 2 2 [true; false; true; true]) /\
  (arity (mkRelation 2 2 [true; false; true; true]) <> 2 ->
     transitive (mkRelation 2 2 [true; false; true; true]) = Raise AssertionError) /\
  (arity (mkRelation 2 2 [true; false; true; true]) = 2 ->
   exists b, transitive (mkRelation 2 2 [true; false; true; true]) = Ok [b] /\
     (b = true <-> forall x y z, x < 2 -> y < 2 -> z < 2 ->
        cell (mkRelation 2 2 [true; false; true; true]) [x; z] = true ->
        cell (mkRelation 2 2 [true; false; true; true]) [z; y] = true ->
        cell (mkRelation 2 2 [true; false; true; true]) [x; y] = true)).
Proof.
  split; [apply wfb_sound; reflexivity|].
  apply (transitive_spec (mkRelation 2 2 [true; false; true; true])).
  apply wfb_sound; reflexivity.
Defined.

(** X6: [Relation.preserves(f)] raises [AssertionError] when the relation
    has arity 0 (through [closure] and [evaluate]) and [NotImplementedError]
    when the relation and [f] both have arity at least 3; otherwise it returns a
    one-element BitVec that is true exactly when every tuple obtained by
    applying [f] coordinatewise to [op_arity f] tuples of [R] is in [R]. *)
Theorem preserves_spec R f : wf R -> op_size f = size R ->
  length (op_table f) = size R ^ S (op_arity f) ->
  (arity R = 0 -> preserves R f = Raise AssertionError) /\
  (3 <= arity R /\ 3 <= op_arity f -> preserves R f = Raise NotImplementedError) /\
  (1 <= arity R -> ~ (3 <= arity R /\ 3 <= op_arity f) ->
   exists b, preserves R f = Ok [b] /\
     (b = true <-> forall y, valid (size R) (arity R) y ->
        image R (repeat (as_relation f) (arity R)) (S (op_arity f)) y -> cell R y = true)).
Proof.
  intros HR Hs Hl. split; [|split].
  - intros H0. unfold preserves, closure. rewrite H0. reflexivity.
  - intros [Hk Hn].
    destruct (evaluate_cases R _ _ (closure_ops_ok R f HR Hs Hl) ltac:(lia) ltac:(lia))
      as [H1 _].
    unfold preserves, closure. rewrite H1 by lia. reflexivity.
  - intros Hk Hn.
    destruct (evaluate_cases R _ _ (closure_ops_ok R f HR Hs Hl) Hk ltac:(lia)) as [_ H2].
    destruct (H2 ltac:(lia)) as (E & HE & WE & SE & AE & CE).
    unfold preserves, closure. rewrite HE.
    eexists. split; [reflexivity|].
    rewrite lits_fold_all_table by (wf_tac2; congruence). autorewrite with shape.
    rewrite SE, AE. split.
    + intros H y Hy Him. specialize (H y Hy).
      rewrite cell_or, cell_not in H by (wf_tac2; try congruence; rewrite SE, AE; exact Hy).
      rewrite (proj2 (CE y Hy) Him) in H. exact H.
    + intros H y Hy. rewrite cell_or, cell_not by (wf_tac2; try congruence; rewrite SE, AE; exact Hy).
      destruct (cell E y) eqn:Ey; [|reflexivity]. simpl. apply H; auto. apply CE; auto.
Qed.

Lemma preserves_spec_witness :
  wf (mkRelation 2 1 [true; false]) /\
  (arity (mkRelation 2 1 [true; false]) = 0 ->
   preserves (mkRelation 2 1 [true; false]) (mkOperation 2 1 [false; true; true; false])
   = Raise AssertionError) /\
  (3 <= arity (mkRelation 2 1 [true; false]) /\ 3 <= op_arity (mkOperation 2 1 [false; true; true; false]) ->
   preserves (mkRelation 2 1 [true; false]) (mkOperation 2 1 [false; true; true; false])
   = Raise NotImplementedError) /\
  (1 <= arity (mkRelation 2 1 [true; false]) ->
   ~ (3 <= arity (mkRelation 2 1 [true; false]) /\
      3 <= op_arity (mkOperation 2 1 [false; true; true; false])) ->
   exists b, preserves (mkRelation 2 1 [true; false]) (mkOperation 2 1 [false; true; true; false])
             = Ok [b] /\
     (b = true <-> forall y, valid 2 1 y ->
        image (mkRelation 2 1 [true; false])
          (repeat (as_relation (mkOperation 2 1 [false; true; true; false])) 1) 2 y ->
        cell (mkRelation 2 1 [true; false]) y = true)).
Proof.
  split; [apply wfb_sound; reflexivity|].
  apply (preserves_spec (mkRelation 2 1 [true; false]) (mkOperation 2 1 [false; true; true; false])).
  - apply wfb_sound; reflexivity.
  - reflexivity.
  - reflexivity.
Defined.

(** ** Reindexing: polymer, swap, rotate, insert, product *)

Lemma valid_map_nth s n x nv : valid s n x -> Forall (fun v => v < n) nv ->
  valid s (length nv) (map (fun v => nth v x 0) nv).
Proof.
  intros Hx Hf. split; [apply length_map|]. apply Forall_forall. intros w Hw.
  apply in_map_iff in Hw as (v & <- & Hv). rewrite Forall_forall in Hf.
  apply (valid_nth _ n); auto.
Qed.

Lemma nth_map_nth (x nv : list nat) v : v < length nv ->
  nth v (map (fun u => nth u x 0) nv) 0 = nth (nth v nv 0) x 0.
Proof.
  intros Hv. rewrite (nth_indep (map (fun u => nth u x 0) nv) 0 ((fun u => nth u x 0) 0))
    by (rewrite length_map; auto).
  exact (map_nth (fun u => nth u x 0) nv 0 v).
Qed.

(** X7: two calls of [polymer] compose: renaming by [new_vars] and then
    by [new_vars'] is the single renaming [v |-> new_vars'[v]]. *)
Theorem polymer_polymer r nv n nv' n' : wf r -> length nv = arity r ->
  Forall (fun v => v < n) nv -> length nv' = n -> Forall (fun v => v < n') nv' ->
  polymer (polymer r nv n) nv' n' = polymer r (map (fun v => nth v nv' 0) nv) n'.
Proof.
  intros Hr Hl Hf Hl' Hf'. pose proof Hr as [Hs _].
  assert (Hf2 : Forall (fun v => v < n') (map (fun v => nth v nv' 0) nv)).
  { apply Forall_forall. intros w Hw. apply in_map_iff in Hw as (v & <- & Hv).
    rewrite Forall_forall in Hf, Hf'. apply Hf', nth_In. rewrite Hl'. apply Hf, Hv. }
  apply table_ext; wf_tac2.
  intros x Hx. autorewrite with shape in Hx.
  rewrite (cell_polymer (polymer r nv n)) by wf_tac2.
  rewrite cell_polymer by (auto; rewrite <- Hl'; apply valid_map_nth with (n := n'); auto).
  rewrite cell_polymer by auto.
  f_equal. rewrite map_map. apply map_ext_in. intros v Hv.
  apply nth_map_nth. rewrite Forall_forall in Hf. rewrite Hl'. apply Hf, Hv.
Qed.

Lemma polymer_polymer_witness :
  wf (mkRelation 2 2 [true; false; false; false]) /\
  length [1; 0] = 2 /\ Forall (fun v => v < 2) [1; 0] /\ length [2; 0] = 2 /\
  Forall (fun v => v < 3) [2; 0] /\
  polymer (polymer (mkRelation 2 2 [true; false; false; false]) [1; 0] 2) [2; 0] 3 =
  polymer (mkRelation 2 2 [true; false; false; false]) (map (fun v => nth v [2; 0] 0) [1; 0]) 3.
Proof.
  split; [apply wfb_sound; reflexivity|].
  split; [reflexivity|]. split; [repeat constructor; lia|].
  split; [reflexivity|]. split; [repeat constructor; lia|].
  apply polymer_polymer.
  - apply wfb_sound; reflexivity.
  - reflexivity.
  - repeat constructor; lia.
  - reflexivity.
  - repeat constructor; lia.
Defined.

Lemma list_set_nth_self (l : list nat) i : list_set l i (nth i l 0) = l.
Proof.
  revert i; induction l as [|x l IH]; intros [|i]; simpl; auto. rewrite IH. reflexivity.
Qed.

Ltac eqb_cases :=
  repeat match goal with |- context [?a =? ?b] => destruct (Nat.eqb_spec a b) end.

Lemma swap_map a i j x : i < a -> j < a -> length x = a ->
  map (fun v => nth v x 0) (list_set (list_set (seq 0 a) i j) j i) =
  list_set (list_set x i (nth j x 0)) j (nth i x 0).
Proof.
  intros Hi Hj Hx. apply nth_ext with (d := 0) (d' := 0).
  - rewrite length_map, !length_list_set, length_seq, Hx. reflexivity.
  - intros k Hk. rewrite length_map, !length_list_set, length_seq in Hk.
    rewrite nth_map_nth by (rewrite !length_list_set, length_seq; lia).
    rewrite !nth_list_set by (rewrite ?length_list_set, ?length_seq; lia).
    rewrite seq_nth by lia. eqb_cases; subst; first [reflexivity | lia].
Qed.

Lemma swap_lt a i j : i < a -> j < a ->
  Forall (fun v => v < a) (list_set (list_set (seq 0 a) i j) j i).
Proof.
  intros Hi Hj. apply Forall_forall. intros v Hv.
  apply (In_nth _ _ 0) in Hv as (k & Hk & <-). rewrite !length_list_set, length_seq in Hk.
  rewrite !nth_list_set by (rewrite ?length_list_set, ?length_seq; lia).
  rewrite seq_nth by lia. eqb_cases; lia.
Qed.

Lemma swap_swap x i j : i < length x -> j < length x ->
  list_set (list_set (list_set (list_set x i (nth j x 0)) j (nth i x 0)) i
    (nth j (list_set (list_set x i (nth j x 0)) j (nth i x 0)) 0)) j
    (nth i (list_set (list_set x i (nth j x 0)) j (nth i x 0)) 0) = x.
Proof.
  intros Hi Hj. apply nth_ext with (d := 0) (d' := 0); [rewrite !length_list_set; reflexivity|].
  intros k Hk. rewrite !length_list_set in Hk.
  rewrite !nth_list_set by (rewrite ?length_list_set; lia).
  eqb_cases; subst; first [reflexivity | lia].
Qed.

Lemma valid_swap s n x i j : valid s n x -> i < n -> j < n ->
  valid s n (list_set (list_set x i (nth j x 0)) j (nth i x 0)).
Proof.
  intros Hx Hi Hj. pose proof (valid_length _ _ _ Hx) as Hl.
  rewrite <- (swap_map n i j x) by auto.
  pose proof (valid_map_nth s n x _ Hx (swap_lt n i j Hi Hj)) as H.
  rewrite !length_list_set, length_seq in H. exact H.
Qed.

(** X8: [Relation.polymer_swap(var0, var1)] fails its assertion unless
    both variables are below the arity; otherwise its cell at [x] is the
    cell of the relation at [x] with coordinates [var0] and [var1]
    exchanged, and swapping the same two variables again gives back the
    original relation. *)
Theorem polymer_swap_spec r i j : wf r ->
  (~ (i < arity r /\ j < arity r) -> polymer_swap r i j = Raise AssertionError) /\
  (i < arity r -> j < arity r ->
   exists r', polymer_swap r i j = Ok r' /\ wf r' /\ size r' = size r /\ arity r' = arity r /\
     (forall x, valid (size r) (arity r) x ->
        cell r' x = cell r (list_set (list_set x i (nth j x 0)) j (nth i x 0))) /\
     polymer_swap r' i j = Ok r).
Proof.
  intros Hr. pose proof Hr as [Hs _]. split.
  - intros Hn. unfold polymer_swap.
    replace ((i <? arity r) && (j <? arity r)) with false; [reflexivity|].
    symmetry. apply andb_false_iff.
    destruct (Nat.ltb_spec i (arity r)); [right; apply Nat.ltb_ge; lia|left; reflexivity].
  - intros Hi Hj. unfold polymer_swap.
    replace ((i <? arity r) && (j <? arity r)) with true
      by (symmetry; apply andb_true_iff; split; apply Nat.ltb_lt; auto).
    cbn [negb]. destruct (Nat.eqb_spec i j) as [<-|Hij].
    + eexists. split; [reflexivity|]. split; [exact Hr|split; [reflexivity|split; [reflexivity|]]].
      split.
      * intros x _. rewrite !list_set_nth_self. reflexivity.
      * replace ((i <? arity r) && (i <? arity r)) with true
          by (symmetry; apply andb_true_iff; split; apply Nat.ltb_lt; auto).
        reflexivity.
    + set (NV := list_set (list_set (seq 0 (arity r)) i j) j i).
      assert (HNV : Forall (fun v => v < arity r) NV) by (apply swap_lt; auto).
      assert (Hc : forall x, valid (size r) (arity r) x ->
        cell (polymer r NV (arity r)) x = cell r (list_set (list_set x i (nth j x 0)) j (nth i x 0))).
      { intros x Hx. rewrite cell_polymer by auto. unfold NV. rewrite swap_map; auto.
        apply (valid_length _ _ _ Hx). }
      eexists. split; [reflexivity|]. split; [wf_tac2|split; [wf_tac2|split; [wf_tac2|]]].
      split; [exact Hc|].
      autorewrite with shape.
      replace ((i <? arity r) && (j <? arity r)) with true
        by (symmetry; apply andb_true_iff; split; apply Nat.ltb_lt; auto).
      cbn [negb]. replace (i =? j) with false by (symmetry; apply Nat.eqb_neq; auto).
      f_equal. apply table_ext; wf_tac2. intros x Hx. autorewrite with shape in Hx.
      rewrite cell_polymer by wf_tac2.
      assert (E : map (fun v => nth v x 0) NV =
                  list_set (list_set x i (nth j x 0)) j (nth i x 0))
        by (apply swap_map; auto; apply (valid_length _ _ _ Hx)).
      fold NV. rewrite E.
      rewrite Hc by (apply valid_swap; auto).
      rewrite swap_swap by (rewrite (valid_length _ _ _ Hx); auto). reflexivity.
Qed.

Lemma polymer_swap_spec_witness :
  wf (mkRelation 2 2 [true; true; false; false]) /\
  (~ (0 < 2 /\ 1 < 2) ->
   polymer_swap (mkRelation 2 2 [true; true; false; false]) 0 1 = Raise AssertionError) /\
  (0 < 2 -> 1 < 2 ->
   exists r', polymer_swap (mkRelation 2 2 [true; true; false; false]) 0 1 = Ok r' /\
     wf r' /\ size r' = 2 /\ arity r' = 2 /\
     (forall x, valid 2 2 x ->
        cell r' x = cell (mkRelation 2 2 [true; true; false; false])
                      (list_set (list_set x 0 (nth 1 x 0)) 1 (nth 0 x 0))) /\
     polymer_swap r' 0 1 = Ok (mkRelation 2 2 [true; true; false; false])).
Proof.
  split; [apply wfb_sound; reflexivity|].
  apply (polymer_swap_spec (mkRelation 2 2 [true; true; false; false]) 0 1).
  apply wfb_sound; reflexivity.
Defined.

Lemma rot_lt (a : nat) (off : Z) i : 1 <= a ->
  Z.to_nat ((Z.of_nat i + off) mod Z.of_nat a) < a.
Proof.
  intros Ha. pose proof (Z.mod_pos_bound (Z.of_nat i + off) (Z.of_nat a) ltac:(lia)). lia.
Qed.

(** The cell of [polymer_rotate r off] at [x] is the cell of [r] at the
    tuple whose coordinate [i] is [x[(i + off) % arity]]. *)
Lemma cell_rotate_gen r off x : wf r -> 1 <= arity r -> valid (size r) (arity r) x ->
  cell (polymer_rotate r off) x =
  cell r (map (fun i => nth (Z.to_nat ((Z.of_nat i + off) mod Z.of_nat (arity r))) x 0)
            (seq 0 (arity r))).
Proof.
  intros Hr Ha Hx. pose proof Hr as [Hs _]. unfold polymer_rotate.
  destruct (Z.eqb_spec (off mod Z.of_nat (arity r)) 0) as [E|E].
  - f_equal. rewrite <- (map_nth_seq_self x) at 1. rewrite (valid_length _ _ _ Hx).
    apply map_ext_in. intros i Hi. apply in_seq in Hi. f_equal.
    rewrite <- Z.add_mod_idemp_r, E, Z.add_0_r, Z.mod_small by lia. lia.
  - rewrite cell_polymer by (auto; apply Forall_forall; intros v Hv;
      apply in_map_iff in Hv as (i & <- & _); apply rot_lt; auto).
    rewrite map_map. reflexivity.
Qed.

Lemma valid_rot s a off x : 1 <= a -> valid s a x ->
  valid s a (map (fun i => nth (Z.to_nat ((Z.of_nat i + off) mod Z.of_nat a)) x 0) (seq 0 a)).
Proof.
  intros Ha Hx. split; [rewrite length_map, length_seq; reflexivity|].
  apply Forall_forall. intros w Hw. apply in_map_iff in Hw as (i & <- & _).
  apply (valid_nth _ a); auto. apply rot_lt; auto.
Qed.

(** X9: two calls of [Relation.polymer_rotate] compose: rotating by
    [a] and then by [b] is rotating by [a + b], for a relation of
    positive arity. *)
Theorem polymer_rotate_rotate r a b : wf r -> 1 <= arity r ->
  polymer_rotate (polymer_rotate r a) b = polymer_rotate r (a + b).
Proof.
  intros Hr Ha. apply table_ext; wf_tac.
  intros x Hx. autorewrite with shape in Hx.
  rewrite (cell_rotate_gen (polymer_rotate r a)) by (wf_tac; auto).
  rewrite rotate_arity.
  rewrite cell_rotate_gen by (auto; apply valid_rot; auto).
  rewrite cell_rotate_gen by auto.
  f_equal. apply map_ext_in. intros i Hi. apply in_seq in Hi.
  rewrite nth_map_seq by (apply rot_lt; auto). f_equal.
  pose proof (Z.mod_pos_bound (Z.of_nat i + a) (Z.of_nat (arity r)) ltac:(lia)).
  rewrite Z2Nat.id by lia. rewrite Z.add_mod_idemp_l by lia. f_equal. f_equal. lia.
Qed.

Lemma polymer_rotate_rotate_witness :
  wf (mkRelation 2 3 [true; false; true; true; false; false; false; true]) /\
  1 <= arity (mkRelation 2 3 [true; false; true; true; false; false; false; true]) /\
  polymer_rotate (polymer_rotate (mkRelation 2 3 [true; false; true; true; false; false; false; true])
                    1%Z) (-5)%Z =
  polymer_rotate (mkRelation 2 3 [true; false; true; true; false; false; false; true]) (1 + -5)%Z.
Proof.
  split; [apply wfb_sound; reflexivity|]. split; [simpl; lia|].
  apply polymer_rotate_rotate; [apply wfb_sound; reflexivity|simpl; lia].
Defined.

Lemma split_at (x : list nat) k : k < length x ->
  x = firstn k x ++ nth k x 0 :: skipn (S k) x.
Proof.
  revert x; induction k as [|k IH]; intros [|y x] Hk; simpl in *; try lia; auto.
  f_equal. apply IH. lia.
Qed.

(** X10: [Relation.polymer_insert(var)], for [var <= arity], gives a
    relation of arity one more whose cell at [x] ignores coordinate
    [var]: it is the cell of the relation at [x] with that coordinate
    removed. *)
Theorem polymer_insert_spec r var x : wf r -> var <= arity r ->
  valid (size r) (S (arity r)) x ->
  wf (polymer_insert r var) /\ size (polymer_insert r var) = size r /\
  arity (polymer_insert r var) = S (arity r) /\
  cell (polymer_insert r var) x = cell r (firstn var x ++ skipn (S var) x).
Proof.
  intros Hr Hv Hx. split; [wf_tac|split; [wf_tac|split; [wf_tac|]]].
  pose proof (valid_length _ _ _ Hx) as Hl.
  assert (Hf : length (firstn var x) = var) by (rewrite length_firstn; lia).
  pose proof (cell_insert r (firstn var x) (nth var x 0) (skipn (S var) x) Hr) as H.
  rewrite <- (split_at x var) in H by lia. rewrite Hf in H. exact (H Hx).
Qed.

Lemma polymer_insert_spec_witness :
  wf (mkRelation 2 2 [true; false; true; true]) /\ 1 <= 2 /\ valid 2 3 [1; 0; 1] /\
  wf (polymer_insert (mkRelation 2 2 [true; false; true; true]) 1) /\
  size (polymer_insert (mkRelation 2 2 [true; false; true; true]) 1) = 2 /\
  arity (polymer_insert (mkRelation 2 2 [true; false; true; true]) 1) = 3 /\
  cell (polymer_insert (mkRelation 2 2 [true; false; true; true]) 1) [1; 0; 1] =
  cell (mkRelation 2 2 [true; false; true; true]) (firstn 1 [1; 0; 1] ++ skipn 2 [1; 0; 1]).
Proof.
  split; [apply wfb_sound; reflexivity|]. split; [lia|]. split; [valid_tac|].
  apply (polymer_insert_spec (mkRelation 2 2 [true; false; true; true]) 1 [1; 0; 1]).
  - apply wfb_sound; reflexivity.
  - simpl; lia.
  - cbn [arity size]; valid_tac.
Defined.

(** X11: [Relation.product(other)] of relations over one universe is the
    relation of arity [arity a + arity b] whose cell at [x] is the cell
    of [a] at the first [arity a] coordinates of [x] and of [b] at the
    others. *)
Theorem product_spec a b : wf a -> wf b -> size a = size b ->
  wf (product a b) /\ size (product a b) = size a /\
  arity (product a b) = arity a + arity b /\
  forall x, valid (size a) (arity a + arity b) x ->
    cell (product a b) x = cell a (firstn (arity a) x) && cell b (skipn (arity a) x).
Proof.
  intros Ha Hb Hs. destruct (product_wf a b Ha Hb Hs) as (W & S & A).
  split; [exact W|split; [exact S|split; [exact A|]]].
  intros x Hx. destruct (valid_app_inv _ _ _ _ Hx) as [Hu Hv].
  rewrite <- (firstn_skipn (arity a) x) at 1. apply cell_product; auto.
Qed.

Lemma product_spec_witness :
  wf (mkRelation 2 1 [false; true]) /\ wf (mkRelation 2 1 [true; false]) /\ 2 = 2 /\
  wf (product (mkRelation 2 1 [false; true]) (mkRelation 2 1 [true; false])) /\
  size (product (mkRelation 2 1 [false; true]) (mkRelation 2 1 [true; false])) = 2 /\
  arity (product (mkRelation 2 1 [false; true]) (mkRelation 2 1 [true; false])) = 2 /\
  forall x, valid 2 2 x ->
    cell (product (mkRelation 2 1 [false; true]) (mkRelation 2 1 [true; false])) x =
    cell (mkRelation 2 1 [false; true]) (firstn 1 x) &&
    cell (mkRelation 2 1 [true; false]) (skipn 1 x).
Proof.
  split; [apply wfb_sound; reflexivity|]. split; [apply wfb_sound; reflexivity|].
  split; [reflexivity|].
  apply (product_spec (mkRelation 2 1 [false; true]) (mkRelation 2 1 [true; false]));
    [apply wfb_sound; reflexivity|apply wfb_sound; reflexivity|reflexivity].
Defined.

(** ** new_singleton and the folds *)

Lemma fold_rev_encode s l p0 :
  fold_left (fun pos c => pos * s + c) (rev l) p0 = p0 * s ^ length l + encode s l.
Proof.
  revert p0; induction l as [|c l IH]; intros p0; simpl; [lia|].
  rewrite fold_left_app, IH. simpl. ring.
Qed.

(** X12: [Relation.new_singleton(size, coord)] for a tuple [coord] over
    the universe is the relation of arity [len(coord)] that holds at
    [coord] and nowhere else. *)
Theorem new_singleton_spec s coord : 1 <= s -> valid s (length coord) coord ->
  wf (new_singleton s coord) /\ size (new_singleton s coord) = s /\
  arity (new_singleton s coord) = length coord /\
  forall x, valid s (length coord) x -> (cell (new_singleton s coord) x = true <-> x = coord).
Proof.
  intros Hs Hc. unfold new_singleton. rewrite fold_rev_encode, Nat.mul_0_l, Nat.add_0_l.
  pose proof (encode_lt _ _ _ Hc) as Hlt.
  split; [split; simpl; [auto|rewrite length_list_set, repeat_length; reflexivity]|].
  split; [reflexivity|split; [reflexivity|]].
  intros x Hx. unfold cell; cbn [size table].
  rewrite nth_list_set by (rewrite repeat_length; auto). rewrite nth_repeat.
  destruct (Nat.eqb_spec (encode s x) (encode s coord)) as [E|E]; split; intros H; auto.
  - rewrite <- (digits_encode _ _ _ Hx), E. apply digits_encode, Hc.
  - discriminate.
  - subst x. contradiction.
Qed.

Lemma new_singleton_spec_witness :
  1 <= 3 /\ valid 3 2 [2; 1] /\
  wf (new_singleton 3 [2; 1]) /\ size (new_singleton 3 [2; 1]) = 3 /\
  arity (new_singleton 3 [2; 1]) = 2 /\
  forall x, valid 3 2 x -> (cell (new_singleton 3 [2; 1]) x = true <-> x = [2; 1]).
Proof.
  split; [lia|]. split; [valid_tac|].
  apply (new_singleton_spec 3 [2; 1]); [lia|cbn [length]; valid_tac].
Defined.

Lemma slice_map_negb (l : list bool) a b : slice (map negb l) a b = map negb (slice l a b).
Proof. unfold slice. rewrite skipn_map, firstn_map. reflexivity. Qed.

Lemma lits_fold_all_any (l : list bool) : lits_fold_all l = negb (lits_fold_any (map negb l)).
Proof.
  unfold lits_fold_all, lits_fold_any.
  induction l as [|b l IH]; [reflexivity|]. simpl. rewrite IH. destruct b; reflexivity.
Qed.

(** X13: [fold_all(count)] is the complement of [fold_any(count)] of the
    complement: [T.fold_all(c) == ~((~T).fold_any(c))] for every relation
    and count. *)
Theorem fold_all_not_any T c : fold_all T c = rel_not (fold_any (rel_not T) c).
Proof.
  unfold fold_all, fold_any, fold_with, rel_not, bv_not. cbn [size arity table].
  rewrite length_map, map_map. f_equal. apply map_ext. intros idx.
  rewrite slice_map_negb, lits_fold_all_any. reflexivity.
Qed.

(** ** Tables of operations and partial operations *)

Lemma first_true_unique tbl st sz g : g < sz ->
  (forall i, i < sz -> nth (st + i) tbl false = true <-> i = g) ->
  first_true tbl st (seq 0 sz) = Some g.
Proof.
  intros Hg H. case_eq (first_true tbl st (seq 0 sz)).
  - intros j Hj. destruct (first_true_some _ _ _ _ Hj) as [Hin Ht].
    apply in_seq in Hin. f_equal. apply H; auto. lia.
  - intros Hn. pose proof (proj2 (H g Hg) eq_refl) as Ht.
    rewrite (first_true_none _ _ _ Hn g) in Ht by (apply in_seq; lia). discriminate.
Qed.

Lemma first_true_absent tbl st l :
  (forall i, In i l -> nth (st + i) tbl false = false) -> first_true tbl st l = None.
Proof.
  induction l as [|a l IH]; intros H; simpl; auto.
  rewrite H by (left; auto). apply IH. intros i Hi; apply H; right; auto.
Qed.

Lemma first_true_is_some tbl st l :
  first_true tbl st l <> None <-> exists i, In i l /\ nth (st + i) tbl false = true.
Proof.
  split.
  - intros H. destruct (first_true tbl st l) as [i|] eqn:E; [|congruence].
    exists i. apply first_true_some; auto.
  - intros (i & Hi & Ht) Hn. rewrite (first_true_none _ _ _ Hn i Hi) in Ht. discriminate.
Qed.

Lemma flat_map_single (f : nat -> list nat) (g : nat -> nat) l :
  (forall x, In x l -> f x = [g x]) -> flat_map f l = map g l.
Proof.
  induction l as [|a l IH]; intros H; simpl; auto.
  rewrite H by (left; auto). simpl. f_equal. apply IH. intros x Hx; apply H; right; auto.
Qed.

Lemma map_nth_seq_gen {A} (l : list A) d : map (fun i => nth i l d) (seq 0 (length l)) = l.
Proof.
  apply nth_ext with (d := d) (d' := d); [rewrite length_map, length_seq; reflexivity|].
  intros i Hi. rewrite length_map, length_seq in Hi.
  rewrite (nth_map_seq0 (fun j => nth j l d)) by exact Hi. reflexivity.
Qed.

(** An operation whose block [b] is true exactly at [g b] satisfies the
    functionality invariant and decodes to the values [g b]. *)
Lemma blocks_decode o g : 1 <= op_size o ->
  length (op_table o) = op_size o ^ (op_arity o + 1) ->
  (forall b, b < op_size o ^ op_arity o -> g b < op_size o /\
     forall i, i < op_size o ->
       (nth (b * op_size o + i) (op_table o) false = true <-> i = g b)) ->
  functional o /\ Operation_decode o = map g (seq 0 (op_size o ^ op_arity o)).
Proof.
  intros Hs Hl H. split.
  - split; [exact Hl|]. intros b Hb. destruct (H b Hb) as [Hg Hi].
    rewrite slice_blocks by (rewrite Hl, Nat.pow_add_r, Nat.pow_1_r; nia).
    apply count_true_one; [apply seq_NoDup|].
    exists (g b). split; [apply in_seq; lia|split; [apply Hi; auto|]].
    intros j Hj Ht. apply in_seq in Hj. apply Hi; auto. lia.
  - rewrite decode_blocks by auto. apply flat_map_single.
    intros b Hb. apply in_seq in Hb. destruct (H b ltac:(lia)) as [Hg Hi].
    rewrite (first_true_unique _ _ _ (g b) Hg Hi). reflexivity.
Qed.

Lemma block_inj s b i b' i' : i < s -> i' < s -> b * s + i = b' * s + i' -> b = b' /\ i = i'.
Proof.
  intros Hi Hi' E. assert (b = b') by (destruct (Nat.lt_trichotomy b b') as [H|[H|H]]; nia).
  subst. lia.
Qed.

Lemma combine_seq {A} (l : list A) d m :
  combine (seq m (length l)) l = map (fun b => (b, nth (b - m) l d)) (seq m (length l)).
Proof.
  revert m; induction l as [|v l IH]; intros m; [reflexivity|].
  simpl. rewrite Nat.sub_diag. f_equal. rewrite IH. apply map_ext_in.
  intros b Hb. apply in_seq in Hb. replace (b - m) with (S (b - S m)) by lia. reflexivity.
Qed.

(** The indices the list constructors set: [idx * size + val] for the
    blocks [idx] with a value [val]. *)
Lemma existsb_blocks s N (g : nat -> option nat) b i : b < N -> i < s ->
  (forall b' v, b' < N -> g b' = Some v -> v < s) ->
  existsb (Nat.eqb (b * s + i))
    (flat_map (fun b' => match g b' with None => [] | Some v => [b' * s + v] end) (seq 0 N))
  = true <-> g b = Some i.
Proof.
  intros Hb Hi Hg. rewrite existsb_exists. split.
  - intros (x & Hx & E). apply Nat.eqb_eq in E. apply in_flat_map in Hx as (b' & Hb' & Hx).
    apply in_seq in Hb'. destruct (g b') as [v|] eqn:Gv; [|destruct Hx].
    destruct Hx as [<-|[]]. pose proof (Hg b' v ltac:(lia) Gv).
    destruct (block_inj s b i b' v Hi ltac:(lia) E) as [-> ->]. exact Gv.
  - intros Gb. exists (b * s + i). split; [|apply Nat.eqb_refl].
    apply in_flat_map. exists b. split; [apply in_seq; lia|]. rewrite Gb. left; reflexivity.
Qed.

Lemma blocks_in_range s N (g : nat -> option nat) len : N * s <= len ->
  (forall b' v, b' < N -> g b' = Some v -> v < s) ->
  Forall (fun j => j < len)
    (flat_map (fun b' => match g b' with None => [] | Some v => [b' * s + v] end) (seq 0 N)).
Proof.
  intros Hl Hg. apply Forall_forall. intros x Hx. apply in_flat_map in Hx as (b' & Hb' & Hx).
  apply in_seq in Hb'. destruct (g b') as [v|] eqn:Gv; [|destruct Hx].
  destruct Hx as [<-|[]]. pose proof (Hg b' v ltac:(lia) Gv). nia.
Qed.

Lemma fold_pairs_total s (h : nat -> nat) l t :
  fold_left (fun t '(idx, val) => list_set t (idx * s + val) true) (map (fun b => (b, h b)) l) t =
  fold_left (fun t idx => list_set t idx true)
    (flat_map (fun b' => match Some (h b') with None => [] | Some v => [b' * s + v] end) l) t.
Proof. revert t; induction l as [|a l IH]; intros t; simpl; auto. Qed.

Lemma fold_pairs_partial s (h : nat -> option nat) l t :
  fold_left (fun t '(idx, val) =>
               match val with None => t | Some v => list_set t (idx * s + v) true end)
    (map (fun b => (b, h b)) l) t =
  fold_left (fun t idx => list_set t idx true)
    (flat_map (fun b' => match h b' with None => [] | Some v => [b' * s + v] end) l) t.
Proof. revert t; induction l as [|a l IH]; intros t; simpl; auto. destruct (h a); auto. Qed.

Lemma forallb_lt s (vals : list nat) : forallb (fun v => v <? s) vals = true <-> Forall (fun v => v < s) vals.
Proof.
  rewrite forallb_forall, Forall_forall. split; intros H v Hv; specialize (H v Hv);
    [apply Nat.ltb_lt|apply Nat.ltb_lt in H]; auto.
Qed.

Lemma pow_succ_div s a : 1 <= s -> s ^ (a + 1) / s = s ^ a.
Proof. intros Hs. rewrite Nat.pow_add_r, Nat.pow_1_r. apply Nat.div_mul. lia. Qed.

(** X14: [Operation(size, arity, values)] from a list raises
    [AssertionError] unless the list has [size^arity] entries, all below
    [size]; on such a list it builds an operation that satisfies the
    functionality invariant and that [decode] maps back to the list. *)
Theorem Operation_new_list_spec s a vals : 1 <= s ->
  (length vals <> s ^ a -> Operation_new_list s a vals = Raise AssertionError) /\
  (length vals = s ^ a -> ~ Forall (fun v => v < s) vals ->
     Operation_new_list s a vals = Raise AssertionError) /\
  (length vals = s ^ a -> Forall (fun v => v < s) vals ->
     exists o, Operation_new_list s a vals = Ok o /\ op_size o = s /\ op_arity o = a /\
       functional o /\ Operation_decode o = vals).
Proof.
  intros Hs. unfold Operation_new_list.
  replace (negb (1 <=? s)) with false by (symmetry; apply negb_false_iff, Nat.leb_le; lia).
  cbv zeta. rewrite pow_succ_div by auto.
  split; [|split].
  - intros Hl. apply Nat.eqb_neq in Hl. rewrite Hl. reflexivity.
  - intros Hl Hf. rewrite Hl, Nat.eqb_refl. cbn [negb].
    replace (forallb (fun v => v <? s) vals) with false; [reflexivity|].
    symmetry. apply not_true_iff_false. rewrite forallb_lt. exact Hf.
  - intros Hl Hf. rewrite (combine_seq vals 0 0), fold_pairs_total.
    rewrite Hl, Nat.eqb_refl, (proj2 (forallb_lt s vals) Hf). cbn [negb].
    eexists. split; [reflexivity|]. split; [reflexivity|split; [reflexivity|]].
    set (L := flat_map _ _).
    assert (Hg : forall b' v, b' < s ^ a -> Some (nth (b' - 0) vals 0) = Some v -> v < s).
    { intros b' v Hb' E. injection E as <-. rewrite Forall_forall in Hf. apply Hf, nth_In. lia. }
    assert (HL : Forall (fun j => j < length (repeat false (s ^ (a + 1)))) L).
    { apply (blocks_in_range s (s ^ a) (fun b' => Some (nth (b' - 0) vals 0))); auto.
      rewrite repeat_length, Nat.pow_add_r, Nat.pow_1_r. lia. }
    destruct (blocks_decode (mkOperation s a (fold_left (fun t idx => list_set t idx true) L
                                                (repeat false (s ^ (a + 1)))))
                (fun b => nth b vals 0)) as [F D]; cbn [op_size op_arity op_table].
    + exact Hs.
    + destruct (fold_list_set L (repeat false (s ^ (a + 1))) 0 HL) as [H _].
      rewrite H, repeat_length. reflexivity.
    + intros b Hb. split; [rewrite Forall_forall in Hf; apply Hf, nth_In; lia|].
      intros i Hi. destruct (fold_list_set L (repeat false (s ^ (a + 1))) (b * s + i) HL)
        as [_ ->].
      rewrite nth_repeat. cbn [orb]. unfold L.
      apply (iff_trans (existsb_blocks s (s ^ a) (fun b' => Some (nth (b' - 0) vals 0)) b i Hb Hi Hg)).
      rewrite Nat.sub_0_r. split; [intros E; injection E; auto|intros ->; reflexivity].
    + split; [exact F|]. rewrite D. cbn [op_size op_arity]. rewrite <- Hl.
      apply map_nth_seq_self.
Qed.

Lemma Operation_new_list_spec_witness :
  1 <= 3 /\
  (length [2; 0; 1] <> 3 ^ 1 -> Operation_new_list 3 1 [2; 0; 1] = Raise AssertionError) /\
  (length [2; 0; 1] = 3 ^ 1 -> ~ Forall (fun v => v < 3) [2; 0; 1] ->
     Operation_new_list 3 1 [2; 0; 1] = Raise AssertionError) /\
  (length [2; 0; 1] = 3 ^ 1 -> Forall (fun v => v < 3) [2; 0; 1] ->
     exists o, Operation_new_list 3 1 [2; 0; 1] = Ok o /\ op_size o = 3 /\ op_arity o = 1 /\
       functional o /\ Operation_decode o = [2; 0; 1]).
Proof. split; [lia|]. apply (Operation_new_list_spec 3 1 [2; 0; 1]). lia. Defined.

Lemma pdecode_blocks p : 1 <= pop_size p ->
  length (pop_table p) = pop_size p ^ (pop_arity p + 1) ->
  PartialOp_decode p =
  map (fun b => first_true (pop_table p) (b * pop_size p) (seq 0 (pop_size p)))
    (seq 0 (pop_size p ^ pop_arity p)).
Proof.
  intros Hs Hl. unfold PartialOp_decode.
  rewrite Hl, Nat.pow_add_r, Nat.pow_1_r, range_0_blocks by lia. apply map_map.
Qed.

Lemma forallb_opt_lt s (vals : list (option nat)) :
  forallb (fun v => match v with None => true | Some v => v <? s end) vals = true <->
  Forall (fun v => match v with None => True | Some v => v < s end) vals.
Proof.
  rewrite forallb_forall, Forall_forall. split; intros H v Hv; specialize (H v Hv);
    destruct v as [v|]; auto; [apply Nat.ltb_lt|apply Nat.ltb_lt in H]; auto.
Qed.

(** X15: [PartialOp(size, arity, values)] from a list of optional values
    raises [AssertionError] unless the list has [size^arity] entries and
    every present value is below [size]; on such a list [decode] maps
    the partial operation back to the list, [None] for the undefined
    entries. *)
Theorem PartialOp_new_list_spec s a vals : 1 <= s ->
  (length vals <> s ^ a -> PartialOp_new_list s a vals = Raise AssertionError) /\
  (length vals = s ^ a ->
     ~ Forall (fun v => match v with None => True | Some v => v < s end) vals ->
     PartialOp_new_list s a vals = Raise AssertionError) /\
  (length vals = s ^ a ->
     Forall (fun v => match v with None => True | Some v => v < s end) vals ->
     exists p, PartialOp_new_list s a vals = Ok p /\ pop_size p = s /\ pop_arity p = a /\
       length (pop_table p) = s ^ (a + 1) /\ PartialOp_decode p = vals).
Proof.
  intros Hs. unfold PartialOp_new_list.
  replace (negb (1 <=? s)) with false by (symmetry; apply negb_false_iff, Nat.leb_le; lia).
  cbv zeta. rewrite pow_succ_div by auto.
  split; [|split].
  - intros Hl. apply Nat.eqb_neq in Hl. rewrite Hl. reflexivity.
  - intros Hl Hf. rewrite Hl, Nat.eqb_refl. cbn [negb].
    match goal with |- context [forallb ?f vals] => replace (forallb f vals) with false end;
      [reflexivity|].
    symmetry. apply not_true_iff_false. rewrite forallb_opt_lt. exact Hf.
  - intros Hl Hf. rewrite (combine_seq vals None 0), fold_pairs_partial.
    rewrite Hl, Nat.eqb_refl, (proj2 (forallb_opt_lt s vals) Hf). cbn [negb].
    eexists. split; [reflexivity|]. split; [reflexivity|split; [reflexivity|]].
    cbn [pop_size pop_arity pop_table].
    set (L := flat_map _ _).
    assert (Hg : forall b' v, b' < s ^ a -> nth (b' - 0) vals None = Some v -> v < s).
    { intros b' v Hb' E. rewrite Forall_forall in Hf. specialize (Hf (nth (b' - 0) vals None)).
      rewrite E in Hf. apply Hf. rewrite <- E. apply nth_In. lia. }
    assert (HL : Forall (fun j => j < length (repeat false (s ^ (a + 1)))) L).
    { apply (blocks_in_range s (s ^ a) (fun b' => nth (b' - 0) vals None)); auto.
      rewrite repeat_length, Nat.pow_add_r, Nat.pow_1_r. lia. }
    set (T := fold_left (fun t idx => list_set t idx true) L (repeat false (s ^ (a + 1)))).
    assert (HT : length T = s ^ (a + 1)).
    { destruct (fold_list_set L (repeat false (s ^ (a + 1))) 0 HL) as [H _].
      unfold T. rewrite H, repeat_length. reflexivity. }
    assert (HC : forall b i, b < s ^ a -> i < s ->
                 nth (b * s + i) T false = true <-> nth b vals None = Some i).
    { intros b i Hb Hi. unfold T.
      destruct (fold_list_set L (repeat false (s ^ (a + 1))) (b * s + i) HL) as [_ ->].
      rewrite nth_repeat. cbn [orb]. unfold L.
      rewrite (existsb_blocks s (s ^ a) (fun b' => nth (b' - 0) vals None) b i Hb Hi Hg).
      rewrite Nat.sub_0_r. reflexivity. }
    split; [exact HT|].
    rewrite (pdecode_blocks (mkPartialOp s a T)) by auto. cbn [pop_size pop_arity pop_table].
    rewrite <- (map_nth_seq_gen vals None). rewrite Hl. apply map_ext_in.
    intros b Hb. apply in_seq in Hb.
    destruct (nth b vals None) as [v|] eqn:E.
    + apply first_true_unique; [apply (Hg b); [lia|rewrite Nat.sub_0_r; auto]|].
      intros i Hi. rewrite HC by lia. rewrite E. split; [intros H; injection H; auto|intros ->; auto].
    + apply first_true_absent. intros i Hi. apply in_seq in Hi.
      apply not_true_iff_false. rewrite HC by lia. rewrite E. discriminate.
Qed.

Lemma PartialOp_new_list_spec_witness :
  1 <= 2 /\
  (length [Some 1; None] <> 2 ^ 1 -> PartialOp_new_list 2 1 [Some 1; None] = Raise AssertionError) /\
  (length [Some 1; None] = 2 ^ 1 ->
     ~ Forall (fun v => match v with None => True | Some v => v < 2 end) [Some 1; None] ->
     PartialOp_new_list 2 1 [Some 1; None] = Raise AssertionError) /\
  (length [Some 1; None] = 2 ^ 1 ->
     Forall (fun v => match v with None => True | Some v => v < 2 end) [Some 1; None] ->
     exists p, PartialOp_new_list 2 1 [Some 1; None] = Ok p /\ pop_size p = 2 /\
       pop_arity p = 1 /\ length (pop_table p) = 2 ^ (1 + 1) /\
       PartialOp_decode p = [Some 1; None]).
Proof. split; [lia|]. apply (PartialOp_new_list_spec 2 1 [Some 1; None]). lia. Defined.

(** X16: [Operation.new_const(size, index)] raises [AssertionError] for
    an index not below [size]; otherwise it builds a nullary operation
    that satisfies the functionality invariant and decodes to [[index]]. *)
Theorem Operation_new_const_spec s idx :
  (s <= idx -> Operation_new_const s idx = Raise AssertionError) /\
  (idx < s -> exists o, Operation_new_const s idx = Ok o /\ op_size o = s /\
     op_arity o = 0 /\ functional o /\ Operation_decode o = [idx]).
Proof.
  split.
  - intros H. unfold Operation_new_const.
    replace (idx <? s) with false by (symmetry; apply Nat.ltb_ge; auto). reflexivity.
  - intros H. unfold Operation_new_const, Operation_new_bv.
    replace (idx <? s) with true by (symmetry; apply Nat.ltb_lt; auto). cbn [negb].
    rewrite length_list_set, repeat_length, Nat.add_0_l, Nat.pow_1_r, Nat.eqb_refl.
    replace (1 <=? s) with true by (symmetry; apply Nat.leb_le; lia). cbn [andb].
    eexists. split; [reflexivity|]. split; [reflexivity|split; [reflexivity|]].
    destruct (blocks_decode (mkOperation s 0 (list_set (repeat false s) idx true)) (fun _ => idx))
      as [F D]; cbn [op_size op_arity op_table].
    + lia.
    + rewrite length_list_set, repeat_length, Nat.add_0_l, Nat.pow_1_r. reflexivity.
    + intros b Hb. split; [exact H|]. intros i Hi. cbn in Hb.
      replace (b * s + i) with i by nia.
      rewrite nth_list_set by (rewrite repeat_length; auto). rewrite nth_repeat.
      destruct (Nat.eqb_spec i idx); split; congruence.
    + split; [exact F|]. rewrite D. reflexivity.
Qed.

Lemma Operation_new_const_spec_witness :
  (3 <= 1 -> Operation_new_const 3 1 = Raise AssertionError) /\
  (1 < 3 -> exists o, Operation_new_const 3 1 = Ok o /\ op_size o = 3 /\
     op_arity o = 0 /\ functional o /\ Operation_decode o = [1]).
Proof.
  destruct (Operation_new_const_spec 3 1) as [H1 H2]. split; [exact H1|].
  intros H. apply H2. exact H.
Defined.

(** X17: [Operation.new_proj(size, arity, coord)] raises
    [AssertionError] unless [coord < arity]; otherwise it builds the
    projection onto coordinate [coord]: its graph holds at [(y, x)]
    exactly when [y = x[coord]], it satisfies the functionality
    invariant, and [decode] lists [x[coord]] for the tuples [x] in table
    order. *)
Theorem Operation_new_proj_spec s a c : 1 <= s ->
  (a <= c -> Operation_new_proj s a c = Raise AssertionError) /\
  (c < a -> exists o, Operation_new_proj s a c = Ok o /\ op_size o = s /\ op_arity o = a /\
     (forall x y, valid s a x -> y < s ->
        (cell (as_relation o) (y :: x) = true <-> y = nth c x 0)) /\
     functional o /\
     Operation_decode o = map (fun b => nth c (digits s a b) 0) (seq 0 (s ^ a))).
Proof.
  intros Hs. split.
  - intros H. unfold Operation_new_proj.
    replace ((1 <=? s) && (c <? a)) with false; [reflexivity|].
    symmetry. apply andb_false_iff. right. apply Nat.ltb_ge. exact H.
  - intros Hc. destruct (new_diag_cell s 2 Hs ltac:(lia)) as (D & HD & WD & SD & AD & CD).
    unfold Operation_new_proj.
    replace ((1 <=? s) && (c <? a)) with true
      by (symmetry; apply andb_true_iff; split; [apply Nat.leb_le|apply Nat.ltb_lt]; lia).
    cbn [negb]. rewrite HD.
    set (P := polymer D [0; c + 1] (a + 1)).
    assert (WP : wf P) by (apply polymer_wf; auto).
    assert (SP : size P = s) by (unfold P; rewrite polymer_size; auto).
    assert (LP : length (table P) = s ^ (a + 1))
      by (destruct WP as [_ W]; rewrite W, SP; unfold P; rewrite polymer_arity; reflexivity).
    unfold Operation_new_bv. rewrite LP, Nat.eqb_refl.
    replace (1 <=? s) with true by (symmetry; apply Nat.leb_le; lia). cbn [andb].
    eexists. split; [reflexivity|]. split; [reflexivity|split; [reflexivity|]].
    assert (HC : forall x y, valid s a x -> y < s ->
      (cell (as_relation (mkOperation s a (table P))) (y :: x) = true <-> y = nth c x 0)).
    { intros x y Hx Hy.
      replace (cell (as_relation (mkOperation s a (table P))) (y :: x)) with (cell P (y :: x))
        by (unfold cell; rewrite SP; reflexivity).
      unfold P. rewrite cell_polymer.
      - replace (c + 1) with (S c) by lia. cbn [map nth].
        rewrite CD by (apply valid_two_intro; auto; apply (valid_nth _ a); auto).
        split.
        + intros (z & E). cbn in E. congruence.
        + intros ->. exists (nth c x 0). reflexivity.
      - lia.
      - repeat constructor; lia.
      - rewrite SD, Nat.add_1_r. apply valid_cons. auto. }
    split; [exact HC|].
    apply blocks_decode; cbn [op_size op_arity op_table]; [lia|exact LP|].
    intros b Hb. split; [apply (valid_nth _ a); [apply digits_valid; lia|lia]|].
    intros i Hi. rewrite <- (HC (digits s a b) i (digits_valid _ _ _ Hs) Hi).
    unfold cell. cbn [as_relation size table op_size op_table encode].
    rewrite encode_digits, Nat.mod_small by lia.
    replace (i + s * b) with (b * s + i) by lia. reflexivity.
Qed.

Lemma Operation_new_proj_spec_witness :
  1 <= 2 /\
  (2 <= 1 -> Operation_new_proj 2 2 1 = Raise AssertionError) /\
  (1 < 2 -> exists o, Operation_new_proj 2 2 1 = Ok o /\ op_size o = 2 /\ op_arity o = 2 /\
     (forall x y, valid 2 2 x -> y < 2 ->
        (cell (as_relation o) (y :: x) = true <-> y = nth 1 x 0)) /\
     functional o /\
     Operation_decode o = map (fun b => nth 1 (digits 2 2 b) 0) (seq 0 (2 ^ 2))).
Proof. split; [lia|]. apply (Operation_new_proj_spec 2 2 1). lia. Defined.

(** X18: [PartialOp.domain()] holds at a tuple [x] exactly when
    [decode()] has a value, not [None], at the position of [x]. *)
Theorem PartialOp_domain_spec p : 1 <= pop_size p ->
  length (pop_table p) = pop_size p ^ (pop_arity p + 1) ->
  size (PartialOp_domain p) = pop_size p /\ arity (PartialOp_domain p) = pop_arity p /\
  forall x, valid (pop_size p) (pop_arity p) x ->
    (cell (PartialOp_domain p) x = true <->
     nth (encode (pop_size p) x) (PartialOp_decode p) None <> None).
Proof.
  intros Hs Hl.
  assert (W : wf (PartialOp_as_relation p)).
  { split; [exact Hs|]. cbn. rewrite Hl, Nat.add_1_r. reflexivity. }
  split; [reflexivity|split; [cbn; lia|]].
  intros x Hx. unfold PartialOp_domain.
  rewrite cell_fold_any by (auto; cbn; try lia; rewrite Nat.sub_0_r; exact Hx).
  rewrite pdecode_blocks by auto.
  rewrite (nth_map_seq0 (fun b => first_true (pop_table p) (b * pop_size p) (seq 0 (pop_size p))))
    by (apply encode_lt; exact Hx).
  rewrite first_true_is_some. cbn [PartialOp_as_relation size]. split.
  - intros (z & Hz & Ht). destruct (valid_one _ _ Hz) as (i & -> & Hi).
    exists i. split; [apply in_seq; lia|].
    unfold cell in Ht. cbn in Ht. rewrite <- Ht. f_equal. lia.
  - intros (i & Hi & Ht). apply in_seq in Hi. exists [i].
    split; [apply valid_cons; split; [lia|apply valid_nil]|].
    unfold cell. cbn. rewrite <- Ht. f_equal. lia.
Qed.

Lemma PartialOp_domain_spec_witness :
  1 <= 2 /\ length [false; true; false; false] = 2 ^ (1 + 1) /\
  size (PartialOp_domain (mkPartialOp 2 1 [false; true; false; false])) = 2 /\
  arity (PartialOp_domain (mkPartialOp 2 1 [false; true; false; false])) = 1 /\
  forall x, valid 2 1 x ->
    (cell (PartialOp_domain (mkPartialOp 2 1 [false; true; false; false])) x = true <->
     nth (encode 2 x) (PartialOp_decode (mkPartialOp 2 1 [false; true; false; false])) None
     <> None).
Proof.
  split; [lia|]. split; [reflexivity|].
  apply (PartialOp_domain_spec (mkPartialOp 2 1 [false; true; false; false])); [cbn; lia|reflexivity].
Defined.

(** ** ProductAlg: splitting and combining elements *)

Lemma fold_app_concat (parts : list (list bool)) : forall acc,
  fold_left (fun lits part => lits ++ part) parts acc = acc ++ concat parts.
Proof.
  induction parts as [|p parts IH]; intros acc; simpl.
  - rewrite app_nil_r; reflexivity.
  - rewrite IH, app_assoc; reflexivity.
Qed.

Lemma firstn_add_split {A} n m (l : list A) :
  firstn (n + m) l = firstn n l ++ firstn m (skipn n l).
Proof.
  revert l; induction n as [|n IH]; intros [|x l]; simpl; auto.
  - destruct m; reflexivity.
  - f_equal. apply IH.
Qed.

Lemma slice_app_adj (l : list bool) a b c : a <= b -> b <= c ->
  slice l a b ++ slice l b c = slice l a c.
Proof.
  intros Hab Hbc. unfold slice.
  replace (c - a) with ((b - a) + (c - b)) by lia.
  rewrite firstn_add_split, skipn_skipn. replace (b - a + a) with b by lia. reflexivity.
Qed.

Lemma length_slice_le (l : list bool) a b : a <= b -> b <= length l ->
  length (slice l a b) = b - a.
Proof.
  intros Hab Hb. unfold slice. rewrite length_firstn, length_skipn. lia.
Qed.

(** The loop of [splitup], started at [start] with the parts [acc]
    already collected, appends one part per factor; the parts have the
    factors' lengths and together cover [elem[start : start + sum]]. *)
Lemma splitup_loop elem lengths : forall acc st,
  st + list_sum lengths <= length elem ->
  exists P, fst (fold_left (fun '(parts, start) len =>
                              (parts ++ [slice elem start (start + len)], start + len))
                 lengths (acc, st)) = acc ++ P /\
    Forall2 (fun p n => length p = n) P lengths /\
    concat P = slice elem st (st + list_sum lengths).
Proof.
  induction lengths as [|n lengths IH]; intros acc st Hle; simpl in *.
  - exists []. rewrite app_nil_r. repeat split; auto.
    unfold slice. rewrite Nat.add_0_r, Nat.sub_diag. reflexivity.
  - destruct (IH (acc ++ [slice elem st (st + n)]) (st + n) ltac:(lia)) as (P & HP & HF & HC).
    exists (slice elem st (st + n) :: P). rewrite HP, <- app_assoc. repeat split; auto.
    + constructor; auto. rewrite length_slice_le by lia. lia.
    + simpl. rewrite HC, slice_app_adj by lia. f_equal. lia.
Qed.

(** The loop of [splitup] on [pre ++ concat parts], started at
    [len(pre)], gives back [parts]. *)
Lemma splitup_loop_concat elem lengths parts :
  Forall2 (fun p n => length p = n) parts lengths ->
  forall pre acc, elem = pre ++ concat parts ->
  fst (fold_left (fun '(parts, start) len =>
                    (parts ++ [slice elem start (start + len)], start + len))
         lengths (acc, length pre)) = acc ++ parts.
Proof.
  induction 1 as [|p n parts lengths Hp HF IH]; intros pre acc He; simpl.
  - rewrite app_nil_r; reflexivity.
  - assert (Hs : slice elem (length pre) (length pre + n) = p).
    { subst elem n. unfold slice. rewrite Nat.add_sub_swap, Nat.sub_diag by lia.
      rewrite skipn_app, Nat.sub_diag, skipn_all. simpl.
      rewrite firstn_app, Nat.sub_diag, firstn_all. simpl. apply app_nil_r. }
    rewrite Hs. replace (length pre + n) with (length (pre ++ p)) by (rewrite length_app; lia).
    rewrite (IH (pre ++ p)), <- app_assoc; auto.
    rewrite He, <- app_assoc; reflexivity.
Qed.

Lemma length_concat_forall2 (parts : list (list bool)) lengths :
  Forall2 (fun p n => length p = n) parts lengths -> length (concat parts) = list_sum lengths.
Proof.
  induction 1; simpl; auto. rewrite length_app; lia.
Qed.

Lemma forall2_length_eq {A B} (R : A -> B -> Prop) l1 l2 :
  Forall2 R l1 l2 -> length l1 = length l2.
Proof. induction 1; simpl; auto. Qed.

(** X19: [ProductAlg.splitup] raises [AssertionError] on an element
    whose length is not the sum of the factor lengths; otherwise it cuts
    the element into one part per factor, of that factor's length, and
    [combine] gives the element back. Conversely [combine] of parts of
    the factor lengths is their concatenation, and [splitup] of it gives
    the parts back. *)
Theorem ProductAlg_splitup_combine lengths :
  (forall elem, length elem <> list_sum lengths ->
     ProductAlg_splitup lengths elem = Raise AssertionError) /\
  (forall elem, length elem = list_sum lengths ->
     exists parts, ProductAlg_splitup lengths elem = Ok parts /\
       Forall2 (fun p n => length p = n) parts lengths /\
       ProductAlg_combine lengths parts = Ok elem) /\
  (forall parts, Forall2 (fun p n => length p = n) parts lengths ->
     ProductAlg_combine lengths parts = Ok (concat parts) /\
     ProductAlg_splitup lengths (concat parts) = Ok parts).
Proof.
  split; [|split].
  - intros elem H. unfold ProductAlg_splitup.
    destruct (Nat.eqb_spec (length elem) (list_sum lengths)); [contradiction|reflexivity].
  - intros elem H. unfold ProductAlg_splitup.
    rewrite (proj2 (Nat.eqb_eq _ _) H). simpl negb. cbv iota.
    destruct (splitup_loop elem lengths [] 0 ltac:(lia)) as (P & HP & HF & HC).
    rewrite HP. exists P. repeat split; auto.
    unfold ProductAlg_combine. rewrite (forall2_length_eq _ _ _ HF), Nat.eqb_refl.
    simpl negb. cbv iota. rewrite fold_app_concat, HC. simpl app.
    unfold slice. rewrite Nat.sub_0_r, skipn_O, <- H, firstn_all, Nat.eqb_refl. reflexivity.
  - intros parts HF. split.
    + unfold ProductAlg_combine. rewrite (forall2_length_eq _ _ _ HF), Nat.eqb_refl.
      simpl negb. cbv iota. rewrite fold_app_concat. simpl app.
      rewrite (length_concat_forall2 _ _ HF), Nat.eqb_refl. reflexivity.
    + unfold ProductAlg_splitup. rewrite (length_concat_forall2 _ _ HF), Nat.eqb_refl.
      simpl negb. cbv iota. f_equal.
      apply (splitup_loop_concat (concat parts) lengths parts HF [] []). reflexivity.
Qed.

Lemma ProductAlg_splitup_combine_witness :
  ProductAlg_combine [1; 2] [[true]; [false; true]] = Ok [true; false; true] /\
  ProductAlg_splitup [1; 2] [true; false; true] = Ok [[true]; [false; true]].
Proof.
  destruct (ProductAlg_splitup_combine [1; 2]) as (_ & _ & H3).
  apply (H3 [[true]; [false; true]]). repeat constructor.
Defined.

(** ** Operation.compose *)

Lemma skipn_length_app {A} (u v : list A) : skipn (length u) (u ++ v) = v.
Proof. induction u; simpl; auto. Qed.

Lemma compose_args_wf n total s : forall args idx rel,
  wf rel -> size rel = s -> arity rel = total ->
  (forall g, In g args -> op_size g = s /\ length (op_table g) = s ^ S (op_arity g)) ->
  wf (compose_args n total idx args rel) /\ size (compose_args n total idx args rel) = s /\
  arity (compose_args n total idx args rel) = total.
Proof.
  induction args as [|g args IH]; intros idx rel Hw Hs Ha Hg; simpl; auto.
  destruct (Hg g (or_introl eq_refl)) as [Sg Lg]. pose proof Hw as [Hs1 _].
  apply IH; auto.
  - apply rel_and_wf; auto.
    + apply polymer_wf. split; simpl; [lia|rewrite Sg; exact Lg].
    + rewrite polymer_size. simpl. lia.
  - intros g' Hg'. apply Hg. right; exact Hg'.
Qed.

(** The cell of the conjunction built by the loop of [compose]. *)
Lemma cell_compose_args n total s d : forall args idx rel z,
  wf rel -> size rel = s -> arity rel = total ->
  (forall g, In g args -> op_size g = s /\ length (op_table g) = s ^ S (op_arity g)) ->
  idx + length args <= total -> n + 1 <= total -> valid s total z ->
  (cell (compose_args n total idx args rel) z = true <->
   cell rel z = true /\ forall j, j < length args ->
     cell (as_relation (nth j args d)) (nth (idx + j) z 0 :: skipn (n + 1) z) = true).
Proof.
  induction args as [|g args IH]; intros idx rel z Hw Hs Ha Hg Hi Hn Hz; simpl.
  - split; [intros H; split; auto; intros; lia|intros [H _]; exact H].
  - destruct (Hg g (or_introl eq_refl)) as [Sg Lg]. pose proof Hw as [Hs1 _].
    assert (Wg : wf (as_relation g)) by (split; simpl; [lia|rewrite Sg; exact Lg]).
    set (P := polymer (as_relation g) (idx :: range (n + 1) total 1) total).
    assert (WP : wf P) by (apply polymer_wf; exact Wg).
    assert (SP : size P = s) by (unfold P; rewrite polymer_size; simpl; lia).
    assert (W' : wf (rel_and rel P)) by (apply rel_and_wf; auto; lia).
    rewrite (IH (S idx) (rel_and rel P) z W' Hs Ha (fun g' H => Hg g' (or_intror H)))
      by (auto; simpl in Hi; lia).
    rewrite cell_and by (auto; lia).
    assert (HP : cell P z = cell (as_relation g) (nth idx z 0 :: skipn (n + 1) z)).
    { unfold P. rewrite cell_polymer.
      - cbn [map]. f_equal. f_equal.
        rewrite range_1. pose proof (valid_length _ _ _ Hz) as Lz.
        pose proof (map_nth_suffix (firstn (n + 1) z) (skipn (n + 1) z)) as E.
        rewrite firstn_skipn, length_firstn, length_skipn, Lz in E.
        replace (Nat.min (n + 1) total) with (n + 1) in E by lia. exact E.
      - simpl; lia.
      - constructor; [simpl in Hi; lia|]. rewrite range_1. apply Forall_forall.
        intros v Hv. apply in_seq in Hv. lia.
      - simpl. rewrite Sg. exact Hz. }
    rewrite HP, andb_true_iff. split.
    + intros [[H1 H2] H3]. split; auto. intros [|j] Hj; simpl.
      * rewrite Nat.add_0_r. exact H2.
      * replace (idx + S j) with (S idx + j) by lia. apply H3. simpl in Hj; lia.
    + intros [H1 H3]. split; [split; auto|].
      * specialize (H3 0 ltac:(simpl; lia)). rewrite Nat.add_0_r in H3. exact H3.
      * intros j Hj. specialize (H3 (S j) ltac:(simpl; lia)).
        replace (idx + S j) with (S idx + j) in H3 by lia. exact H3.
Qed.

(** The relation [compose] folds: at [(t, y, x)] it holds exactly when
    [self(t) = y] and [args[j](x) = t[j]] for every [j]. *)
Lemma cell_compose_rel f args m t y x :
  1 <= op_size f -> length (op_table f) = op_size f ^ S (op_arity f) ->
  (forall g, In g args -> op_size g = op_size f /\ length (op_table g) = op_size f ^ S (op_arity g)) ->
  length args = op_arity f ->
  valid (op_size f) (op_arity f) t -> y < op_size f -> valid (op_size f) m x ->
  let total := op_arity f + 1 + m in
  let R0 := polymer (as_relation f) (op_arity f :: range 0 (op_arity f) 1) total in
  (cell (compose_args (op_arity f) total 0 args R0) (t ++ y :: x) = true <->
   cell (as_relation f) (y :: t) = true /\
   forall j, j < op_arity f -> cell (as_relation (nth j args f)) (nth j t 0 :: x) = true).
Proof.
  intros Hs Hl Hg Hlen Ht Hy Hx total R0.
  assert (Wf : wf (as_relation f)) by (split; simpl; [lia|exact Hl]).
  assert (W0 : wf R0) by (apply polymer_wf; exact Wf).
  pose proof (valid_length _ _ _ Ht) as Lt.
  assert (Hz : valid (op_size f) total (t ++ y :: x))
    by (unfold total; replace (op_arity f + 1 + m) with (op_arity f + S m) by lia;
        apply valid_app; auto; apply valid_cons; auto).
  rewrite (cell_compose_args (op_arity f) total (op_size f) f args 0 R0) by
    (auto; unfold total; lia).
  assert (H0 : cell R0 (t ++ y :: x) = cell (as_relation f) (y :: t)).
  { unfold R0. rewrite cell_polymer.
    - cbn [map]. f_equal. f_equal.
      + rewrite app_nth2 by lia. rewrite Lt, Nat.sub_diag. reflexivity.
      + rewrite range_1, Nat.sub_0_r, <- Lt. apply map_nth_prefix.
    - simpl; lia.
    - constructor; [unfold total; lia|]. rewrite range_1. apply Forall_forall.
      intros v Hv. apply in_seq in Hv. unfold total; lia.
    - exact Hz. }
  assert (Hk : skipn (op_arity f + 1) (t ++ y :: x) = x).
  { replace (t ++ y :: x) with ((t ++ [y]) ++ x) by (rewrite <- app_assoc; reflexivity).
    replace (op_arity f + 1) with (length (t ++ [y])) by (rewrite length_app; simpl; lia).
    apply skipn_length_app. }
  rewrite H0, Hk, Hlen. split.
  - intros [H1 H2]. split; auto. intros j Hj. specialize (H2 j Hj).
    rewrite Nat.add_0_l, app_nth1 in H2 by lia. exact H2.
  - intros [H1 H2]. split; auto. intros j Hj. specialize (H2 j Hj).
    rewrite Nat.add_0_l, app_nth1 by lia. exact H2.
Qed.

Lemma cell_as_relation_mk s a tbl r x : size r = s -> table r = tbl ->
  cell (as_relation (mkOperation s a tbl)) x = cell r x.
Proof. intros <- <-. reflexivity. Qed.

(** [compose] succeeds on arguments of one arity [m] over the universe of
    [self]; its graph holds at [(y, x)] exactly when some tuple [t] has
    [self(t) = y] and [args[j](x) = t[j]] for every [j]. *)
Lemma Operation_compose_ok f args m :
  1 <= op_size f -> length (op_table f) = op_size f ^ S (op_arity f) ->
  (forall g, In g args -> op_size g = op_size f /\ op_arity g = m /\
     length (op_table g) = op_size f ^ S m) ->
  length args = op_arity f -> 1 <= op_arity f ->
  exists h, Operation_compose f args = Ok h /\ op_size h = op_size f /\ op_arity h = m /\
    length (op_table h) = op_size f ^ (m + 1) /\
    forall y x, y < op_size f -> valid (op_size f) m x ->
      (cell (as_relation h) (y :: x) = true <->
       exists t, valid (op_size f) (op_arity f) t /\ cell (as_relation f) (y :: t) = true /\
         forall j, j < op_arity f -> cell (as_relation (nth j args f)) (nth j t 0 :: x) = true).
Proof.
  intros Hs Hl Hg Hlen Hn.
  destruct args as [|a0 rest]; [simpl in Hlen; lia|].
  destruct (Hg a0 (or_introl eq_refl)) as (S0 & A0 & L0).
  assert (Hg' : forall g, In g (a0 :: rest) ->
            op_size g = op_size f /\ length (op_table g) = op_size f ^ S (op_arity g)).
  { intros g Hin. destruct (Hg g Hin) as (? & -> & ?). auto. }
  unfold Operation_compose. cbv iota.
  rewrite Hlen, Nat.eqb_refl.
  replace (1 <=? op_arity f) with true by (symmetry; apply Nat.leb_le; lia).
  cbn [andb negb]. rewrite A0. cbv zeta.
  set (total := op_arity f + 1 + m).
  set (R0 := polymer (as_relation f) (op_arity f :: range 0 (op_arity f) 1) total).
  assert (W0 : wf R0) by (apply polymer_wf; split; simpl; [lia|exact Hl]).
  destruct (compose_args_wf (op_arity f) total (op_size f) (a0 :: rest) 0 R0 W0 eq_refl eq_refl Hg')
    as (WC & SC & AC).
  set (C := compose_args (op_arity f) total 0 (a0 :: rest) R0) in *.
  eexists. split; [reflexivity|]. split; [reflexivity|]. split; [reflexivity|].
  cbn [op_table]. split.
  - destruct (fold_with_wf lits_fold_any C (op_arity f) WC ltac:(lia)) as [_ L].
    unfold fold_any. rewrite L. cbn [fold_with size arity]. rewrite SC, AC.
    unfold total. f_equal. lia.
  - intros y x Hy Hx.
    rewrite (cell_as_relation_mk _ _ _ (fold_any C (op_arity f)) _
               ltac:(rewrite fold_any_size; exact SC) eq_refl).
    rewrite cell_fold_any.
    2:{ exact WC. }
    2:{ rewrite AC. unfold total. lia. }
    2:{ rewrite SC, AC. unfold total.
        replace (op_arity f + 1 + m - op_arity f) with (S m) by lia.
        apply valid_cons. auto. }
    rewrite SC. split.
    + intros (t & Ht & Hc). exists t. split; auto.
      pose proof (cell_compose_rel f (a0 :: rest) m t y x Hs Hl Hg' Hlen Ht Hy Hx) as E.
      cbv zeta in E. apply E. exact Hc.
    + intros (t & Ht & Hc). exists t. split; auto.
      pose proof (cell_compose_rel f (a0 :: rest) m t y x Hs Hl Hg' Hlen Ht Hy Hx) as E.
      cbv zeta in E. apply E. exact Hc.
Qed.

(** Under the functionality invariant, entry [b] of [decode] is the
    unique index below [size] that is true in block [b]. *)
Lemma functional_decode_nth o : 1 <= op_size o -> functional o ->
  forall b, b < op_size o ^ op_arity o ->
  nth b (Operation_decode o) 0 < op_size o /\
  forall i, i < op_size o ->
    (nth b (Operation_decode o) 0 = i <-> nth (b * op_size o + i) (op_table o) false = true).
Proof.
  intros Hs [Hl Hf]. rewrite decode_blocks by auto.
  set (D := fun b => match first_true (op_table o) (b * op_size o) (seq 0 (op_size o)) with
                     | Some i => [i]
                     | None => []
                     end).
  assert (Hb : forall b, b < op_size o ^ op_arity o ->
            exists ib, ib < op_size o /\ D b = [ib] /\
              forall i, i < op_size o ->
                (nth (b * op_size o + i) (op_table o) false = true <-> i = ib)).
  { intros b Hb. specialize (Hf b Hb).
    rewrite slice_blocks in Hf.
    2:{ rewrite Hl, Nat.pow_add_r, Nat.pow_1_r. nia. }
    apply count_true_one in Hf; [|apply seq_NoDup].
    destruct Hf as (ib & Hin & Hib & Hu). apply in_seq in Hin.
    exists ib. split; [lia|split].
    - unfold D. case_eq (first_true (op_table o) (b * op_size o) (seq 0 (op_size o))).
      + intros j Hj. destruct (first_true_some _ _ _ _ Hj) as [Hjin Hjt].
        rewrite (Hu j Hjin Hjt). reflexivity.
      + intros Hn. rewrite (first_true_none _ _ _ Hn ib) in Hib; [discriminate|].
        apply in_seq; lia.
    - intros i Hi. split; [intros Ht; apply Hu; auto; apply in_seq; lia|intros ->; auto]. }
  rewrite flat_map_singletons.
  2:{ intros b Hin. apply in_seq in Hin. destruct (Hb b ltac:(lia)) as (ib & _ & -> & _).
      reflexivity. }
  intros b Hbl. destruct (Hb b Hbl) as (ib & Hibs & HD & Hiff).
  rewrite nth_map_seq0 by lia. rewrite HD. simpl. split; [exact Hibs|].
  intros i Hi. rewrite Hiff by auto. split; auto.
Qed.

(** Under the functionality invariant the graph holds at [(y, x)]
    exactly when [y] is the decoded value at [x]. *)
Lemma functional_cell o y x : 1 <= op_size o -> functional o ->
  valid (op_size o) (op_arity o) x -> y < op_size o ->
  (cell (as_relation o) (y :: x) = true <-> y = nth (encode (op_size o) x) (Operation_decode o) 0).
Proof.
  intros Hs Hf Hx Hy. pose proof (encode_lt _ _ _ Hx) as Hlt.
  destruct (functional_decode_nth o Hs Hf _ Hlt) as [_ H].
  unfold cell. cbn [as_relation size table encode].
  replace (y + op_size o * encode (op_size o) x) with (encode (op_size o) x * op_size o + y) by lia.
  rewrite <- (H y Hy). split; auto.
Qed.

Lemma nth_map_default {A} (F : A -> nat) l d j : j < length l ->
  nth j (map F l) 0 = F (nth j l d).
Proof.
  intros Hj. rewrite (nth_indep _ 0 (F d)) by (rewrite length_map; auto). apply map_nth.
Qed.



(** ** Operation.polymer *)

Lemma length_op_polymer_loop sz src ss c is pos :
  length (op_polymer_loop sz src ss c is pos) = c * sz.
Proof.
  revert is pos; induction c as [|c IH]; intros is pos; simpl; auto.
  destruct (polymer_advance sz ss is pos). rewrite length_app, length_map, length_seq, IH. lia.
Qed.

(** Round [t] of the loop of [Operation.polymer] copies the block of the
    source at the position of the [t]-th odometer state. *)
Lemma op_polymer_loop_nth sz src ss n c : forall is t i,
  1 <= sz -> length ss = n -> valid sz n is -> t < c -> encode sz is + t < sz ^ n -> i < sz ->
  nth (t * sz + i) (op_polymer_loop sz src ss c is (dot ss is)) false
  = nth (dot ss (digits sz n (encode sz is + t)) + i) src false.
Proof.
  induction c as [|c IH]; intros is t i Hs Hl Hv Ht Hlt Hi; [lia|].
  cbn [op_polymer_loop].
  destruct t as [|t].
  - rewrite app_nth1 by (rewrite length_map, length_seq; lia).
    rewrite nth_map_seq_from by lia.
    rewrite Nat.add_0_r, (digits_encode sz n is Hv). reflexivity.
  - rewrite app_nth2 by (rewrite length_map, length_seq; lia).
    rewrite length_map, length_seq.
    replace (S t * sz + i - sz) with (t * sz + i) by nia.
    pose proof (polymer_advance_spec sz ss is 0 n Hs Hl Hv ltac:(lia)) as Ha.
    rewrite Nat.add_0_r in Ha.
    destruct (polymer_advance sz ss is (dot ss is)) as [is' pos'].
    destruct Ha as (Hv' & He & Hp). rewrite Nat.add_0_r in Hp. subst pos'.
    rewrite IH by (auto; lia). do 4 f_equal. lia.
Qed.

(** The graph of [Operation.polymer(new_vars, new_arity)] at [(y, x)] is
    the graph of the source at [y] and the coordinates of [x] that
    [new_vars] selects. *)
Lemma cell_op_polymer o nv n y x :
  1 <= op_size o -> Forall (fun v => v < n) nv -> y < op_size o -> valid (op_size o) n x ->
  cell (as_relation (Operation_polymer o nv n)) (y :: x)
  = cell (as_relation o) (y :: map (fun v => nth v x 0) nv).
Proof.
  intros Hs Hf Hy Hx. unfold cell, Operation_polymer. cbn [as_relation size table op_size op_table encode].
  pose proof (encode_lt _ _ _ Hx) as Hlt.
  set (ss := polymer_strides (op_size o) nv (repeat 0 n) (op_size o)).
  assert (Hss : length ss = n) by (unfold ss; rewrite length_polymer_strides, repeat_length; auto).
  pose proof (op_polymer_loop_nth (op_size o) (op_table o) ss n (op_size o ^ n) (repeat 0 n)
                (encode (op_size o) x) y Hs Hss (valid_repeat_0 _ _ Hs) Hlt
                ltac:(rewrite encode_repeat_0; lia) Hy) as H.
  rewrite dot_repeat_0, encode_repeat_0, Nat.add_0_l, (digits_encode _ _ _ Hx) in H.
  replace (y + op_size o * encode (op_size o) x) with (encode (op_size o) x * op_size o + y) by lia.
  rewrite H. unfold ss. rewrite dot_polymer_strides.
  - rewrite dot_repeat_0_l. f_equal. lia.
  - rewrite repeat_length; auto.
  - destruct Hx; rewrite repeat_length; auto.
Qed.

(** X21: [Operation.polymer(new_vars, new_arity)], for [new_vars] of
    length [arity] with entries below [new_arity], returns an operation
    of arity [new_arity] whose graph holds at [(y, x)] exactly when the
    source graph holds at [y] and the coordinates of [x] selected by
    [new_vars]. It keeps the functionality invariant, and then the
    decoded value at [x] is the source's decoded value at
    [(x[new_vars[0]], ...)]. *)
Theorem Operation_polymer_spec o nv n : 1 <= op_size o ->
  length (op_table o) = op_size o ^ (op_arity o + 1) ->
  length nv = op_arity o -> Forall (fun v => v < n) nv ->
  op_size (Operation_polymer o nv n) = op_size o /\ op_arity (Operation_polymer o nv n) = n /\
  length (op_table (Operation_polymer o nv n)) = op_size o ^ (n + 1) /\
  (forall y x, y < op_size o -> valid (op_size o) n x ->
     cell (as_relation (Operation_polymer o nv n)) (y :: x)
     = cell (as_relation o) (y :: map (fun v => nth v x 0) nv)) /\
  (functional o ->
     functional (Operation_polymer o nv n) /\
     Operation_decode (Operation_polymer o nv n) =
       map (fun b => nth (encode (op_size o) (map (fun v => nth v (digits (op_size o) n b) 0) nv))
                       (Operation_decode o) 0)
         (seq 0 (op_size o ^ n))).
Proof.
  intros Hs Hl Hnv Hf.
  assert (Lp : length (op_table (Operation_polymer o nv n)) = op_size o ^ (n + 1)).
  { unfold Operation_polymer. cbn [op_table]. rewrite length_op_polymer_loop.
    rewrite Nat.pow_add_r, Nat.pow_1_r. reflexivity. }
  split; [reflexivity|]. split; [reflexivity|]. split; [exact Lp|].
  split; [intros y x Hy Hx; apply cell_op_polymer; auto|].
  intros Fo.
  apply blocks_decode; cbn [Operation_polymer op_size op_arity]; [lia|exact Lp|].
  intros b Hb.
  set (x := digits (op_size o) n b).
  assert (Hx : valid (op_size o) n x) by (apply digits_valid; lia).
  assert (Ex : encode (op_size o) x = b) by (unfold x; rewrite encode_digits, Nat.mod_small; lia).
  assert (Hm : valid (op_size o) (op_arity o) (map (fun v => nth v x 0) nv))
    by (rewrite <- Hnv; apply (valid_map_nth _ n); auto).
  split.
  - apply (functional_decode_nth o Hs Fo). apply encode_lt. exact Hm.
  - intros i Hi.
    assert (Ec : nth (b * op_size o + i) (op_table (Operation_polymer o nv n)) false
                 = cell (as_relation (Operation_polymer o nv n)) (i :: x))
      by (unfold cell; cbn [as_relation size table encode Operation_polymer op_size op_table];
          rewrite Ex; f_equal; lia).
    rewrite Ec, cell_op_polymer by auto.
    apply functional_cell; auto.
Qed.

Lemma Operation_polymer_spec_witness :
  functional (mkOperation 2 1 [false; true; true; false]) /\
  functional (Operation_polymer (mkOperation 2 1 [false; true; true; false]) [1] 2) /\
  Operation_decode (Operation_polymer (mkOperation 2 1 [false; true; true; false]) [1] 2)
  = [1; 1; 0; 0].
Proof.
  assert (Hf : functional (mkOperation 2 1 [false; true; true; false])).
  { split; [reflexivity|]. intros b Hb. simpl in Hb.
    destruct b as [|[|]]; [reflexivity|reflexivity|lia]. }
  split; [exact Hf|].
  destruct (Operation_polymer_spec (mkOperation 2 1 [false; true; true; false]) [1] 2
              ltac:(simpl; lia) eq_refl eq_refl ltac:(repeat constructor))
    as (_ & _ & _ & _ & H).
  destruct (H Hf) as [F D]. split; [exact F|]. rewrite D. reflexivity.
Defined.

(** ** PartialOp: constants, views and polymers *)

Lemma first_true_ext t1 t2 st1 st2 l :
  (forall i, In i l -> nth (st1 + i) t1 false = nth (st2 + i) t2 false) ->
  first_true t1 st1 l = first_true t2 st2 l.
Proof.
  induction l as [|a l IH]; intros H; simpl; auto.
  rewrite (H a (or_introl eq_refl)).
  destruct (nth (st2 + a) t2 false); auto.
  apply IH. intros i Hi. apply H. right; exact Hi.
Qed.

(** X22: [PartialOp.new_const(size, index)] raises [AssertionError] for
    an index not below [size]; otherwise, on a non-empty universe, it
    builds a nullary partial operation whose [decode] is [[index]]:
    [[None]] for the undefined constant. *)
Theorem PartialOp_new_const_spec s index : 1 <= s ->
  ((exists i, index = Some i /\ s <= i) -> PartialOp_new_const s index = Raise AssertionError) /\
  ((forall i, index = Some i -> i < s) ->
   exists p, PartialOp_new_const s index = Ok p /\ pop_size p = s /\ pop_arity p = 0 /\
     PartialOp_decode p = [index]).
Proof.
  intros Hs. split.
  - intros (i & -> & Hi). unfold PartialOp_new_const.
    replace (i <? s) with false by (symmetry; apply Nat.ltb_ge; exact Hi). reflexivity.
  - intros Hi. unfold PartialOp_new_const.
    assert (Hc : (match index with None => true | Some i => i <? s end) = true)
      by (destruct index as [i|]; auto; apply Nat.ltb_lt, Hi; reflexivity).
    rewrite Hc. cbn [negb]. unfold PartialOp_new_bv.
    set (tbl := match index with
                | None => repeat false s
                | Some i => list_set (repeat false s) i true
                end).
    assert (Lt : length tbl = s) by (unfold tbl; destruct index;
                                     rewrite ?length_list_set, repeat_length; reflexivity).
    rewrite Lt. replace (s ^ (0 + 1)) with s by (simpl; lia). rewrite Nat.eqb_refl.
    replace (1 <=? s) with true by (symmetry; apply Nat.leb_le; exact Hs). cbn [andb].
    eexists. split; [reflexivity|]. split; [reflexivity|]. split; [reflexivity|].
    rewrite pdecode_blocks; cbn [pop_size pop_arity pop_table]; [|exact Hs|rewrite Lt; simpl; lia].
    simpl Nat.pow. simpl seq. cbn [map]. f_equal. rewrite Nat.mul_0_l.
    unfold tbl. destruct index as [i|].
    + specialize (Hi i eq_refl). apply first_true_unique; [exact Hi|].
      intros j Hj. simpl. rewrite nth_list_set by (rewrite repeat_length; exact Hi).
      rewrite nth_repeat. destruct (Nat.eqb_spec j i); split; congruence.
    + apply first_true_absent. intros j _. simpl. apply nth_repeat.
Qed.

Lemma PartialOp_new_const_spec_witness :
  (exists p, PartialOp_new_const 3 (Some 1) = Ok p /\ pop_size p = 3 /\ pop_arity p = 0 /\
     PartialOp_decode p = [Some 1]) /\
  (exists p, PartialOp_new_const 3 None = Ok p /\ pop_size p = 3 /\ pop_arity p = 0 /\
     PartialOp_decode p = [None]).
Proof.
  split.
  - apply (PartialOp_new_const_spec 3 (Some 1) ltac:(lia)).
    intros i Hi. injection Hi as <-. lia.
  - apply (PartialOp_new_const_spec 3 None ltac:(lia)). discriminate.
Defined.

(** X23: on an operation that satisfies the functionality invariant,
    [PartialOp.decode] of [as_partialop()] is [Operation.decode] with
    every value wrapped in [Some]. *)
Theorem as_partialop_decode o : 1 <= op_size o -> functional o ->
  PartialOp_decode (as_partialop o) = map Some (Operation_decode o).
Proof.
  intros Hs Hf. pose proof Hf as [Hl _].
  set (g := fun b => nth b (Operation_decode o) 0).
  destruct (blocks_decode o g Hs Hl) as [_ HD].
  { intros b Hb. destruct (functional_decode_nth o Hs Hf b Hb) as [H1 H2].
    split; [exact H1|]. intros i Hi. rewrite <- H2 by exact Hi. unfold g. split; auto. }
  rewrite HD, map_map, pdecode_blocks by (cbn; auto).
  cbn [as_partialop pop_size pop_arity pop_table].
  apply map_ext_in. intros b Hb. apply in_seq in Hb.
  destruct (functional_decode_nth o Hs Hf b ltac:(lia)) as [H1 H2].
  apply first_true_unique; [exact H1|]. intros i Hi. rewrite <- H2 by exact Hi. unfold g.
  split; auto.
Qed.

Lemma as_partialop_decode_witness :
  PartialOp_decode (as_partialop (mkOperation 2 1 [false; true; true; false])) = [Some 1; Some 0].
Proof.
  assert (Hf : functional (mkOperation 2 1 [false; true; true; false])).
  { split; [reflexivity|]. intros b Hb. simpl in Hb.
    destruct b as [|[|]]; [reflexivity|reflexivity|lia]. }
  rewrite (as_partialop_decode (mkOperation 2 1 [false; true; true; false]) ltac:(simpl; lia) Hf).
  reflexivity.
Defined.

(** X24: [PartialOp.polymer(new_vars, new_arity)], for [new_vars] of
    length [arity] with entries below [new_arity], returns a partial
    operation of arity [new_arity] whose decoded value at [x] is the
    source's decoded value at [(x[new_vars[0]], ...)], [None] included. *)
Theorem PartialOp_polymer_spec p nv n : 1 <= pop_size p ->
  length (pop_table p) = pop_size p ^ (pop_arity p + 1) ->
  length nv = pop_arity p -> Forall (fun v => v < n) nv ->
  pop_size (PartialOp_polymer p nv n) = pop_size p /\ pop_arity (PartialOp_polymer p nv n) = n /\
  length (pop_table (PartialOp_polymer p nv n)) = pop_size p ^ (n + 1) /\
  PartialOp_decode (PartialOp_polymer p nv n) =
    map (fun b => nth (encode (pop_size p) (map (fun v => nth v (digits (pop_size p) n b) 0) nv))
                    (PartialOp_decode p) None)
      (seq 0 (pop_size p ^ n)).
Proof.
  intros Hs Hl Hnv Hf.
  assert (Lp : length (pop_table (PartialOp_polymer p nv n)) = pop_size p ^ (n + 1)).
  { unfold PartialOp_polymer. cbn [pop_table]. rewrite length_op_polymer_loop.
    rewrite Nat.pow_add_r, Nat.pow_1_r. reflexivity. }
  split; [reflexivity|]. split; [reflexivity|]. split; [exact Lp|].
  rewrite pdecode_blocks by (cbn [PartialOp_polymer pop_size pop_arity]; auto).
  cbn [PartialOp_polymer pop_size pop_arity].
  apply map_ext_in. intros b Hb. apply in_seq in Hb.
  set (x := digits (pop_size p) n b).
  assert (Hx : valid (pop_size p) n x) by (apply digits_valid; lia).
  assert (Ex : encode (pop_size p) x = b) by (unfold x; rewrite encode_digits, Nat.mod_small; lia).
  assert (Hm : valid (pop_size p) (pop_arity p) (map (fun v => nth v x 0) nv))
    by (rewrite <- Hnv; apply (valid_map_nth _ n); auto).
  rewrite pdecode_blocks by auto.
  rewrite nth_map_seq0 by (apply encode_lt; exact Hm).
  apply first_true_ext. intros i Hi. apply in_seq in Hi.
  set (ss := polymer_strides (pop_size p) nv (repeat 0 n) (pop_size p)).
  assert (Hss : length ss = n) by (unfold ss; rewrite length_polymer_strides, repeat_length; auto).
  pose proof (op_polymer_loop_nth (pop_size p) (pop_table p) ss n (pop_size p ^ n) (repeat 0 n)
                b i Hs Hss (valid_repeat_0 _ _ Hs) ltac:(lia)
                ltac:(rewrite encode_repeat_0; lia) ltac:(lia)) as H.
  rewrite dot_repeat_0, encode_repeat_0, Nat.add_0_l in H.
  change (pop_table (PartialOp_polymer p nv n))
    with (op_polymer_loop (pop_size p) (pop_table p) ss (pop_size p ^ n) (repeat 0 n) 0).
  rewrite H. fold x. unfold ss. rewrite dot_polymer_strides.
  - rewrite dot_repeat_0_l. f_equal. lia.
  - rewrite repeat_length; auto.
  - destruct Hx; rewrite repeat_length; auto.
Qed.

Lemma PartialOp_polymer_spec_witness :
  PartialOp_decode (PartialOp_polymer (mkPartialOp 2 1 [false; true; false; false]) [1] 2)
  = [Some 1; Some 1; None; None].
Proof.
  destruct (PartialOp_polymer_spec (mkPartialOp 2 1 [false; true; false; false]) [1] 2
              ltac:(simpl; lia) eq_refl eq_refl ltac:(repeat constructor)) as (_ & _ & _ & H).
  rewrite H. reflexivity.
Defined.

(** ** PartialOp.compose *)

Lemma pdecode_nth p b : 1 <= pop_size p ->
  length (pop_table p) = pop_size p ^ (pop_arity p + 1) -> b < pop_size p ^ pop_arity p ->
  nth b (PartialOp_decode p) None = first_true (pop_table p) (b * pop_size p) (seq 0 (pop_size p)).
Proof.
  intros Hs Hl Hb. rewrite pdecode_blocks by auto.
  exact (nth_map_seq0 (fun b => first_true (pop_table p) (b * pop_size p) (seq 0 (pop_size p)))
           _ b None Hb).
Qed.

Lemma pdecode_some_lt p b y : 1 <= pop_size p ->
  length (pop_table p) = pop_size p ^ (pop_arity p + 1) ->
  nth b (PartialOp_decode p) None = Some y -> y < pop_size p.
Proof.
  intros Hs Hl H. destruct (Nat.lt_ge_cases b (pop_size p ^ pop_arity p)) as [Hb|Hb].
  - rewrite pdecode_nth in H by auto. apply first_true_some in H as [Hin _].
    apply in_seq in Hin. lia.
  - rewrite nth_overflow in H; [discriminate|].
    rewrite pdecode_blocks, length_map, length_seq by auto. exact Hb.
Qed.

(** Under the invariant of [PartialOp], the graph holds at [(y, x)]
    exactly when [decode] has the value [y] at [x]. *)
Lemma pfunctional_cell p y x : 1 <= pop_size p -> partial_functional p ->
  valid (pop_size p) (pop_arity p) x -> y < pop_size p ->
  (cell (PartialOp_as_relation p) (y :: x) = true <->
   nth (encode (pop_size p) x) (PartialOp_decode p) None = Some y).
Proof.
  intros Hs [Hl Ha] Hx Hy. pose proof (encode_lt _ _ _ Hx) as He.
  rewrite pdecode_nth by auto.
  specialize (Ha _ He).
  rewrite slice_blocks in Ha by (rewrite Hl, Nat.pow_add_r, Nat.pow_1_r; nia).
  pose proof (proj1 (count_true_amo
                       (fun i => nth (encode (pop_size p) x * pop_size p + i) (pop_table p) false)
                       (seq 0 (pop_size p)) ltac:(apply seq_NoDup)) Ha) as Hu.
  unfold cell. cbn [PartialOp_as_relation size table encode].
  replace (y + pop_size p * encode (pop_size p) x) with (encode (pop_size p) x * pop_size p + y)
    by lia.
  split.
  - intros Hc. case_eq (first_true (pop_table p) (encode (pop_size p) x * pop_size p)
                          (seq 0 (pop_size p))).
    + intros j Hj. destruct (first_true_some _ _ _ _ Hj) as [Hin Ht]. f_equal.
      apply (Hu j y); auto. apply in_seq; lia.
    + intros Hn. rewrite (first_true_none _ _ _ Hn y) in Hc; [discriminate|]. apply in_seq; lia.
  - intros Hj. destruct (first_true_some _ _ _ _ Hj) as [_ Ht]. exact Ht.
Qed.

Lemma pcompose_args_eq n total : forall args idx rel,
  pcompose_args n total idx args rel =
  compose_args n total idx
    (map (fun p => mkOperation (pop_size p) (pop_arity p) (pop_table p)) args) rel.
Proof.
  induction args as [|a args IH]; intros idx rel; simpl; auto.
Qed.

(** [PartialOp.compose] runs the code of [Operation.compose] on the same
    tables. *)
Lemma PartialOp_compose_as_op f args :
  PartialOp_compose f args =
  match Operation_compose (mkOperation (pop_size f) (pop_arity f) (pop_table f))
          (map (fun p => mkOperation (pop_size p) (pop_arity p) (pop_table p)) args) with
  | Ok o => Ok (as_partialop o)
  | Raise e => Raise e
  end.
Proof.
  unfold PartialOp_compose, Operation_compose. destruct args as [|a0 rest]; [reflexivity|].
  rewrite pcompose_args_eq.
  change (map ?g (a0 :: rest)) with (g a0 :: map g rest). cbv iota beta.
  cbn [length op_arity op_size op_table]. rewrite length_map.
  destruct (negb _); reflexivity.
Qed.


